(** * torrent_handle: cross-thread dispatch onto the session's io_service

    A shallow embedding of [src/torrent_handle.cpp].  A [torrent_handle]
    wraps a [std::weak_ptr<torrent>]; every operation goes through one of
    the three call primitives [async_call], [sync_call] and
    [sync_call_ret], which upgrade the weak pointer and hand a closure to
    the session's [io_service].

    The file has two halves: the definitions (the pointer model, the handle
    operations, the executor and the calling threads as a labelled
    transition system), then the theorems. *)

From Stdlib Require Import ZArith List Lia.
From stdpp Require Import base tactics option list gmap relations.

Set Default Proof Using "Type".
Set Warnings "-clear-no-such-hyp".

(** ** Smart pointers

    [std::shared_ptr] and [std::weak_ptr] are modelled by their control
    blocks: a heap maps the address of a control block to its strong count
    and to the object it manages.  A pointer value is the pair of words a
    standard library stores for it: the object address and the control
    block address (null is 0). *)

Record ctrl_block (actor : Type) := CtrlBlock {
  use_count : nat;
  object : actor
}.
Arguments CtrlBlock {actor} _ _.
Arguments use_count {actor} _.
Arguments object {actor} _.

Record shared_ptr := SharedPtr { s_ptr : Z; s_ctrl : Z }.
Record weak_ptr := WeakPtr { w_ptr : Z; w_ctrl : Z }.

(** The handle has a single data member, [m_torrent]. *)
Record torrent_handle := TorrentHandle { m_torrent : weak_ptr }.

(** The threads of the process: the calling threads by index, and the
    thread that runs the io_service. *)
Inductive thread := Caller (i : nat) | Executor.

(** [sha1_hash] is a 20-byte digest. *)
Definition sha1_hash := list Z.

Section pointers.
Context {actor : Type}.

Definition incr_use (b : ctrl_block actor) : ctrl_block actor :=
  CtrlBlock (S (use_count b)) (object b).
Definition decr_use (b : ctrl_block actor) : ctrl_block actor :=
  CtrlBlock (pred (use_count b)) (object b).
Definition set_object (a : actor) (b : ctrl_block actor) : ctrl_block actor :=
  CtrlBlock (use_count b) a.

(** copy construction and destruction of a [shared_ptr] on block [c] *)
Definition acquire (c : Z) (w : gmap Z (ctrl_block actor)) : gmap Z (ctrl_block actor) :=
  alter incr_use c w.
Definition release (c : Z) (w : gmap Z (ctrl_block actor)) : gmap Z (ctrl_block actor) :=
  alter decr_use c w.

(** [weak_ptr::use_count] and [weak_ptr::expired] *)
Definition weak_use_count (p : weak_ptr) (w : gmap Z (ctrl_block actor)) : nat :=
  match w !! w_ctrl p with
  | Some b => use_count b
  | None => 0
  end.
Definition expired (p : weak_ptr) (w : gmap Z (ctrl_block actor)) : bool :=
  Nat.eqb (weak_use_count p w) 0.

(** [weak_ptr::lock]: an empty pointer when [expired()], else a
    new strong reference to the same object, decided atomically.  The result is the pointer (None is the empty
    pointer) and the heap with the new strong reference counted. *)
Definition lock (p : weak_ptr) (w : gmap Z (ctrl_block actor))
  : option shared_ptr * gmap Z (ctrl_block actor) :=
  if expired p w then (None, w)
  else (Some (SharedPtr (w_ptr p) (w_ctrl p)), acquire (w_ctrl p) w).

(** What the rest of the program can do to the heap of control blocks:
    make a new torrent, copy or drop a strong reference it holds, lock
    any weak pointer, or run a method on a live object. *)
Inductive heap_step : gmap Z (ctrl_block actor) → gmap Z (ctrl_block actor) → Prop :=
| hs_make_shared w c a :
    w !! c = None → c ≠ 0%Z →
    heap_step w (<[c := CtrlBlock 1 a]> w)
| hs_lock w p :
    heap_step w (lock p w).2
| hs_copy w c b :
    w !! c = Some b → 0 < use_count b →
    heap_step w (acquire c w)
| hs_drop w c b :
    w !! c = Some b → 0 < use_count b →
    heap_step w (release c w)
| hs_method w c b a :
    w !! c = Some b → 0 < use_count b →
    heap_step w (<[c := set_object a b]> w).

(** A weak pointer keeps its control block allocated; the empty weak
    pointer has the null control block. *)
Definition weak_wf (p : weak_ptr) (w : gmap Z (ctrl_block actor)) : Prop :=
  match w !! w_ctrl p with
  | Some _ => True
  | None => w_ctrl p = 0%Z
  end.

(** ** Handle operations that do not dispatch *)

(** [bool torrent_handle::is_valid() const { return !m_torrent.expired(); }] *)
Definition is_valid (h : torrent_handle) (w : gmap Z (ctrl_block actor)) : bool :=
  negb (expired (m_torrent h) w).

(** [std::shared_ptr<torrent> torrent_handle::native_handle() const
    { return m_torrent.lock(); }] *)
Definition native_handle (h : torrent_handle) (w : gmap Z (ctrl_block actor))
  : option shared_ptr * gmap Z (ctrl_block actor) :=
  lock (m_torrent h) w.
End pointers.

(** ** hash_value

    The body reinterprets the address of [th.m_torrent] as a pointer to
    [void* const], loads through it and converts to [std::size_t]: it reads the
    first pointer-sized word of the weak pointer's object representation.
    Which member that word is belongs to the standard library, so the
    representation is a parameter: the words of a weak pointer in memory
    order. *)

Definition size_t_max : Z := 2 ^ 64.

Definition hash_value (repr : weak_ptr → list Z) (th : torrent_handle) : Z :=
  (nth 0 (repr (m_torrent th)) 0 mod size_t_max)%Z.

(** The two orders in which a library can lay out the two words. *)
Definition ptr_first (p : weak_ptr) : list Z := [w_ptr p; w_ctrl p].
Definition ctrl_first (p : weak_ptr) : list Z := [w_ctrl p; w_ptr p].

(** ** The session and the call primitives

    [actor] is the class [torrent], opaque here: a method with its
    arguments bound is a function on the torrent's state.  [val] is the type
    [Ret] of a result. *)

Section dispatch.
Context {actor val : Type}.

(** The build configuration of [TORRENT_ASSERT_PRECOND], a macro declared
    outside this file: with assertions compiled in, a false precondition
    aborts the process; compiled out, the macro expands to nothing. *)
Variable asserts_enabled : bool.

(** [TORRENT_ASSERT_PRECOND(x)]: does execution continue? *)
Definition TORRENT_ASSERT_PRECOND (x : bool) : bool :=
  negb asserts_enabled || x.

(** The closures handed to the io_service.  Each captures the strong
    pointer [t] and the bound method by value; the blocking ones also
    capture [done] (and [r]) of the calling thread by reference, so they
    name the caller whose stack frame holds them. *)
Inductive task :=
| async_task (t : shared_ptr) (f : actor → actor)
| sync_task (t : shared_ptr) (f : actor → actor) (caller : nat)
| sync_ret_task (t : shared_ptr) (f : actor → actor * val) (caller : nat).

Definition task_ref (k : task) : shared_ptr :=
  match k with
  | async_task t _ | sync_task t _ _ | sync_ret_task t _ _ => t
  end.

Definition task_caller (k : task) : option nat :=
  match k with
  | async_task _ _ => None
  | sync_task _ _ i | sync_ret_task _ _ i => Some i
  end.

(** What [session_impl] contributes: the torrents it owns, the handler
    queue of its io_service, and the mutex [mut] shared by all blocking
    calls (who holds it, if anyone).  The threads blocked on [cond] are
    read off the callers' program counters below. *)
Record session_impl := Session {
  torrents : gmap Z (ctrl_block actor);
  io_service : list task;
  mut : option thread
}.

Definition set_torrents (w : gmap Z (ctrl_block actor)) (ses : session_impl) :=
  Session w (io_service ses) (mut ses).
Definition set_mut (m : option thread) (ses : session_impl) :=
  Session (torrents ses) (io_service ses) m.

(** [ses.get_io_service().dispatch(handler)] from a thread other than the
    one running the io_service: the handler is appended to the queue.
    The handler object holds its own copy of the captured [t]. *)
Definition dispatch (k : task) (ses : session_impl) : session_impl :=
  Session (acquire (s_ctrl (task_ref k)) (torrents ses))
          (io_service ses ++ [k]) (mut ses).

(** How a call primitive leaves its prologue. *)
Inductive outcome :=
| PrecondFailed
    (* TORRENT_ASSERT_PRECOND stopped the process *)
| Returned (ret : option val) (ses : session_impl)
    (* the function returned ([None] for void) *)
| Waiting (t : shared_ptr) (done : bool) (r : option val) (ses : session_impl).
    (* the caller is at [aux::torrent_wait(done, ses)], holding the
       locals [t], [done] and [r] *)

(** [template<typename Fun, typename... Args>
     void torrent_handle::async_call(Fun f, Args&&... a) const] *)
Definition async_call (h : torrent_handle) (f : actor → actor)
    (ses : session_impl) : outcome :=
  let '(t, w) := lock (m_torrent h) (torrents ses) in
  if negb (TORRENT_ASSERT_PRECOND (bool_decide (is_Some t))) then PrecondFailed
  else match t with
  | None => Returned None (set_torrents w ses)
  | Some t =>
      let ses := dispatch (async_task t f) (set_torrents w ses) in
      (* [t] goes out of scope on return *)
      Returned None (set_torrents (release (s_ctrl t) (torrents ses)) ses)
  end.

(** [template<typename Fun, typename... Args>
     void torrent_handle::sync_call(Fun f, Args&&... a) const],
    called on thread [me], up to the call of [torrent_wait] *)
Definition sync_call (h : torrent_handle) (f : actor → actor) (me : nat)
    (ses : session_impl) : outcome :=
  let '(t, w) := lock (m_torrent h) (torrents ses) in
  if negb (TORRENT_ASSERT_PRECOND (bool_decide (is_Some t))) then PrecondFailed
  else match t with
  | None => Returned None (set_torrents w ses)
  | Some t =>
      let done := false in
      let ses := dispatch (sync_task t f me) (set_torrents w ses) in
      Waiting t done None ses
  end.

(** [template<typename Ret, typename Fun, typename... Args>
     Ret torrent_handle::sync_call_ret(Ret def, Fun f, Args&&... a) const],
    called on thread [me], up to the call of [torrent_wait] *)
Definition sync_call_ret (h : torrent_handle) (def : val)
    (f : actor → actor * val) (me : nat) (ses : session_impl) : outcome :=
  let '(t, w) := lock (m_torrent h) (torrents ses) in
  if negb (TORRENT_ASSERT_PRECOND (bool_decide (is_Some t))) then PrecondFailed
  else
    let r := def in
    match t with
    | None => Returned (Some r) (set_torrents w ses)
    | Some t =>
        let done := false in
        let ses := dispatch (sync_ret_task t f me) (set_torrents w ses) in
        Waiting t done (Some r) ses
    end.

(** [sha1_hash torrent_handle::info_hash() const]; [torrent::info_hash]
    is a const accessor of the torrent, a parameter here.  The function
    returns the digest and the session as it leaves it. *)
Definition info_hash (torrent_info_hash : actor → sha1_hash)
    (h : torrent_handle) (ses : session_impl) : sha1_hash * session_impl :=
  let '(t, w) := lock (m_torrent h) (torrents ses) in
  (* static const sha1_hash empty: a default-constructed digest, 20 zero bytes *)
  let empty := replicate 20 0%Z in
  match t with
  | None => (empty, set_torrents w ses)
  | Some t =>
      match w !! s_ctrl t with
      | Some b => (torrent_info_hash (object b), set_torrents (release (s_ctrl t) w) ses)
      | None => (empty, set_torrents w ses)
      end
  end.

(** ** The deprecated operations with empty bodies *)

(** [int torrent_handle::get_peer_upload_limit(tcp::endpoint) const { return -1; }] *)
Definition get_peer_upload_limit {endpoint : Type} (h : torrent_handle)
    (ep : endpoint) (ses : session_impl) : Z * session_impl := ((-1)%Z, ses).
(** [int torrent_handle::get_peer_download_limit(tcp::endpoint) const { return -1; }] *)
Definition get_peer_download_limit {endpoint : Type} (h : torrent_handle)
    (ep : endpoint) (ses : session_impl) : Z * session_impl := ((-1)%Z, ses).
(** [void torrent_handle::set_peer_upload_limit(tcp::endpoint, int) const {}] *)
Definition set_peer_upload_limit {endpoint : Type} (h : torrent_handle)
    (ep : endpoint) (limit : Z) (ses : session_impl) : session_impl := ses.
(** [void torrent_handle::set_peer_download_limit(tcp::endpoint, int) const {}] *)
Definition set_peer_download_limit {endpoint : Type} (h : torrent_handle)
    (ep : endpoint) (limit : Z) (ses : session_impl) : session_impl := ses.
(** [void torrent_handle::set_ratio(float) const {}] *)
Definition set_ratio {float : Type} (h : torrent_handle) (ratio : float)
    (ses : session_impl) : session_impl := ses.
(** [void torrent_handle::set_priority(int) const {}] *)
Definition set_priority (h : torrent_handle) (prio : Z)
    (ses : session_impl) : session_impl := ses.
End dispatch.

Arguments task : clear implicits.
Arguments session_impl : clear implicits.
Arguments outcome : clear implicits.

(** [int torrent_handle::queue_position() const
     { return sync_call_ret<int>(-1, &torrent::queue_position); }] *)
Definition queue_position {actor : Type} (asserts_enabled : bool)
    (torrent_queue_position : actor → actor * Z)
    (h : torrent_handle) (me : nat) (ses : session_impl actor Z) : outcome actor Z :=
  sync_call_ret asserts_enabled h (-1)%Z torrent_queue_position me ses.

(** ** get_torrent_info

    The function-local statics [holder] (four shared pointers, named here
    by the address of the [torrent_info] they own, 0 for the empty pointer)
    and [cursor] (an [int]). *)

Record info_holder := InfoHolder {
  holder : list Z;
  cursor : Z
}.

(** The statics before the first call. *)
Definition holder_init : info_holder := InfoHolder [0; 0; 0; 0]%Z 0%Z.

(** [sizeof(holder) / sizeof(holder[0])], a [std::size_t] *)
Definition holder_slots : Z := 4.

(** conversions between [int] and [std::size_t] *)
Definition to_int (z : Z) : Z := ((z + 2 ^ 31) mod 2 ^ 32 - 2 ^ 31)%Z.
Definition to_size_t (z : Z) : Z := (z mod size_t_max)%Z.

(** [torrent_info const& torrent_handle::get_torrent_info() const], from
    the point where [r = torrent_file()] has returned: under
    [holder_mutex], [holder[cursor++] = r] and the reduction of [cursor]
    modulo the number of slots (computed in [std::size_t], stored back to
    the [int]).  The result is the object the returned reference is bound
    to ([None] when [r] is empty, where [*r] has no object) and the
    statics afterwards. *)
Definition get_torrent_info (r : Z) (g : info_holder) : option Z * info_holder :=
  let holder' := <[Z.to_nat (cursor g) := r]> (holder g) in
  let cursor' := to_int (cursor g + 1) in
  let cursor' := to_int (to_size_t cursor' mod holder_slots) in
  (if decide (r = 0%Z) then None else Some r, InfoHolder holder' cursor').

(** The statics after a sequence of calls that fetched [rs], oldest first. *)
Definition after_calls (rs : list Z) (g : info_holder) : info_holder :=
  foldl (λ g r, (get_torrent_info r g).2) g rs.

(** ** Calling threads and the executor as a transition system

    Each calling thread runs a fixed program, a list of calls on handles.
    The thread that runs the io_service takes handlers off the queue one at
    a time.  A state change of one thread is one transition; which thread
    moves next is the scheduler's choice, a [label]. *)

(** Where a thread stands inside [torrent_wait]. *)
Inductive wait_pos :=
| AtEnter      (* about to lock [ses.mut] *)
| AtTest       (* holds [ses.mut], evaluating [while (!done)] *)
| AtBlocked    (* inside [ses.cond.wait(l)], mutex released *)
| AtWoken.     (* woken, re-acquiring [ses.mut] inside [wait] *)

Inductive wait_next := Stay (p : wait_pos) | Leave.

(** Modelled from the spec: [aux::torrent_wait(done, ses)], which
    [sync_call] and [sync_call_ret] call, is defined in another file of the
    library.  Following section 4.3, "the calling thread acquires the mutex
    and waits on the condition predicate flag == true, looping to guard
    against spurious wakeup, then returns".  One transition of thread [me]
    at position [p], reading [done] and the owner [m] of the mutex; the
    result is the next position and the new owner, or [None] when the
    thread cannot move. *)
Definition torrent_wait (me : nat) (p : wait_pos) (done : bool)
    (m : option thread) : option (wait_next * option thread) :=
  match p with
  | AtEnter | AtWoken =>
      match m with
      | None => Some (Stay AtTest, Some (Caller me))
      | Some _ => None
      end
  | AtTest =>
      if done then Some (Leave, None) else Some (Stay AtBlocked, None)
  | AtBlocked => None
  end.

Section system.
Context {actor val : Type}.
Variable asserts_enabled : bool.

(** The three call shapes a program can use. *)
Inductive call :=
| call_async (f : actor → actor)
| call_sync (f : actor → actor)
| call_sync_ret (def : val) (f : actor → actor * val).

Definition issue (h : torrent_handle) (c : call) (me : nat)
    (ses : session_impl actor val) : outcome actor val :=
  match c with
  | call_async f => async_call asserts_enabled h f ses
  | call_sync f => sync_call asserts_enabled h f me ses
  | call_sync_ret def f => sync_call_ret asserts_enabled h def f me ses
  end.

Inductive caller_pc :=
| Ready
| InWait (t : shared_ptr) (p : wait_pos).

(** How a finished call came back: without waiting, or out of
    [torrent_wait]. *)
Inductive ret :=
| Immediate (v : option val)
| Waited (v : option val).

Definition ret_value (x : ret) : option val :=
  match x with Immediate v | Waited v => v end.

(** A calling thread: its program, where it stands, the locals [done]
    and [r] of the call in progress, and the results of the calls it has
    finished, oldest first.  The next call is the one at index
    [length rets]. *)
Record caller := CallerSt {
  program : list (torrent_handle * call);
  pc : caller_pc;
  done : bool;
  r : option val;
  rets : list ret
}.

Definition set_pc (p : caller_pc) (c : caller) : caller :=
  CallerSt (program c) p (done c) (r c) (rets c).
Definition set_done (d : bool) (c : caller) : caller :=
  CallerSt (program c) (pc c) d (r c) (rets c).
Definition set_r (v : option val) (c : caller) : caller :=
  CallerSt (program c) (pc c) (done c) v (rets c).

(** The executor inside a handler. *)
Inductive exec_pc :=
| Idle
| Invoked (k : task actor val)     (* [(t.get()->*f)(a...)] has returned *)
| Locked (k : task actor val)      (* [std::unique_lock<std::mutex> l(ses.mut)] *)
| Flagged (k : task actor val)     (* [done = true] *)
| Signalled (k : task actor val).  (* [ses.cond.notify_all()] *)

(** One run of a method on the executor, kept as a record of the
    execution: the handler, the index of the call in its caller's
    program, the torrent before and after, and the value produced. *)
Record invocation := Invocation {
  inv_task : task actor val;
  inv_index : nat;
  inv_pre : actor;
  inv_post : actor;
  inv_value : option val
}.

Record system := System {
  ses : session_impl actor val;
  callers : list caller;
  exec : exec_pc;
  log : list invocation;
  aborted : bool
}.

(** [(t.get()->*f)(a...)] on the torrent's state *)
Definition run_method (k : task actor val) (a : actor) : actor * option val :=
  match k with
  | async_task _ f | sync_task _ f _ => (f a, None)
  | sync_ret_task _ f _ => let '(a', v) := f a in (a', Some v)
  end.

(** [r = ...] in the handler of [sync_call_ret] *)
Definition store_result (k : task actor val) (v : option val)
    (cs : list caller) : list caller :=
  match k with
  | sync_ret_task _ _ i => alter (set_r v) i cs
  | _ => cs
  end.

Definition call_index (i : option nat) (cs : list caller) : nat :=
  match i with
  | Some i => from_option (λ c, length (rets c)) 0 (cs !! i)
  | None => 0
  end.

(** [std::condition_variable::notify_all]: every thread blocked in
    [wait] is woken. *)
Definition wake (c : caller) : caller :=
  match pc c with
  | InWait t AtBlocked => set_pc (InWait t AtWoken) c
  | _ => c
  end.
Definition notify_all (cs : list caller) : list caller := wake <$> cs.

(** A transition of calling thread [i]. *)
Definition caller_step (i : nat) (s : system) : option system :=
  c ← callers s !! i;
  match pc c with
  | Ready =>
      '(h, cl) ← program c !! length (rets c);
      Some match issue h cl i (ses s) with
      | PrecondFailed =>
          System (ses s) (callers s) (exec s) (log s) true
      | Returned v ses' =>
          System ses'
            (<[i := CallerSt (program c) Ready (done c) (r c) (rets c ++ [Immediate v])]> (callers s))
            (exec s) (log s) (aborted s)
      | Waiting t d r0 ses' =>
          System ses'
            (<[i := CallerSt (program c) (InWait t AtEnter) d r0 (rets c)]> (callers s))
            (exec s) (log s) (aborted s)
      end
  | InWait t p =>
      '(nxt, m) ← torrent_wait i p (done c) (mut (ses s));
      Some match nxt with
      | Stay p' =>
          System (set_mut m (ses s))
            (<[i := set_pc (InWait t p') c]> (callers s))
            (exec s) (log s) (aborted s)
      | Leave =>
          (* [return r] (nothing for [sync_call]); [t] goes out of scope *)
          System (set_torrents (release (s_ctrl t) (torrents (ses s))) (set_mut m (ses s)))
            (<[i := CallerSt (program c) Ready (done c) (r c) (rets c ++ [Waited (r c)])]> (callers s))
            (exec s) (log s) (aborted s)
      end
  end.

(** A transition of the thread running the io_service: take the next
    handler and run its body statement by statement. *)
Definition exec_step (s : system) : option system :=
  match exec s with
  | Idle =>
      match io_service (ses s) with
      | [] => None
      | k :: q =>
          b ← torrents (ses s) !! s_ctrl (task_ref k);
          let '(a', v) := run_method k (object b) in
          Some (System
            (Session (<[s_ctrl (task_ref k) := set_object a' b]> (torrents (ses s)))
                     q (mut (ses s)))
            (store_result k v (callers s))
            (Invoked k)
            (log s ++ [Invocation k (call_index (task_caller k) (callers s)) (object b) a' v])
            (aborted s))
      end
  | Invoked k =>
      match task_caller k with
      | None =>
          (* the handler of [async_call] is finished and destroyed *)
          Some (System (set_torrents (release (s_ctrl (task_ref k)) (torrents (ses s))) (ses s))
                  (callers s) Idle (log s) (aborted s))
      | Some _ =>
          match mut (ses s) with
          | None =>
              Some (System (set_mut (Some Executor) (ses s))
                      (callers s) (Locked k) (log s) (aborted s))
          | Some _ => None
          end
      end
  | Locked k =>
      Some (System (ses s)
              (match task_caller k with
               | Some i => alter (set_done true) i (callers s)
               | None => callers s
               end)
              (Flagged k) (log s) (aborted s))
  | Flagged k =>
      Some (System (ses s) (notify_all (callers s)) (Signalled k) (log s) (aborted s))
  | Signalled k =>
      (* [l] unlocks; the handler is destroyed *)
      Some (System
              (set_torrents (release (s_ctrl (task_ref k)) (torrents (ses s)))
                 (set_mut None (ses s)))
              (callers s) Idle (log s) (aborted s))
  end.

(** A condition variable may wake a waiting thread without a
    notification. *)
Definition spurious_step (i : nat) (s : system) : option system :=
  c ← callers s !! i;
  match pc c with
  | InWait t AtBlocked =>
      Some (System (ses s) (<[i := set_pc (InWait t AtWoken) c]> (callers s))
              (exec s) (log s) (aborted s))
  | _ => None
  end.

Inductive label :=
| run_caller (i : nat)
| run_executor
| spurious_wakeup (i : nat).

Definition step (l : label) (s : system) : option system :=
  if aborted s then None
  else match l with
  | run_caller i => caller_step i s
  | run_executor => exec_step s
  | spurious_wakeup i => spurious_step i s
  end.

(** The state after a schedule, if every transition of it can fire. *)
Fixpoint run (ls : list label) (s : system) : option system :=
  match ls with
  | [] => Some s
  | l :: ls => s' ← step l s; run ls s'
  end.

(** The start: the torrents [w] owned by the session, nothing queued,
    the mutex free, every thread before its first call. *)
Definition boot (w : gmap Z (ctrl_block actor))
    (progs : list (list (torrent_handle * call))) : system :=
  System (Session w [] None)
         ((λ p, CallerSt p Ready false None []) <$> progs)
         Idle [] false.

Definition is_spurious (l : label) : bool :=
  match l with spurious_wakeup _ => true | _ => false end.

(** A thread has returned from all its calls. *)
Definition finished (c : caller) : bool :=
  match pc c with
  | Ready => bool_decide (length (program c) ≤ length (rets c))
  | InWait _ _ => false
  end.
End system.

Arguments call : clear implicits.
Arguments caller : clear implicits.
Arguments ret : clear implicits.
Arguments exec_pc : clear implicits.
Arguments invocation : clear implicits.
Arguments system : clear implicits.

(** The statics are well formed: four slots and a cursor that indexes
    one of them. *)
Definition holder_ok (g : info_holder) : Prop :=
  length (holder g) = 4 ∧ (0 ≤ cursor g < 4)%Z.

(** ** Reading the transition system

    The functions above compute; the definitions below describe.  First
    the transitions, one constructor per statement reached, with the call
    primitives unfolded; then what is counted in a state (handlers in
    flight, strong references held, work left) and the invariants of the
    reachable states. *)

Section system_views.
Context {actor val : Type}.
Variable asserts_enabled : bool.

(** the strong pointer [lock] makes from the weak pointer of [h] *)
Definition ptr_of (h : torrent_handle) : shared_ptr :=
  SharedPtr (w_ptr (m_torrent h)) (w_ctrl (m_torrent h)).

(** the handler a call submits *)
Definition task_of_call (t : shared_ptr) (cl : call actor val) (i : nat)
    : task actor val :=
  match cl with
  | call_async f => async_task t f
  | call_sync f => sync_task t f i
  | call_sync_ret _ f => sync_ret_task t f i
  end.

(** what a call returns when the torrent is gone, which is also the
    initial value of [r] *)
Definition default_of (cl : call actor val) : option val :=
  match cl with
  | call_sync_ret def _ => Some def
  | _ => None
  end.

Definition is_async (cl : call actor val) : bool :=
  match cl with call_async _ => true | _ => false end.

Definition next_call (c : caller actor val) : option (torrent_handle * call actor val) :=
  program c !! length (rets c).

Definition returned_now (v : option val) (c : caller actor val) : caller actor val :=
  CallerSt (program c) Ready (done c) (r c) (rets c ++ [Immediate v]).

Inductive transition (s : system actor val) : label → system actor val → Prop :=
| t_assert i c h cl :
    callers s !! i = Some c → pc c = Ready → next_call c = Some (h, cl) →
    expired (m_torrent h) (torrents (ses s)) = true → asserts_enabled = true →
    transition s (run_caller i)
      (System (ses s) (callers s) (exec s) (log s) true)
| t_skip i c h cl :
    callers s !! i = Some c → pc c = Ready → next_call c = Some (h, cl) →
    expired (m_torrent h) (torrents (ses s)) = true → asserts_enabled = false →
    transition s (run_caller i)
      (System (ses s) (<[i := returned_now (default_of cl) c]> (callers s))
              (exec s) (log s) (aborted s))
| t_post i c h f :
    callers s !! i = Some c → pc c = Ready → next_call c = Some (h, call_async f) →
    expired (m_torrent h) (torrents (ses s)) = false →
    transition s (run_caller i)
      (System (Session (acquire (w_ctrl (m_torrent h)) (torrents (ses s)))
                       (io_service (ses s) ++ [async_task (ptr_of h) f])
                       (mut (ses s)))
              (<[i := returned_now None c]> (callers s))
              (exec s) (log s) (aborted s))
| t_call i c h cl :
    callers s !! i = Some c → pc c = Ready → next_call c = Some (h, cl) →
    expired (m_torrent h) (torrents (ses s)) = false → is_async cl = false →
    transition s (run_caller i)
      (System (Session (acquire (w_ctrl (m_torrent h))
                          (acquire (w_ctrl (m_torrent h)) (torrents (ses s))))
                       (io_service (ses s) ++ [task_of_call (ptr_of h) cl i])
                       (mut (ses s)))
              (<[i := CallerSt (program c) (InWait (ptr_of h) AtEnter) false
                               (default_of cl) (rets c)]> (callers s))
              (exec s) (log s) (aborted s))
| t_lock i c t p :
    callers s !! i = Some c → pc c = InWait t p → p = AtEnter ∨ p = AtWoken →
    mut (ses s) = None →
    transition s (run_caller i)
      (System (set_mut (Some (Caller i)) (ses s))
              (<[i := set_pc (InWait t AtTest) c]> (callers s))
              (exec s) (log s) (aborted s))
| t_block i c t :
    callers s !! i = Some c → pc c = InWait t AtTest → done c = false →
    transition s (run_caller i)
      (System (set_mut None (ses s))
              (<[i := set_pc (InWait t AtBlocked) c]> (callers s))
              (exec s) (log s) (aborted s))
| t_leave i c t :
    callers s !! i = Some c → pc c = InWait t AtTest → done c = true →
    transition s (run_caller i)
      (System (set_torrents (release (s_ctrl t) (torrents (ses s))) (set_mut None (ses s)))
              (<[i := CallerSt (program c) Ready true (r c) (rets c ++ [Waited (r c)])]>
                 (callers s))
              (exec s) (log s) (aborted s))
| t_invoke k q b a' v :
    exec s = Idle → io_service (ses s) = k :: q →
    torrents (ses s) !! s_ctrl (task_ref k) = Some b →
    run_method k (object b) = (a', v) →
    transition s run_executor
      (System (Session (<[s_ctrl (task_ref k) := set_object a' b]> (torrents (ses s)))
                       q (mut (ses s)))
              (store_result k v (callers s))
              (Invoked k)
              (log s ++ [Invocation k (call_index (task_caller k) (callers s)) (object b) a' v])
              (aborted s))
| t_async_done k :
    exec s = Invoked k → task_caller k = None →
    transition s run_executor
      (System (set_torrents (release (s_ctrl (task_ref k)) (torrents (ses s))) (ses s))
              (callers s) Idle (log s) (aborted s))
| t_exec_lock k i :
    exec s = Invoked k → task_caller k = Some i → mut (ses s) = None →
    transition s run_executor
      (System (set_mut (Some Executor) (ses s)) (callers s) (Locked k) (log s) (aborted s))
| t_flag k :
    exec s = Locked k →
    transition s run_executor
      (System (ses s)
              (match task_caller k with
               | Some i => alter (set_done true) i (callers s)
               | None => callers s
               end)
              (Flagged k) (log s) (aborted s))
| t_notify k :
    exec s = Flagged k →
    transition s run_executor
      (System (ses s) (notify_all (callers s)) (Signalled k) (log s) (aborted s))
| t_unlock k :
    exec s = Signalled k →
    transition s run_executor
      (System (set_torrents (release (s_ctrl (task_ref k)) (torrents (ses s)))
                 (set_mut None (ses s)))
              (callers s) Idle (log s) (aborted s))
| t_spurious i c t :
    callers s !! i = Some c → pc c = InWait t AtBlocked →
    transition s (spurious_wakeup i)
      (System (ses s) (<[i := set_pc (InWait t AtWoken) c]> (callers s))
              (exec s) (log s) (aborted s)).

(** what the executor's writes do to the frame of caller [i]: the store
    to [r] by the handler of [sync_call_ret], the store to [done] *)
Definition stored (k : task actor val) (v : option val) (i : nat)
    (c : caller actor val) : caller actor val :=
  match k with
  | sync_ret_task _ _ j => if decide (j = i) then set_r v c else c
  | _ => c
  end.
Definition flagged (k : task actor val) (i : nat)
    (c : caller actor val) : caller actor val :=
  if decide (task_caller k = Some i) then set_done true c else c.

(** *** Counts *)

(** handlers of caller [i]: in the queue, in the executor before the
    flag is set, in the executor after *)
Definition owes (i : nat) (k : task actor val) : nat :=
  if decide (task_caller k = Some i) then 1 else 0.
Definition queued (i : nat) (q : list (task actor val)) : nat :=
  sum_list_with (owes i) q.
Definition before_flag (i : nat) (e : exec_pc actor val) : nat :=
  match e with Invoked k | Locked k => owes i k | _ => 0 end.
Definition after_flag (i : nat) (e : exec_pc actor val) : nat :=
  match e with Flagged k | Signalled k => owes i k | _ => 0 end.

Definition exec_task (e : exec_pc actor val) : option (task actor val) :=
  match e with
  | Idle => None
  | Invoked k | Locked k | Flagged k | Signalled k => Some k
  end.
Definition exec_locked (e : exec_pc actor val) : bool :=
  match e with Locked _ | Flagged _ | Signalled _ => true | _ => false end.
Definition at_test (c : caller actor val) : bool :=
  match pc c with InWait _ AtTest => true | _ => false end.

(** strong references to block [b] held by the threads and the queue *)
Definition holds (b : Z) (t : shared_ptr) : nat :=
  if decide (s_ctrl t = b) then 1 else 0.
Definition caller_holds (b : Z) (c : caller actor val) : nat :=
  match pc c with InWait t _ => holds b t | Ready => 0 end.
Definition task_holds (b : Z) (k : task actor val) : nat := holds b (task_ref k).
Definition held (b : Z) (s : system actor val) : nat :=
  sum_list_with (caller_holds b) (callers s)
  + sum_list_with (task_holds b) (io_service (ses s))
  + from_option (task_holds b) 0 (exec_task (exec s)).

(** the state of the torrent of block [b] after the invocations [lg],
    started from [a] *)
Definition invoked_on (b : Z) (e : invocation actor val) : bool :=
  bool_decide (s_ctrl (task_ref (inv_task e)) = b).
Definition obj_after (lg : list (invocation actor val)) (b : Z) (a : actor) : actor :=
  foldl (λ a e, if invoked_on b e then inv_post e else a) a lg.

(** *** Work left

    A bound on the transitions still to come (wakeups without a
    notification apart), for [n] calling threads. *)
Definition queue_cost (n : nat) : nat := 2 * n + 5.
Definition call_cost (n : nat) : nat := queue_cost n + 4.
Definition pos_weight (p : wait_pos) : nat :=
  match p with AtEnter => 3 | AtTest => 2 | AtBlocked => 1 | AtWoken => 3 end.
Definition caller_weight (n : nat) (c : caller actor val) : nat :=
  match pc c with
  | Ready => (length (program c) - length (rets c)) * call_cost n
  | InWait _ p => (length (program c) - length (rets c) - 1) * call_cost n + pos_weight p
  end.
Definition exec_weight (n : nat) (e : exec_pc actor val) : nat :=
  match e with
  | Idle => 0
  | Invoked _ => 2 * n + 4
  | Locked _ => 2 * n + 3
  | Flagged _ => 2 * n + 2
  | Signalled _ => 1
  end.
Definition work_left (s : system actor val) : nat :=
  let n := length (callers s) in
  (if aborted s then 0 else 1)
  + sum_list_with (caller_weight n) (callers s)
  + length (io_service (ses s)) * queue_cost n
  + exec_weight n (exec s).

Definition spurious_count (ls : list label) : nat :=
  length (filter (λ l, is_spurious l = true) ls).

(** *** Invariants *)

(** The mutex is held by the thread that stands in its critical section. *)
Definition mutex_ok (s : system actor val) : Prop :=
  (∀ i, match callers s !! i with
        | Some c => at_test c = true ↔ mut (ses s) = Some (Caller i)
        | None => mut (ses s) ≠ Some (Caller i)
        end)
  ∧ (exec_locked (exec s) = true ↔ mut (ses s) = Some Executor).

(** A thread inside a blocking call has exactly one handler on its way
    until its flag is set, and none otherwise. *)
Definition flight_ok (s : system actor val) : Prop :=
  ∀ i,
    let n := queued i (io_service (ses s)) + before_flag i (exec s) in
    match callers s !! i with
    | Some c =>
        match pc c with
        | Ready => n = 0 ∧ after_flag i (exec s) = 0
        | InWait _ _ =>
            if done c then n = 0 else n = 1 ∧ after_flag i (exec s) = 0
        end
    | None => n = 0 ∧ after_flag i (exec s) = 0
    end.

(** No wakeup is missed: a thread blocked in [wait] whose flag is already
    set has the notification still coming. *)
Definition wake_ok (s : system actor val) : Prop :=
  ∀ i c t, callers s !! i = Some c → pc c = InWait t AtBlocked →
    done c = true → ∃ k, exec s = Flagged k.

(** A thread inside [torrent_wait] is in a blocking call of its
    program, on the pointer it locked. *)
Definition call_ok (s : system actor val) : Prop :=
  ∀ i c t p, callers s !! i = Some c → pc c = InWait t p →
    ∃ h cl, next_call c = Some (h, cl) ∧ t = ptr_of h ∧
      match cl with
      | call_async _ => False
      | call_sync _ => r c = None
      | call_sync_ret _ _ => True
      end.

(** A handler that names a caller is the handler of that caller's call
    in progress. *)
Definition in_system (k : task actor val) (s : system actor val) : Prop :=
  k ∈ io_service (ses s) ∨ exec_task (exec s) = Some k.
Definition task_ok (s : system actor val) : Prop :=
  ∀ k i, in_system k s → task_caller k = Some i →
    ∃ c t p h cl, callers s !! i = Some c ∧ pc c = InWait t p ∧
      next_call c = Some (h, cl) ∧ k = task_of_call t cl i.

(** The record of invocations against the callers: every recorded run
    for caller [i] is the run of one call of its program, either already
    returned with the recorded value or in progress with that value in
    [r]; every call that came back out of [torrent_wait] has its run
    recorded; and the runs for one caller are recorded in the order of its
    calls, each once. *)
Definition recorded (i n : nat) (v : option val) (lg : list (invocation actor val)) : Prop :=
  ∃ e, e ∈ lg ∧ task_caller (inv_task e) = Some i ∧ inv_index e = n ∧ inv_value e = v.
Definition log_ok (s : system actor val) : Prop :=
  (∀ e i, e ∈ log s → task_caller (inv_task e) = Some i →
     ∃ c h cl, callers s !! i = Some c ∧
       program c !! inv_index e = Some (h, cl) ∧
       inv_task e = task_of_call (ptr_of h) cl i ∧
       (rets c !! inv_index e = Some (Waited (inv_value e))
        ∨ (inv_index e = length (rets c) ∧ (∃ t p, pc c = InWait t p)
           ∧ queued i (io_service (ses s)) = 0 ∧ r c = inv_value e)))
  ∧ (∀ i c, callers s !! i = Some c →
       (∀ n v, rets c !! n = Some (Waited v) → recorded i n v (log s))
       ∧ (∀ t p, pc c = InWait t p → queued i (io_service (ses s)) = 0 →
            recorded i (length (rets c)) (r c) (log s)))
  ∧ (∀ j1 j2 e1 e2 i, log s !! j1 = Some e1 → log s !! j2 = Some e2 →
       task_caller (inv_task e1) = Some i → task_caller (inv_task e2) = Some i →
       inv_index e1 ≤ inv_index e2 → j1 ≤ j2).

(** The torrents against the start [w0]: the strong count of a block is
    what it was plus the references held by threads and handlers, and its
    object is what the recorded invocations made of it, in order. *)
Definition heap_ok (w0 : gmap Z (ctrl_block actor)) (s : system actor val) : Prop :=
  ∀ b, torrents (ses s) !! b
       = (λ blk, CtrlBlock (use_count blk + held b s)
                           (obj_after (log s) b (object blk))) <$> w0 !! b.

(** Every invocation ran its method on the state the earlier ones left. *)
Definition chain_ok (w0 : gmap Z (ctrl_block actor)) (s : system actor val) : Prop :=
  ∀ l1 e l2, log s = l1 ++ e :: l2 →
    ∃ blk, w0 !! s_ctrl (task_ref (inv_task e)) = Some blk
      ∧ inv_pre e = obj_after l1 (s_ctrl (task_ref (inv_task e))) (object blk)
      ∧ run_method (inv_task e) (inv_pre e) = (inv_post e, inv_value e).

(** Every strong pointer held points to a block of the session. *)
Definition refs_ok (w0 : gmap Z (ctrl_block actor)) (s : system actor val) : Prop :=
  (∀ i c t p, callers s !! i = Some c → pc c = InWait t p → is_Some (w0 !! s_ctrl t))
  ∧ (∀ k, in_system k s → is_Some (w0 !! s_ctrl (task_ref k))).

Definition progs_ok (progs : list (list (torrent_handle * call actor val)))
    (s : system actor val) : Prop :=
  program <$> callers s = progs.

Record consistent (w0 : gmap Z (ctrl_block actor))
    (progs : list (list (torrent_handle * call actor val)))
    (s : system actor val) : Prop := Consistent {
  c_mutex : mutex_ok s;
  c_flight : flight_ok s;
  c_wake : wake_ok s;
  c_call : call_ok s;
  c_task : task_ok s;
  c_log : log_ok s;
  c_heap : heap_ok w0 s;
  c_chain : chain_ok w0 s;
  c_refs : refs_ok w0 s;
  c_progs : progs_ok progs s
}.

(** The handles of the programs all point to torrents the session owns
    at the start. *)
Definition all_live (w : gmap Z (ctrl_block actor))
    (progs : list (list (torrent_handle * call actor val))) : Prop :=
  Forall (Forall (λ hc, expired (m_torrent hc.1) w = false)) progs.
End system_views.

(** ** Concrete inputs used by the examples

    One live torrent whose state is a counter, with its control block at
    address 100, and handles to it and to a torrent that is gone. *)

Definition demo_heap : gmap Z (ctrl_block nat) :=
  {[ 100%Z := CtrlBlock 1 7; 200%Z := CtrlBlock 0 3 ]}.
Definition demo_live : torrent_handle := TorrentHandle (WeakPtr 4096 100).
Definition demo_dead : torrent_handle := TorrentHandle (WeakPtr 8192 200).
Definition demo_session : session_impl nat Z := Session demo_heap [] None.
(** a method that increments the counter and returns its old value *)
Definition demo_bump (n : nat) : nat * Z := (S n, Z.of_nat n).

(** a handle to a torrent created later at the address the destroyed one
    occupied *)
Definition demo_reused : torrent_handle := TorrentHandle (WeakPtr 8192 300).

(** Two threads, each with one blocking call with result on the live
    torrent, and a schedule in which the first blocks in [wait] before its
    handler runs and is woken twice, once for each handler. *)
Definition demo_two : list (list (torrent_handle * call nat Z)) :=
  [ [(demo_live, call_sync_ret 0%Z demo_bump)];
    [(demo_live, call_sync_ret 0%Z demo_bump)] ].
Definition demo_two_schedule : list label :=
  [ run_caller 0; run_caller 1; run_caller 0; run_caller 0;
    run_executor; run_executor; run_executor; run_executor; run_executor;
    run_caller 1; run_caller 1; run_caller 0; run_caller 0;
    run_executor; run_executor; run_executor; run_executor; run_executor;
    run_caller 1; run_caller 1 ].
Definition demo_two_end : system nat Z :=
  default (boot demo_heap demo_two)
          (run false demo_two_schedule (boot demo_heap demo_two)).

(** One thread that increments the counter with a blocking call without
    result and then reads it with a blocking call with result. *)
Definition demo_seq : list (list (torrent_handle * call nat Z)) :=
  [ [(demo_live, call_sync S); (demo_live, call_sync_ret 0%Z demo_bump)] ].
Definition demo_seq_schedule : list label :=
  [ run_caller 0; run_caller 0; run_caller 0;
    run_executor; run_executor; run_executor; run_executor; run_executor;
    run_caller 0; run_caller 0;
    run_caller 0;
    run_executor; run_executor; run_executor; run_executor; run_executor;
    run_caller 0; run_caller 0 ].
Definition demo_seq_end : system nat Z :=
  default (boot demo_heap demo_seq)
          (run false demo_seq_schedule (boot demo_heap demo_seq)).
(** ** Operations that forward to a call primitive

    Most members of [torrent_handle] bind a method of [torrent] with its
    arguments and hand it to [async_call], [sync_call] or
    [sync_call_ret].  The methods of [torrent] are defined elsewhere in the
    library and are parameters here. *)

Section forwarders.
Context {actor val : Type}.
Variable asserts_enabled : bool.
Implicit Types (h : torrent_handle) (ses : session_impl actor val).

(** [void torrent_handle::set_max_uploads(int max_uploads) const
     { TORRENT_ASSERT_PRECOND(max_uploads >= 2 || max_uploads == -1);
       async_call(&torrent::set_max_uploads, max_uploads, true); }] *)
Definition set_max_uploads (torrent_set_max_uploads : Z → bool → actor → actor)
    (max_uploads : Z) h ses : outcome actor val :=
  if negb (TORRENT_ASSERT_PRECOND asserts_enabled
             (bool_decide (2 ≤ max_uploads)%Z || bool_decide (max_uploads = -1)%Z))
  then PrecondFailed
  else async_call asserts_enabled h (torrent_set_max_uploads max_uploads true) ses.

(** [void torrent_handle::set_max_connections(int max_connections) const
     { TORRENT_ASSERT_PRECOND(max_connections >= 2 || max_connections == -1);
       async_call(&torrent::set_max_connections, max_connections, true); }] *)
Definition set_max_connections (torrent_set_max_connections : Z → bool → actor → actor)
    (max_connections : Z) h ses : outcome actor val :=
  if negb (TORRENT_ASSERT_PRECOND asserts_enabled
             (bool_decide (2 ≤ max_connections)%Z || bool_decide (max_connections = -1)%Z))
  then PrecondFailed
  else async_call asserts_enabled h (torrent_set_max_connections max_connections true) ses.

(** [void torrent_handle::set_upload_limit(int limit) const
     { TORRENT_ASSERT_PRECOND(limit >= -1);
       async_call(&torrent::set_upload_limit, limit); }] *)
Definition set_upload_limit (torrent_set_upload_limit : Z → actor → actor)
    (limit : Z) h ses : outcome actor val :=
  if negb (TORRENT_ASSERT_PRECOND asserts_enabled (bool_decide (-1 ≤ limit)%Z))
  then PrecondFailed
  else async_call asserts_enabled h (torrent_set_upload_limit limit) ses.

(** [void torrent_handle::set_download_limit(int limit) const
     { TORRENT_ASSERT_PRECOND(limit >= -1);
       async_call(&torrent::set_download_limit, limit); }] *)
Definition set_download_limit (torrent_set_download_limit : Z → actor → actor)
    (limit : Z) h ses : outcome actor val :=
  if negb (TORRENT_ASSERT_PRECOND asserts_enabled (bool_decide (-1 ≤ limit)%Z))
  then PrecondFailed
  else async_call asserts_enabled h (torrent_set_download_limit limit) ses.
End forwarders.

(** [int torrent_handle::upload_limit() const
     { return sync_call_ret<int>(0, &torrent::upload_limit); }] *)
Definition upload_limit {actor : Type} (asserts_enabled : bool)
    (torrent_upload_limit : actor → actor * Z)
    (h : torrent_handle) (me : nat) (ses : session_impl actor Z) : outcome actor Z :=
  sync_call_ret asserts_enabled h 0%Z torrent_upload_limit me ses.

(** [int torrent_handle::download_limit() const
     { return sync_call_ret<int>(0, &torrent::download_limit); }] *)
Definition download_limit {actor : Type} (asserts_enabled : bool)
    (torrent_download_limit : actor → actor * Z)
    (h : torrent_handle) (me : nat) (ses : session_impl actor Z) : outcome actor Z :=
  sync_call_ret asserts_enabled h 0%Z torrent_download_limit me ses.

(** [std::shared_ptr<const torrent_info> torrent_handle::torrent_file() const
     { return sync_call_ret<std::shared_ptr<const torrent_info>>(
         std::shared_ptr<const torrent_info>(), &torrent::get_torrent_copy); }]
    A pointer to a [torrent_info] is the address of the object, 0 for the
    empty pointer, as in [holder]. *)
Definition torrent_file {actor : Type} (asserts_enabled : bool)
    (torrent_get_torrent_copy : actor → actor * Z)
    (h : torrent_handle) (me : nat) (ses : session_impl actor Z) : outcome actor Z :=
  sync_call_ret asserts_enabled h 0%Z torrent_get_torrent_copy me ses.

(** ** The call primitives by calling thread

    [io_service::dispatch] guarantees that the handler is invoked on a
    thread that runs the io_service.  Called on that thread, it invokes
    the handler before it returns; called on any other thread it queues
    the handler, which is what [dispatch] does.  The definitions here take
    the calling thread as an argument: for a thread [Caller i] they are
    the primitives as defined above, for [Executor], the thread that runs
    the io_service, the handler runs inside the call. *)

Section calling_thread.
Context {actor val : Type}.
Variable asserts_enabled : bool.

(** [async_call] called on thread [th] *)
Definition async_call_on (th : thread) (h : torrent_handle) (f : actor → actor)
    (ses : session_impl actor val) : outcome actor val :=
  match th with
  | Caller _ => async_call asserts_enabled h f ses
  | Executor =>
      let '(t, w) := lock (m_torrent h) (torrents ses) in
      if negb (TORRENT_ASSERT_PRECOND asserts_enabled (bool_decide (is_Some t)))
      then PrecondFailed
      else match t with
      | None => Returned None (set_torrents w ses)
      | Some t =>
          (* [dispatch] invokes the handler: it holds its copy of [t],
             its body is [(t.get()->*f)(a...)], then it is destroyed *)
          let w := acquire (s_ctrl t) w in
          let w := alter (λ b, set_object (f (object b)) b) (s_ctrl t) w in
          let w := release (s_ctrl t) w in
          (* [t] goes out of scope on return *)
          Returned None (set_torrents (release (s_ctrl t) w) ses)
      end
  end.

(** How a blocking call made on thread [th] leaves its prologue: as an
    [outcome] says, or, on the thread that runs the io_service, inside the
    handler that [dispatch] has invoked, the method run and the handler
    about to lock [ses.mut]; [t], [done] and [r] are the locals of the
    call, the handler holding its own copy of [t]. *)
Inductive outcome_on :=
| Plain (o : outcome actor val)
| InHandler (t : shared_ptr) (done : bool) (r : option val)
    (ses : session_impl actor val).

(** [sync_call] called on thread [th] *)
Definition sync_call_on (th : thread) (h : torrent_handle) (f : actor → actor)
    (ses : session_impl actor val) : outcome_on :=
  match th with
  | Caller me => Plain (sync_call asserts_enabled h f me ses)
  | Executor =>
      let '(t, w) := lock (m_torrent h) (torrents ses) in
      if negb (TORRENT_ASSERT_PRECOND asserts_enabled (bool_decide (is_Some t)))
      then Plain PrecondFailed
      else match t with
      | None => Plain (Returned None (set_torrents w ses))
      | Some t =>
          let done := false in
          (* [dispatch] invokes the handler: [(t.get()->*f)(a...)] *)
          let w := acquire (s_ctrl t) w in
          let w := alter (λ b, set_object (f (object b)) b) (s_ctrl t) w in
          InHandler t done None (set_torrents w ses)
      end
  end.

(** [sync_call_ret] called on thread [th] *)
Definition sync_call_ret_on (th : thread) (h : torrent_handle) (def : val)
    (f : actor → actor * val) (ses : session_impl actor val) : outcome_on :=
  match th with
  | Caller me => Plain (sync_call_ret asserts_enabled h def f me ses)
  | Executor =>
      let '(t, w) := lock (m_torrent h) (torrents ses) in
      if negb (TORRENT_ASSERT_PRECOND asserts_enabled (bool_decide (is_Some t)))
      then Plain PrecondFailed
      else
        let r := def in
        match t with
        | None => Plain (Returned (Some r) (set_torrents w ses))
        | Some t =>
            let done := false in
            (* [dispatch] invokes the handler: [r = (t.get()->*f)(a...)] *)
            let w := acquire (s_ctrl t) w in
            match w !! s_ctrl t with
            | Some b =>
                let '(a', v) := f (object b) in
                InHandler t done (Some v)
                  (set_torrents (<[s_ctrl t := set_object a' b]> w) ses)
            | None => InHandler t done (Some r) (set_torrents w ses)
            end
        end
  end.
End calling_thread.

Arguments outcome_on : clear implicits.

(** ** file_status

    The two overloads read the table of open files of the session's disk
    thread on the calling thread.  [torrent::has_storage] and
    [torrent::storage] are accessors of the torrent, and
    [ses.disk_thread().files().get_status] reads the file pool; all three
    are parameters. *)

Section file_status.
Context {actor val storage pool_file_status : Type}.
Variable torrent_has_storage : actor → bool.
Variable torrent_storage : actor → storage.
Variable get_status : storage → list pool_file_status.

(** [void torrent_handle::file_status(std::vector<pool_file_status>& status) const]:
    the vector as the caller passed it, and what it holds on return *)
Definition file_status_into (status : list pool_file_status)
    (h : torrent_handle) (ses : session_impl actor val)
    : list pool_file_status * session_impl actor val :=
  (* status.clear() *)
  let status := [] in
  let '(t, w) := lock (m_torrent h) (torrents ses) in
  match t with
  | None => (status, set_torrents w ses)
  | Some t =>
      match w !! s_ctrl t with
      | Some b =>
          if negb (torrent_has_storage (object b))
          then (status, set_torrents (release (s_ctrl t) w) ses)
          else (get_status (torrent_storage (object b)),
                set_torrents (release (s_ctrl t) w) ses)
      | None => (status, set_torrents w ses)
      end
  end.

(** [std::vector<pool_file_status> torrent_handle::file_status() const] *)
Definition file_status (h : torrent_handle) (ses : session_impl actor val)
    : list pool_file_status * session_impl actor val :=
  let '(t, w) := lock (m_torrent h) (torrents ses) in
  match t with
  | None => ([], set_torrents w ses)
  | Some t =>
      match w !! s_ctrl t with
      | Some b =>
          if negb (torrent_has_storage (object b))
          then ([], set_torrents (release (s_ctrl t) w) ses)
          else (get_status (torrent_storage (object b)),
                set_torrents (release (s_ctrl t) w) ses)
      | None => ([], set_torrents w ses)
      end
  end.
End file_status.

(** ** The order in which calls are run

    What is compared with the transition system: the handlers a thread
    has submitted so far, the handlers the executor has run or still has
    queued, and the program run without any dispatch at all. *)

(** [xs] is a merge of the lists [ls]: it takes the elements of each list
    in that list's order. *)
Inductive interleaving {A : Type} : list (list A) → list A → Prop :=
| il_nil ls :
    Forall (λ l, l = []) ls → interleaving ls []
| il_cons ls i x l xs :
    ls !! i = Some (x :: l) → interleaving (<[i := l]> ls) xs →
    interleaving ls (x :: xs).

Section system_order.
Context {actor val : Type}.

(** the number of calls a thread has made, the one in progress included *)
Definition issued (c : caller actor val) : nat :=
  length (rets c) + match pc c with Ready => 0 | InWait _ _ => 1 end.

(** the handlers thread [i] has submitted when all its handles are live,
    in the order of its calls *)
Definition issued_tasks (i : nat) (c : caller actor val) : list (task actor val) :=
  (λ hc, task_of_call (ptr_of hc.1) hc.2 i) <$> take (issued c) (program c).

(** the handlers the executor has taken off the queue, oldest first, and
    then the queue *)
Definition submitted (s : system actor val) : list (task actor val) :=
  (inv_task <$> log s) ++ io_service (ses s).

(** the method of a call with its arguments bound, as the handler runs it *)
Definition call_method (cl : call actor val) (a : actor) : actor * option val :=
  match cl with
  | call_async f | call_sync f => (f a, None)
  | call_sync_ret _ f => let '(a', v) := f a in (a', Some v)
  end.

(** One call of a program run without dispatch: the method is applied to
    the torrent at once, on the calling thread.  A call on a torrent that
    is gone returns the default, as the primitives do without
    assertions. *)
Definition seq_call (st : gmap Z (ctrl_block actor) * list (ret val))
    (hc : torrent_handle * call actor val)
    : gmap Z (ctrl_block actor) * list (ret val) :=
  let '(w, rs) := st in
  let '(h, cl) := hc in
  let gone := (w, rs ++ [Immediate (default_of cl)]) in
  if expired (m_torrent h) w then gone
  else match w !! w_ctrl (m_torrent h) with
       | Some b =>
           let '(a', v) := call_method cl (object b) in
           (<[w_ctrl (m_torrent h) := set_object a' b]> w,
            rs ++ [if is_async cl then Immediate v else Waited v])
       | None => gone
       end.

Definition seq_run (prog : list (torrent_handle * call actor val))
    (w : gmap Z (ctrl_block actor)) : gmap Z (ctrl_block actor) * list (ret val) :=
  foldl seq_call (w, []) prog.

(** nothing is queued or running *)
Definition quiescent (s : system actor val) : Prop :=
  io_service (ses s) = [] ∧ exec s = Idle
  ∧ ∀ i c, callers s !! i = Some c → pc c = Ready.

(** The handlers run and queued are a merge of what the threads have
    submitted. *)
Definition order_ok (s : system actor val) : Prop :=
  interleaving (imap issued_tasks (callers s)) (submitted s).

(** With a single calling thread, the run of its [n]-th call is the
    [n]-th run. *)
Definition index_ok (s : system actor val) : Prop :=
  length (callers s) = 1 →
  ∀ j e, log s !! j = Some e → is_Some (task_caller (inv_task e)) →
    inv_index e = j.

(** What the finished calls of a thread returned, against its program:
    a call without waiting returned at once with nothing, a blocking call
    returned out of [torrent_wait]. *)
Definition rets_ok (s : system actor val) : Prop :=
  ∀ i c n y, callers s !! i = Some c → rets c !! n = Some y →
    ∃ h cl, program c !! n = Some (h, cl)
      ∧ if is_async cl then y = Immediate None else ∃ v, y = Waited v.
End system_order.

(** ** More concrete inputs *)

(** a torrent whose state is its upload limit: the setter stores the
    limit, the getter reads it *)
Definition demo_set_limit (limit : Z) (n : nat) : nat := Z.to_nat limit.
Definition demo_get_limit (n : nat) : nat * Z := (n, Z.of_nat n).

(** One thread that sets the limit without waiting and then reads it. *)
Definition demo_limit : list (torrent_handle * call nat Z) :=
  [ (demo_live, call_async (demo_set_limit 5));
    (demo_live, call_sync_ret 0%Z demo_get_limit) ].
Definition demo_limit_schedule : list label :=
  [ run_caller 0; run_caller 0; run_caller 0; run_caller 0;
    run_executor; run_executor;
    run_executor; run_executor; run_executor; run_executor; run_executor;
    run_caller 0; run_caller 0 ].
Definition demo_limit_end : system nat Z :=
  default (boot demo_heap [demo_limit])
          (run false demo_limit_schedule (boot demo_heap [demo_limit])).

(** The single thread of [demo_seq] at the point where the handler of its
    first call has locked the mutex and is about to set the flag. *)
Definition demo_seq_locked : system nat Z :=
  default (boot demo_heap demo_seq)
          (run false (take 5 demo_seq_schedule) (boot demo_heap demo_seq)).

(** One thread that first asks a torrent that is gone and then the live
    one, in a build without assertions. *)
Definition demo_mixed : list (list (torrent_handle * call nat Z)) :=
  [ [(demo_dead, call_sync_ret 5%Z demo_bump);
     (demo_live, call_sync_ret 0%Z demo_bump)] ].
Definition demo_mixed_schedule : list label :=
  [ run_caller 0;
    run_caller 0; run_caller 0; run_caller 0;
    run_executor; run_executor; run_executor; run_executor; run_executor;
    run_caller 0; run_caller 0 ].
Definition demo_mixed_end : system nat Z :=
  default (boot demo_heap demo_mixed)
          (run false demo_mixed_schedule (boot demo_heap demo_mixed)).

(** One thread that first asks a torrent that is gone and then increments
    the live one with a blocking call without result. *)
Definition demo_mixed_sync : list (list (torrent_handle * call nat Z)) :=
  [ [(demo_dead, call_sync_ret 5%Z demo_bump); (demo_live, call_sync S)] ].
Definition demo_mixed_sync_end : system nat Z :=
  default (boot demo_heap demo_mixed_sync)
          (run false demo_mixed_schedule (boot demo_heap demo_mixed_sync)).

(** * Theorems *)

(** ** Pointers *)

Section pointer_facts.
Context {actor : Type}.
Implicit Types (w : gmap Z (ctrl_block actor)) (p : weak_ptr) (h : torrent_handle).

Lemma lock_expired p w : expired p w = true → lock p w = (None, w).
Proof. unfold lock. by intros ->. Qed.

Lemma lock_none_expired p w : (lock p w).1 = None → expired p w = true.
Proof. unfold lock. by destruct (expired p w). Qed.

Lemma lock_live p w :
  expired p w = false →
  lock p w = (Some (SharedPtr (w_ptr p) (w_ctrl p)), acquire (w_ctrl p) w).
Proof. unfold lock. by intros ->. Qed.

Lemma expired_lookup p w :
  expired p w = false ↔ ∃ b, w !! w_ctrl p = Some b ∧ 0 < use_count b.
Proof.
  unfold expired, weak_use_count. destruct (w !! w_ctrl p) as [b|].
  - rewrite Nat.eqb_neq. split; [intros; exists b; split; [done|lia]|].
    intros (b' & [= <-] & ?). lia.
  - split; [done|]. by intros (? & ? & _).
Qed.

Lemma release_acquire c w : release c (acquire c w) = w.
Proof.
  apply map_eq. intros c'. unfold release, acquire.
  destruct (decide (c = c')) as [<-|].
  - rewrite !lookup_alter_eq. by destruct (w !! c) as [[]|].
  - by rewrite !lookup_alter_ne.
Qed.

(** A strong count of zero stays zero: no transition of the heap brings
    an expired control block back. *)
Lemma heap_step_expired w w' p :
  heap_step w w' → weak_wf p w → expired p w = true →
  weak_wf p w' ∧ expired p w' = true.
Proof.
  unfold weak_wf, expired, weak_use_count.
  intros Hstep Hwf Hexp. destruct Hstep as [w c a Hc Hnz|w q|w c b Hc Hpos|w c b Hc Hpos|w c b a Hc Hpos].
  - destruct (decide (c = w_ctrl p)) as [->|Hne].
    + rewrite Hc in Hwf. congruence.
    + by rewrite lookup_insert_ne.
  - unfold lock. destruct (expired q w) eqn:Hq; simpl; [done|].
    apply expired_lookup in Hq as (b & Hb & Hpos). unfold acquire.
    destruct (decide (w_ctrl q = w_ctrl p)) as [Heq|Hne].
    + rewrite Heq in Hb. rewrite Hb in Hexp. apply Nat.eqb_eq in Hexp. lia.
    + by rewrite lookup_alter_ne.
  - unfold acquire. destruct (decide (c = w_ctrl p)) as [->|Hne].
    + rewrite Hc in Hexp. apply Nat.eqb_eq in Hexp. lia.
    + by rewrite lookup_alter_ne.
  - unfold release. destruct (decide (c = w_ctrl p)) as [->|Hne].
    + rewrite Hc in Hexp. apply Nat.eqb_eq in Hexp. lia.
    + by rewrite lookup_alter_ne.
  - destruct (decide (c = w_ctrl p)) as [->|Hne].
    + rewrite Hc in Hexp. apply Nat.eqb_eq in Hexp. lia.
    + by rewrite lookup_insert_ne.
Qed.

Lemma heap_steps_expired w w' p :
  rtc heap_step w w' → weak_wf p w → expired p w = true →
  weak_wf p w' ∧ expired p w' = true.
Proof.
  induction 1 as [|w1 w2 w3 Hstep _ IH]; [done|].
  intros Hwf Hexp. destruct (heap_step_expired _ _ _ Hstep Hwf Hexp). by apply IH.
Qed.

(** C7. Validity is monotone: once [is_valid] has returned false for a
    handle, then after any further activity on the heap of torrents
    (torrents created, strong references locked, copied and dropped,
    methods run) [is_valid] still returns false and [native_handle]
    still returns the empty pointer. *)
Theorem validity_is_monotone h w w' :
  weak_wf (m_torrent h) w →
  is_valid h w = false →
  rtc heap_step w w' →
  is_valid h w' = false ∧ (native_handle h w').1 = None.
Proof.
  unfold is_valid, native_handle. intros Hwf Hinv Hsteps.
  apply negb_false_iff in Hinv.
  destruct (heap_steps_expired _ _ _ Hsteps Hwf Hinv) as [_ Hexp].
  rewrite lock_expired by done. by rewrite Hexp.
Qed.
End pointer_facts.

(** ** The call primitives on a handle whose torrent is gone *)

Section dead_actor.
Context {actor val : Type}.
Implicit Types (ses : session_impl actor val) (h : torrent_handle).

Lemma set_torrents_id ses : set_torrents (torrents ses) ses = ses.
Proof. by destruct ses. Qed.

Lemma dead_actor_skip_async asserts h (f : actor → actor) ses :
  expired (m_torrent h) (torrents ses) = true →
  async_call asserts h f ses = (if asserts then PrecondFailed else Returned None ses).
Proof.
  intros Hdead. unfold async_call, TORRENT_ASSERT_PRECOND.
  rewrite (lock_expired _ _ Hdead), set_torrents_id. by destruct asserts.
Qed.

Lemma dead_actor_skip_sync asserts h (f : actor → actor) me ses :
  expired (m_torrent h) (torrents ses) = true →
  sync_call asserts h f me ses = (if asserts then PrecondFailed else Returned None ses).
Proof.
  intros Hdead. unfold sync_call, TORRENT_ASSERT_PRECOND.
  rewrite (lock_expired _ _ Hdead), set_torrents_id. by destruct asserts.
Qed.

(** C1, as amended. When the weak pointer of the handle fails to
    upgrade, [async_call] and [sync_call] invoke nothing and submit
    nothing.  In a build without assertions they return at once and leave
    the session exactly as it was; in a build with assertions the
    precondition assertion on the upgraded pointer stops the process
    before the early return is reached. *)
Theorem dead_actor_call_skipped asserts h (f g : actor → actor) me ses :
  (lock (m_torrent h) (torrents ses)).1 = None →
  async_call asserts h f ses
    = (if asserts then PrecondFailed else Returned None ses)
  ∧ sync_call asserts h g me ses
    = (if asserts then PrecondFailed else Returned None ses).
Proof.
  intros Hdead%lock_none_expired. split.
  - by apply dead_actor_skip_async.
  - by apply dead_actor_skip_sync.
Qed.

Lemma sync_call_ret_dead asserts h (def : val) (f : actor → actor * val) me ses :
  (lock (m_torrent h) (torrents ses)).1 = None →
  sync_call_ret asserts h def f me ses
    = (if asserts then PrecondFailed else Returned (Some def) ses).
Proof.
  intros Hdead%lock_none_expired.
  unfold sync_call_ret, TORRENT_ASSERT_PRECOND.
  rewrite (lock_expired _ _ Hdead), set_torrents_id.
  by destruct asserts.
Qed.

(** C8. [info_hash] leaves the session as it found it, whatever the
    handle: nothing is queued on the io_service, the torrents and the
    mutex are untouched.  On a handle whose weak pointer does not upgrade
    the result is the digest of twenty zero bytes; on a live one it is
    the torrent's own digest, read on the calling thread. *)
Theorem info_hash_reads_in_place (torrent_info_hash : actor → sha1_hash) h ses :
  (info_hash torrent_info_hash h ses).2 = ses
  ∧ match (lock (m_torrent h) (torrents ses)).1 with
    | None => (info_hash torrent_info_hash h ses).1 = replicate 20 0%Z
    | Some t =>
        ∃ b, torrents ses !! s_ctrl t = Some b
             ∧ (info_hash torrent_info_hash h ses).1 = torrent_info_hash (object b)
    end.
Proof.
  unfold info_hash, lock.
  destruct (expired (m_torrent h) (torrents ses)) eqn:Hexp; simpl.
  - by rewrite set_torrents_id.
  - apply expired_lookup in Hexp as (b & Hb & Hpos).
    unfold acquire at 1 3 4. rewrite lookup_alter_eq, Hb. simpl.
    rewrite release_acquire, set_torrents_id. split; [done|]. by exists b.
Qed.

(** C10. The deprecated per-peer operations are constants: the two
    getters return -1 and the four setters do nothing, for every
    endpoint, argument, handle and session. *)
Theorem deprecated_peer_limits_constant {endpoint float : Type}
    h (ep : endpoint) (limit prio : Z) (ratio : float) ses :
  get_peer_upload_limit h ep ses = ((-1)%Z, ses)
  ∧ get_peer_download_limit h ep ses = ((-1)%Z, ses)
  ∧ set_peer_upload_limit h ep limit ses = ses
  ∧ set_peer_download_limit h ep limit ses = ses
  ∧ set_ratio h ratio ses = ses
  ∧ set_priority h prio ses = ses.
Proof. done. Qed.
End dead_actor.

(** C2, as amended. When the weak pointer fails to upgrade,
    [sync_call_ret] invokes nothing and submits nothing.  In a build
    without assertions it returns exactly the default it was given, the
    session unchanged, and so [queue_position] returns -1; in a build with
    assertions the precondition assertion stops the process first. *)
Theorem dead_actor_default {actor val : Type} asserts h (def : val)
    (f : actor → actor * val) (qp : actor → actor * Z) me
    (w : gmap Z (ctrl_block actor)) (q : list (task actor val))
    (qz : list (task actor Z)) (m : option thread) :
  (lock (m_torrent h) w).1 = None →
  sync_call_ret asserts h def f me (Session w q m)
    = (if asserts then PrecondFailed else Returned (Some def) (Session w q m))
  ∧ queue_position asserts qp h me (Session w qz m)
    = (if asserts then PrecondFailed else Returned (Some (-1)%Z) (Session w qz m)).
Proof.
  intros Hdead. split; [|unfold queue_position]; by apply sync_call_ret_dead.
Qed.

(** ** hash_value *)

(** The hash is a function of the representation of the handle's weak
    pointer alone. *)
Lemma hash_value_repr (repr : weak_ptr → list Z) (a b : torrent_handle) :
  repr (m_torrent a) = repr (m_torrent b) → hash_value repr a = hash_value repr b.
Proof. unfold hash_value. by intros ->. Qed.

(** C6, as amended. [hash_value] is computed from the stored
    representation of the handle's weak pointer: it is its first word,
    reduced to [std::size_t].  Handles whose weak pointers are stored alike
    hash alike, and the torrents are never consulted, so the value is the
    same before and after the torrent is destroyed; where the object
    address comes first it is that address, and where the control block
    comes first it is the address of the control block. *)
Theorem hash_value_first_word (repr : weak_ptr → list Z) (a b : torrent_handle) :
  repr (m_torrent a) = repr (m_torrent b) →
  hash_value repr a = hash_value repr b
  ∧ hash_value repr a = (hd 0 (repr (m_torrent a)) mod 2 ^ 64)%Z
  ∧ hash_value ptr_first a = (w_ptr (m_torrent a) mod 2 ^ 64)%Z
  ∧ hash_value ctrl_first a = (w_ctrl (m_torrent a) mod 2 ^ 64)%Z.
Proof.
  intros Hab. split; [by apply hash_value_repr|].
  unfold hash_value, size_t_max. by destruct (repr (m_torrent a)).
Qed.

(** ** get_torrent_info *)

(** One call: the fetched pointer is stored at the cursor, the other
    slots are kept, and the cursor advances cyclically. *)
Lemma get_torrent_info_step r g :
  holder_ok g →
  holder_ok (get_torrent_info r g).2
  ∧ holder (get_torrent_info r g).2 = <[Z.to_nat (cursor g) := r]> (holder g)
  ∧ cursor (get_torrent_info r g).2 = ((cursor g + 1) mod 4)%Z.
Proof.
  intros [Hlen Hcur]. unfold get_torrent_info, holder_ok. simpl.
  rewrite length_insert.
  assert (to_int (to_size_t (to_int (cursor g + 1)) mod holder_slots)
          = ((cursor g + 1) mod 4)%Z) as ->.
  { unfold to_int, to_size_t, size_t_max, holder_slots.
    assert (cursor g = 0 ∨ cursor g = 1 ∨ cursor g = 2 ∨ cursor g = 3)%Z
      as [->|[->|[->| ->]]] by lia; reflexivity. }
  assert (0 ≤ (cursor g + 1) mod 4 < 4)%Z by (apply Z.mod_pos_bound; lia).
  repeat split; try done; lia.
Qed.

Lemma after_calls_snoc rs r g :
  after_calls (rs ++ [r]) g = (get_torrent_info r (after_calls rs g)).2.
Proof. unfold after_calls. by rewrite foldl_app. Qed.

(** After any number of calls the statics are well formed and the slots,
    read in a ring from the cursor, are the last four pointers fetched,
    oldest first (empty pointers stand for the calls not yet made). *)
Lemma after_calls_ring rs :
  holder_ok (after_calls rs holder_init)
  ∧ rotate (Z.to_nat (cursor (after_calls rs holder_init)))
           (holder (after_calls rs holder_init))
    = drop (length rs) (replicate 4 0%Z ++ rs).
Proof.
  induction rs as [|r rs IH] using rev_ind.
  { split; [split; [done|simpl; lia]|done]. }
  rewrite after_calls_snoc. destruct IH as [Hok IH].
  destruct (get_torrent_info_step r _ Hok) as (Hok' & -> & ->).
  split; [done|].
  set (g := after_calls rs holder_init) in *.
  assert (drop (length (rs ++ [r])) (replicate 4 0%Z ++ rs ++ [r])
          = drop 1 (drop (length rs) (replicate 4 0%Z ++ rs)) ++ [r]) as ->.
  { rewrite drop_drop, length_app, app_assoc. simpl length.
    rewrite drop_app_le by (rewrite length_app, length_replicate; lia).
    by replace (1 + length rs) with (length rs + 1) by lia. }
  rewrite <-IH. destruct Hok as [Hlen Hcur].
  destruct (holder g) as [|x0 [|x1 [|x2 [|x3 [|]]]]]; try done.
  assert (cursor g = 0 ∨ cursor g = 1 ∨ cursor g = 2 ∨ cursor g = 3)%Z
    as [->|[->|[->| ->]]] by lia; reflexivity.
Qed.

Lemma last_four_of (rs x : list Z) :
  length x = 4 →
  drop (length (rs ++ x)) (replicate 4 0%Z ++ rs ++ x) = x.
Proof.
  intros Hx. rewrite app_assoc, length_app, Hx.
  apply drop_app_length'. rewrite length_app, length_replicate. lia.
Qed.

Lemma holder_elems rs x :
  x ∈ holder (after_calls rs holder_init)
  ↔ x ∈ drop (length rs) (replicate 4 0%Z ++ rs).
Proof.
  destruct (after_calls_ring rs) as [_ <-]. by rewrite elem_of_rotate.
Qed.

(** C9. [get_torrent_info] keeps the fetched pointers in a ring of
    exactly four slots: after any number of calls there are four slots and
    the cursor is in [0, 4); the slots hold exactly the last four pointers
    fetched; a pointer is still held after the three calls that follow the
    one that fetched it, and the fourth call after it (the fifth counting
    its own) drops it, unless that pointer was fetched again. *)
Theorem get_torrent_info_ring (rs : list Z) :
  length (holder (after_calls rs holder_init)) = 4
  ∧ (0 ≤ cursor (after_calls rs holder_init) < 4)%Z
  ∧ (∀ x, x ∈ holder (after_calls rs holder_init)
          ↔ x ∈ drop (length rs) (replicate 4 0%Z ++ rs))
  ∧ (∀ r a b c, r ∈ holder (after_calls (rs ++ [r; a; b; c]) holder_init))
  ∧ (∀ r a b c d, r ∉ [a; b; c; d] →
       r ∉ holder (after_calls (rs ++ [r; a; b; c; d]) holder_init)).
Proof.
  destruct (after_calls_ring rs) as [[Hlen Hcur] _].
  split_and!; try done; try lia.
  - apply holder_elems.
  - intros r a b c. rewrite holder_elems, last_four_of by done. by left.
  - intros r a b c d Hr. rewrite holder_elems.
    change (rs ++ [r; a; b; c; d]) with (rs ++ [r] ++ [a; b; c; d]).
    rewrite (app_assoc rs), last_four_of by done. done.
Qed.

(** ** Instances on the concrete inputs *)

Lemma dead_actor_call_skipped_witness :
  async_call false demo_dead S demo_session = Returned None demo_session
  ∧ sync_call false demo_dead S 0 demo_session = Returned None demo_session.
Proof.
  apply (dead_actor_call_skipped false demo_dead S S 0 demo_session).
  vm_compute. reflexivity.
Defined.

(** With assertions compiled in, a call on the handle of a destroyed
    torrent does not return: the precondition assertion fails. *)
Lemma dead_actor_call_asserts :
  (lock (m_torrent demo_dead) (torrents demo_session)).1 = None
  ∧ async_call true demo_dead S demo_session = PrecondFailed
  ∧ sync_call true demo_dead S 0 demo_session = PrecondFailed.
Proof. vm_compute. auto. Qed.

Lemma dead_actor_default_witness :
  sync_call_ret false demo_dead 5%Z demo_bump 0 (Session demo_heap [] None)
    = Returned (Some 5%Z) (Session demo_heap [] None)
  ∧ queue_position false demo_bump demo_dead 0 (Session demo_heap [] None)
    = Returned (Some (-1)%Z) (Session demo_heap [] None).
Proof.
  apply (dead_actor_default false demo_dead 5%Z demo_bump demo_bump 0 demo_heap [] [] None).
  vm_compute. reflexivity.
Defined.

(** With assertions compiled in, [queue_position] on the handle of a
    destroyed torrent does not return -1: the precondition assertion
    fails. *)
Lemma queue_position_asserts :
  (lock (m_torrent demo_dead) demo_heap).1 = None
  ∧ queue_position true demo_bump demo_dead 0 (Session demo_heap [] None)
    = PrecondFailed.
Proof. vm_compute. auto. Qed.

Lemma validity_is_monotone_witness :
  is_valid demo_dead (lock (m_torrent demo_live) demo_heap).2 = false
  ∧ (native_handle demo_dead (lock (m_torrent demo_live) demo_heap).2).1 = None.
Proof.
  apply (validity_is_monotone demo_dead demo_heap).
  - vm_compute. exact I.
  - vm_compute. reflexivity.
  - apply rtc_once, hs_lock.
Defined.

Lemma hash_value_first_word_witness :
  hash_value ptr_first demo_live = hash_value ptr_first demo_live
  ∧ hash_value ptr_first demo_live = (hd 0 (ptr_first (m_torrent demo_live)) mod 2 ^ 64)%Z
  ∧ hash_value ptr_first demo_live = (w_ptr (m_torrent demo_live) mod 2 ^ 64)%Z
  ∧ hash_value ctrl_first demo_live = (w_ctrl (m_torrent demo_live) mod 2 ^ 64)%Z.
Proof.
  apply (hash_value_first_word ptr_first demo_live demo_live). reflexivity.
Defined.

(** The hash of one and the same handle changes with the layout of the
    weak pointer, and under the usual layout a handle to a destroyed
    torrent and a handle to the torrent that took over its address hash
    alike although their control blocks differ. *)
Lemma hash_value_depends_on_layout :
  hash_value ptr_first demo_live = 4096%Z
  ∧ hash_value ctrl_first demo_live = 100%Z
  ∧ hash_value ptr_first demo_dead = hash_value ptr_first demo_reused
  ∧ w_ctrl (m_torrent demo_dead) ≠ w_ctrl (m_torrent demo_reused).
Proof. vm_compute. repeat split; congruence. Qed.

(** ** The transition system *)

Section system_facts.
Context {actor val : Type}.
Variable asserts : bool.
Implicit Types (s : system actor val) (c : caller actor val).
Implicit Types (k : task actor val) (cs : list (caller actor val)).
Implicit Types (q : list (task actor val)) (e : exec_pc actor val).
Implicit Types (w : gmap Z (ctrl_block actor)) (cl : call actor val).

(** *** The call primitives, unfolded *)

Lemma issue_dead h cl i (ses : session_impl actor val) :
  expired (m_torrent h) (torrents ses) = true →
  issue asserts h cl i ses
  = if asserts then PrecondFailed else Returned (default_of cl) ses.
Proof.
  intros Hdead. destruct cl; simpl.
  - by apply dead_actor_skip_async.
  - by apply dead_actor_skip_sync.
  - apply sync_call_ret_dead. by rewrite lock_expired.
Qed.

Lemma issue_live h cl i (ses : session_impl actor val) :
  expired (m_torrent h) (torrents ses) = false →
  issue asserts h cl i ses
  = match cl with
    | call_async f =>
        Returned None
          (Session (acquire (w_ctrl (m_torrent h)) (torrents ses))
                   (io_service ses ++ [async_task (ptr_of h) f]) (mut ses))
    | _ =>
        Waiting (ptr_of h) false (default_of cl)
          (Session (acquire (w_ctrl (m_torrent h))
                      (acquire (w_ctrl (m_torrent h)) (torrents ses)))
                   (io_service ses ++ [task_of_call (ptr_of h) cl i]) (mut ses))
    end.
Proof.
  intros Hlive.
  destruct cl; simpl; unfold async_call, sync_call, sync_call_ret,
    TORRENT_ASSERT_PRECOND; rewrite (lock_live _ _ Hlive); simpl;
    rewrite orb_true_r; simpl; [|done..].
  unfold dispatch, set_torrents. simpl. by rewrite release_acquire.
Qed.

(** Every transition the functions compute is one of the listed ones. *)
Lemma step_transition l s s' :
  step asserts l s = Some s' → aborted s = false ∧ transition asserts s l s'.
Proof.
  unfold step. destruct (aborted s) eqn:Hab; [done|]. intros Hstep.
  split; [done|]. destruct l as [i| |i].
  - unfold caller_step in Hstep.
    destruct (callers s !! i) as [c|] eqn:Hc; [|done]. simpl in Hstep.
    destruct (pc c) as [|t p] eqn:Hpc.
    + destruct (program c !! length (rets c)) as [[h cl]|] eqn:Hnext; [|done].
      simpl in Hstep.
      destruct (expired (m_torrent h) (torrents (ses s))) eqn:Hexp.
      * rewrite (issue_dead _ _ _ _ Hexp) in Hstep.
        destruct asserts eqn:Has; injection Hstep as <-.
        -- by eapply t_assert.
        -- by eapply t_skip.
      * rewrite (issue_live _ _ _ _ Hexp) in Hstep.
        destruct cl; injection Hstep as <-.
        -- by eapply t_post.
        -- by eapply (t_call _ _ _ _ _ (call_sync f)).
        -- by eapply (t_call _ _ _ _ _ (call_sync_ret def f)).
    + destruct p; simpl in Hstep.
      * destruct (mut (ses s)) eqn:Hm; [done|]. injection Hstep as <-.
        eapply t_lock; eauto.
      * destruct (done c) eqn:Hd; injection Hstep as <-.
        -- by eapply t_leave.
        -- by eapply t_block.
      * done.
      * destruct (mut (ses s)) eqn:Hm; [done|]. injection Hstep as <-.
        eapply t_lock; eauto.
  - unfold exec_step in Hstep. destruct (exec s) as [|k|k|k|k] eqn:He.
    + destruct (io_service (ses s)) as [|k q] eqn:Hq; [done|].
      destruct (torrents (ses s) !! s_ctrl (task_ref k)) as [b|] eqn:Hb; [|done].
      simpl in Hstep. destruct (run_method k (object b)) as [a' v] eqn:Hrun.
      injection Hstep as <-. by eapply t_invoke.
    + destruct (task_caller k) as [i|] eqn:Hk.
      * destruct (mut (ses s)) eqn:Hm; [done|]. injection Hstep as <-.
        by eapply t_exec_lock.
      * injection Hstep as <-. by eapply t_async_done.
    + injection Hstep as <-. by eapply t_flag.
    + injection Hstep as <-. by eapply t_notify.
    + injection Hstep as <-. by eapply t_unlock.
  - unfold spurious_step in Hstep.
    destruct (callers s !! i) as [c|] eqn:Hc; [|done]. simpl in Hstep.
    destruct (pc c) as [|t []] eqn:Hpc; try done.
    injection Hstep as <-. by eapply t_spurious.
Qed.

(** *** Lists of callers under the updates the transitions make *)

Lemma lookup_upd cs j c c' i :
  cs !! j = Some c →
  <[j := c']> cs !! i = if decide (j = i) then Some c' else cs !! i.
Proof.
  intros Hj. rewrite list_lookup_insert. apply lookup_lt_Some in Hj.
  repeat case_decide; try done; [by destruct_and!|].
  exfalso. auto.
Qed.

Lemma lookup_store_result k v cs i :
  store_result k v cs !! i = stored k v i <$> cs !! i.
Proof.
  unfold stored. destruct k as [| |t f j]; simpl; try by destruct (cs !! i).
  rewrite list_lookup_alter. case_decide; [by subst|]. by destruct (cs !! i).
Qed.

Lemma lookup_flag k cs i :
  match task_caller k with
  | Some j => alter (set_done true) j cs
  | None => cs
  end !! i
  = flagged k i <$> cs !! i.
Proof.
  unfold flagged. destruct (task_caller k) as [j|].
  - rewrite list_lookup_alter. repeat case_decide; simplify_eq; try done;
      by destruct (cs !! i).
  - case_decide; [done|]. by destruct (cs !! i).
Qed.

Lemma stored_fields k v i c :
  program (stored k v i c) = program c ∧ pc (stored k v i c) = pc c
  ∧ done (stored k v i c) = done c ∧ rets (stored k v i c) = rets c.
Proof. unfold stored. destruct k; try done. by case_decide. Qed.

Lemma flagged_fields k i c :
  program (flagged k i c) = program c ∧ pc (flagged k i c) = pc c
  ∧ r (flagged k i c) = r c ∧ rets (flagged k i c) = rets c.
Proof. unfold flagged. by case_decide. Qed.

Lemma lookup_notify_all cs i : notify_all cs !! i = wake <$> cs !! i.
Proof. apply list_lookup_fmap. Qed.

Lemma wake_pc c :
  pc (wake c) = match pc c with
                | InWait t AtBlocked => InWait t AtWoken
                | p => p
                end.
Proof. unfold wake. by destruct (pc c) as [|t []] eqn:Hpc; simpl; rewrite ?Hpc. Qed.

Lemma wake_pos c t p : pc c = InWait t p → ∃ p', pc (wake c) = InWait t p'.
Proof. rewrite wake_pc. intros ->. destruct p; eauto. Qed.

Lemma wake_pos_inv c t p : pc (wake c) = InWait t p → ∃ p', pc c = InWait t p'.
Proof. rewrite wake_pc. destruct (pc c) as [|t' []]; intros [= <- <-] || intros [=]; eauto. Qed.

Lemma wake_fields c :
  program (wake c) = program c ∧ done (wake c) = done c
  ∧ r (wake c) = r c ∧ rets (wake c) = rets c.
Proof. unfold wake. by destruct (pc c) as [|t []]. Qed.

Lemma program_stored k v i c : program (stored k v i c) = program c.
Proof. apply stored_fields. Qed.
Lemma pc_stored k v i c : pc (stored k v i c) = pc c.
Proof. apply stored_fields. Qed.
Lemma done_stored k v i c : done (stored k v i c) = done c.
Proof. apply stored_fields. Qed.
Lemma rets_stored k v i c : rets (stored k v i c) = rets c.
Proof. apply stored_fields. Qed.
Lemma program_flagged k i c : program (flagged k i c) = program c.
Proof. apply flagged_fields. Qed.
Lemma pc_flagged k i c : pc (flagged k i c) = pc c.
Proof. apply flagged_fields. Qed.
Lemma r_flagged k i c : r (flagged k i c) = r c.
Proof. apply flagged_fields. Qed.
Lemma rets_flagged k i c : rets (flagged k i c) = rets c.
Proof. apply flagged_fields. Qed.
Lemma program_wake c : program (wake c) = program c.
Proof. apply wake_fields. Qed.
Lemma done_wake c : done (wake c) = done c.
Proof. apply wake_fields. Qed.
Lemma r_wake c : r (wake c) = r c.
Proof. apply wake_fields. Qed.
Lemma rets_wake c : rets (wake c) = rets c.
Proof. apply wake_fields. Qed.

Lemma next_call_stored k v i c : next_call (stored k v i c) = next_call c.
Proof. unfold next_call. by rewrite program_stored, rets_stored. Qed.
Lemma next_call_flagged k i c : next_call (flagged k i c) = next_call c.
Proof. unfold next_call. by rewrite program_flagged, rets_flagged. Qed.
Lemma next_call_wake c : next_call (wake c) = next_call c.
Proof. unfold next_call. by rewrite program_wake, rets_wake. Qed.

(** *** Proof steps shared by the invariants *)

Create Rewrite HintDb frame.
#[local] Hint Rewrite program_stored pc_stored done_stored rets_stored
  program_flagged pc_flagged r_flagged rets_flagged
  program_wake done_wake r_wake rets_wake
  next_call_stored next_call_flagged next_call_wake : frame.

Ltac look :=
  repeat match goal with
  | Hi : callers _ !! _ = Some _ |- _ => rewrite (lookup_upd _ _ _ _ _ Hi)
  end;
  rewrite ?lookup_store_result, ?lookup_flag, ?lookup_notify_all.

Ltac use_eqs :=
  repeat first
    [ match goal with H : pc _ = _ |- _ => progress rewrite H in * end
    | match goal with H : exec _ = _ |- _ => progress rewrite H in * end
    | match goal with H : mut _ = _ |- _ => progress rewrite H in * end
    | match goal with H : done _ = _ |- _ => progress rewrite H in * end
    | match goal with H : io_service _ = _ |- _ => progress rewrite H in * end
    | match goal with H : task_caller _ = _ |- _ => progress rewrite H in * end
    | match goal with H : callers _ !! _ = _ |- _ => progress rewrite H in * end ].

(** *** The mutex *)

Lemma mutex_ok_step s l s' :
  transition asserts s l s' → mutex_ok s → mutex_ok s'.
Proof.
  intros Ht [Hc He]. unfold mutex_ok.
  destruct Ht; simpl in *.
  all: split; [intros j; pose proof (Hc j) as Hj|]; look.
  all: try (pose proof (Hc i) as Hi).
  all: try case_decide; subst; use_eqs; unfold at_test in *; simpl in *; use_eqs.
  all: try (destruct (callers s !! j) as [cj|]; simpl in *;
            autorewrite with frame; rewrite ?wake_pc).
  all: try naive_solver.
  destruct (pc cj) as [|? []]; naive_solver.
Qed.

(** *** Handlers in flight *)

Lemma queued_snoc i q k : queued i (q ++ [k]) = queued i q + owes i k.
Proof. unfold queued. rewrite sum_list_with_app. simpl. lia. Qed.

Lemma owes_task_of_call i t cl j :
  owes i (task_of_call t cl j)
  = if is_async cl then 0 else if decide (j = i) then 1 else 0.
Proof.
  unfold owes. destruct cl; simpl; repeat case_decide; congruence.
Qed.

Lemma owes_caller i k : owes i k = if decide (task_caller k = Some i) then 1 else 0.
Proof. done. Qed.

Ltac cases Ht :=
  destruct Ht as
    [i c h cl Hi Hpc Hnext Hexp Has
    |i c h cl Hi Hpc Hnext Hexp Has
    |i c h f Hi Hpc Hnext Hexp
    |i c h cl Hi Hpc Hnext Hexp Hasync
    |i c t p Hi Hpc Hp Hm
    |i c t Hi Hpc Hd
    |i c t Hi Hpc Hd
    |k q b a' v He Hq Hb Hrun
    |k He Hk
    |k i He Hk Hm
    |k He
    |k He
    |k He
    |i c t Hi Hpc]; simpl in *.

(** the caller [j] looked at is the caller [i] that moved, or another *)
Ltac split_caller i j :=
  look; destruct (decide (i = j)) as [<-|?]; simpl.

Lemma flight_ok_step s l s' :
  transition asserts s l s' → mutex_ok s → flight_ok s → flight_ok s'.
Proof.
  intros Ht [Hc He'] Hf. unfold flight_ok. cases Ht; intros j.
  all: pose proof (Hf j) as Hj; simpl in Hj.
  - done.
  - split_caller i j; [|done]. by rewrite Hi, Hpc in Hj.
  - rewrite queued_snoc. change (owes j (async_task (ptr_of h) f)) with 0.
    rewrite Nat.add_0_r. split_caller i j; [|done]. by rewrite Hi, Hpc in Hj.
  - rewrite queued_snoc, owes_task_of_call, Hasync. split_caller i j.
    + rewrite Hi, Hpc in Hj. lia.
    + rewrite Nat.add_0_r. done.
  - split_caller i j; [|done]. by rewrite Hi, Hpc in Hj.
  - split_caller i j; [|done]. by rewrite Hi, Hpc in Hj.
  - split_caller i j; [|done]. rewrite Hi, Hpc, Hd in Hj. split; [done|].
    specialize (Hc i). rewrite Hi in Hc. unfold at_test in Hc. rewrite Hpc in Hc.
    destruct (exec s) eqn:Hex; simpl in *; try done;
      destruct He' as [He' _]; specialize (He' eq_refl);
      destruct Hc as [Hc _]; specialize (Hc eq_refl); congruence.
  - look. rewrite He, Hq in Hj. simpl in Hj.
    replace (queued j q + owes j k) with (owes j k + queued j q + 0) by lia.
    destruct (callers s !! j) as [cj|]; simpl; autorewrite with frame; done.
  - rewrite He in Hj. simpl in Hj. unfold owes in Hj. rewrite Hk in Hj.
    case_decide; [done|]. by rewrite !Nat.add_0_r in *.
  - by rewrite He in Hj.
  - look. rewrite He in Hj. simpl in Hj. unfold flagged, owes in *.
    destruct (callers s !! j) as [cj|]; simpl; case_decide; simpl;
      rewrite ?Nat.add_0_r in *; try done.
    + destruct (pc cj); [lia|]. destruct (done cj); lia.
    + lia.
  - look. rewrite He in Hj. simpl in Hj.
    destruct (callers s !! j) as [cj|]; simpl; [|done].
    autorewrite with frame. rewrite wake_pc. by destruct (pc cj) as [|? []].
  - rewrite He in Hj. simpl in Hj.
    destruct (callers s !! j) as [cj|]; simpl; [|by destruct Hj].
    destruct (pc cj); [by destruct Hj|]. destruct (done cj); [done|]. by destruct Hj.
  - split_caller i j; [|done]. by rewrite Hi, Hpc in Hj.
Qed.

(** *** No missed wakeup *)

(** reading a caller out of an updated list *)
Ltac read_caller H :=
  first
    [ match goal with
      | Hi : callers _ !! _ = Some _ |- _ =>
          rewrite (lookup_upd _ _ _ _ _ Hi) in H
      end;
      case_decide; simplify_eq/=
    | rewrite ?lookup_store_result, ?lookup_flag, ?lookup_notify_all in H;
      apply fmap_Some in H as (? & H & ->) ].

Lemma wake_ok_step s l s' :
  transition asserts s l s' → mutex_ok s → wake_ok s → wake_ok s'.
Proof.
  intros Ht [Hc He'] Hw. unfold wake_ok. cases Ht; intros j cj tj Hj Hpcj Hdj.
  all: try (read_caller Hj; autorewrite with frame in * ); eauto.
  - congruence.
  - destruct (Hw _ _ _ Hj Hpcj Hdj) as [k' Hk']. congruence.
  - destruct (Hw _ _ _ Hj Hpcj Hdj) as [k' Hk']. congruence.
  - destruct (Hw _ _ _ Hj Hpcj Hdj) as [k' Hk']. congruence.
  - rewrite wake_pc in Hpcj. by destruct (pc x) as [|? []].
  - destruct (Hw _ _ _ Hj Hpcj Hdj) as [k' Hk']. congruence.
Qed.

(** *** Handlers and the calls they belong to *)

Lemma queued_zero i q k : queued i q = 0 → k ∈ q → task_caller k ≠ Some i.
Proof.
  unfold queued. intros Hq Hk. pose proof (sum_list_with_in k (owes i) q Hk) as Hle.
  rewrite Hq in Hle. unfold owes in Hle. case_decide; [lia|done].
Qed.

Lemma queued_pos i q k : k ∈ q → task_caller k = Some i → 0 < queued i q.
Proof.
  intros Hk Hi. destruct (decide (queued i q = 0)) as [Hz|]; [|lia].
  by destruct (queued_zero _ _ _ Hz Hk).
Qed.

(** A thread that is between calls, or that holds the mutex and sees
    its flag set, has no handler left anywhere. *)
Lemma flight_none s i c k :
  mutex_ok s → flight_ok s → callers s !! i = Some c →
  pc c = Ready ∨ (at_test c = true ∧ done c = true) →
  in_system k s → task_caller k ≠ Some i.
Proof.
  intros [Hc He] Hf Hi Hcase Hin Hk. specialize (Hf i). specialize (Hc i).
  simpl in Hf. rewrite Hi in Hf, Hc.
  assert (queued i (io_service (ses s)) + before_flag i (exec s) = 0
          ∧ (after_flag i (exec s) = 0 ∨ exec_locked (exec s) = false))
    as [Hz Hafter].
  { destruct Hcase as [Hpc|[Hat Hd]].
    - rewrite Hpc in Hf. destruct Hf. auto.
    - unfold at_test in Hat. destruct (pc c) as [|t p] eqn:Hpc; [done|].
      rewrite Hd in Hf. split; [done|right].
      destruct (exec_locked (exec s)) eqn:Hl; [|done].
      assert (at_test c = true) as Ht by (unfold at_test; by rewrite Hpc).
      apply Hc in Ht. destruct He as [He _]. specialize (He eq_refl). congruence. }
  destruct Hin as [Hin|Hin].
  - eapply queued_zero; [|done..]. lia.
  - unfold before_flag, after_flag, owes in *.
    destruct (exec s); simplify_eq/=; case_decide; try done; try lia;
      by destruct Hafter.
Qed.

(** the witness of [task_ok] for a caller other than the one that moved,
    or for the one that moved when it stays in its call *)
Ltac keep_task Hk' k0 j Hin Hj :=
  let cj := fresh "cj" in
  let tj := fresh "tj" in
  let pj := fresh "pj" in
  let hj := fresh "hj" in
  let clj := fresh "clj" in
  let Hcj := fresh "Hcj" in
  let Hpj := fresh "Hpj" in
  let Hnj := fresh "Hnj" in
  destruct (Hk' k0 j Hin Hj) as (cj & tj & pj & hj & clj & Hcj & Hpj & Hnj & ->).

Lemma task_ok_step s l s' :
  transition asserts s l s' → mutex_ok s → flight_ok s → task_ok s → task_ok s'.
Proof.
  intros Ht Hmx Hf Hk'. unfold task_ok, in_system.
  cases Ht; intros k0 j Hin Hj.
  - eauto.
  - keep_task Hk' k0 j Hin Hj.
    destruct (decide (i = j)) as [->|]; [congruence|].
    exists cj, tj, pj, hj, clj. look. by case_decide.
  - assert (in_system k0 s) as Hin'.
    { destruct Hin as [[Hin| ->%list_elem_of_singleton]%elem_of_app|Hin];
        [by left|done|by right]. }
    keep_task Hk' k0 j Hin' Hj.
    destruct (decide (i = j)) as [->|]; [congruence|].
    exists cj, tj, pj, hj, clj. look. by case_decide.
  - destruct (decide (i = j)) as [<-|Hne].
    + assert (k0 = task_of_call (ptr_of h) cl i) as ->.
      { assert (in_system k0 s → False) as Hno.
        { intros Hin'. by eapply (flight_none s i c k0); eauto. }
        destruct Hin as [[Hin| ->%list_elem_of_singleton]%elem_of_app|Hin];
          [destruct Hno; by left|done|destruct Hno; by right]. }
      eexists _, (ptr_of h), AtEnter, h, cl. look.
      rewrite decide_True by done. done.
    + assert (in_system k0 s) as Hin'.
      { destruct Hin as [[Hin| ->%list_elem_of_singleton]%elem_of_app|Hin];
          [by left| |by right].
        destruct cl; simpl in *; congruence. }
      keep_task Hk' k0 j Hin' Hj.
      exists cj, tj, pj, hj, clj. look. by case_decide.
  - keep_task Hk' k0 j Hin Hj.
    destruct (decide (i = j)) as [->|].
    + assert (cj = c) as -> by congruence.
      assert (tj = t) as -> by congruence.
      eexists _, t, AtTest, hj, clj. look.
      rewrite decide_True by done. done.
    + exists cj, tj, pj, hj, clj. look. by case_decide.
  - keep_task Hk' k0 j Hin Hj.
    destruct (decide (i = j)) as [->|].
    + assert (cj = c) as -> by congruence.
      assert (tj = t) as -> by congruence.
      eexists _, t, AtBlocked, hj, clj. look.
      rewrite decide_True by done. done.
    + exists cj, tj, pj, hj, clj. look. by case_decide.
  - destruct (decide (i = j)) as [->|].
    + destruct (flight_none s j c k0 Hmx Hf Hi); auto.
      right. unfold at_test. by rewrite Hpc.
    + keep_task Hk' k0 j Hin Hj.
      exists cj, tj, pj, hj, clj. look. by case_decide.
  - assert (in_system k0 s) as Hin'.
    { unfold in_system. rewrite Hq, He.
      destruct Hin as [Hin|[= ->]]; left; [by right|by left]. }
    keep_task Hk' k0 j Hin' Hj.
    eexists _, tj, pj, hj, clj. look. rewrite Hcj. simpl.
    split; [reflexivity|]. autorewrite with frame. done.
  - assert (in_system k0 s) as Hin'.
    { unfold in_system. destruct Hin as [Hin|[=]]. by left. }
    eauto.
  - assert (in_system k0 s) as Hin'.
    { unfold in_system. rewrite He. destruct Hin as [Hin|Hin]; [by left|by right]. }
    eauto.
  - assert (in_system k0 s) as Hin'.
    { unfold in_system. rewrite He. destruct Hin as [Hin|Hin]; [by left|by right]. }
    keep_task Hk' k0 j Hin' Hj.
    eexists _, tj, pj, hj, clj. look. rewrite Hcj. simpl.
    split; [reflexivity|]. autorewrite with frame. done.
  - assert (in_system k0 s) as Hin'.
    { unfold in_system. rewrite He. destruct Hin as [Hin|Hin]; [by left|by right]. }
    keep_task Hk' k0 j Hin' Hj.
    destruct (wake_pos cj tj pj Hpj) as [pj' Hpj'].
    eexists _, tj, pj', hj, clj. look. rewrite Hcj. simpl.
    split; [reflexivity|]. autorewrite with frame. done.
  - assert (in_system k0 s) as Hin'.
    { unfold in_system. destruct Hin as [Hin|[=]]. by left. }
    eauto.
  - keep_task Hk' k0 j Hin Hj.
    destruct (decide (i = j)) as [->|].
    + assert (cj = c) as -> by congruence.
      assert (tj = t) as -> by congruence.
      eexists _, t, AtWoken, hj, clj. look.
      rewrite decide_True by done. done.
    + exists cj, tj, pj, hj, clj. look. by case_decide.
Qed.

(** *** The call a waiting thread is in *)

Lemma call_ok_step s l s' :
  transition asserts s l s' → task_ok s → call_ok s → call_ok s'.
Proof.
  intros Ht Hk' Hcl. unfold call_ok.
  cases Ht; intros j cj tj pj Hj Hpj.
  all: try (read_caller Hj; autorewrite with frame in * ); eauto.
  - (* call *)
    exists h, cl. split_and!; [done|congruence|]. by destruct cl.
  - destruct (Hcl _ _ _ _ Hi Hpc) as (h & cl & ? & ? & ?).
    exists h, cl. split_and!; [done|congruence|done].
  - destruct (Hcl _ _ _ _ Hi Hpc) as (h & cl & ? & ? & ?).
    exists h, cl. split_and!; [done|congruence|done].
  - (* invoke *)
    destruct (Hcl _ _ _ _ Hj Hpj) as (h & cl & Hn & -> & Hr).
    exists h, cl. split_and!; [done..|]. destruct cl; try done.
    unfold stored. destruct k as [| |tk fk ik]; try done.
    case_decide; [subst|done].
    destruct (Hk' (sync_ret_task tk fk j) j) as (c' & t' & p' & h' & cl' & Hc' & _ & Hn' & Heq);
      [left; rewrite Hq; by left|done|].
    assert (cl' = call_sync f) as -> by congruence. done.
  - (* notify *)
    apply wake_pos_inv in Hpj as [p' Hp'].
    destruct (Hcl _ _ _ _ Hj Hp') as (h & cl & ? & ? & ?). eauto.
  - destruct (Hcl _ _ _ _ Hi Hpc) as (h & cl & ? & ? & ?).
    exists h, cl. split_and!; [done|congruence|done].
Qed.

(** *** The programs and the number of callers do not change *)

Lemma fmap_upd {B} (g : caller actor val → B) cs i c c' :
  cs !! i = Some c → g c' = g c → g <$> <[i := c']> cs = g <$> cs.
Proof.
  intros Hi Hg. rewrite list_fmap_insert, Hg. apply list_insert_id.
  by rewrite list_lookup_fmap, Hi.
Qed.

Lemma fmap_alter_same {B} (g : caller actor val → B) f cs i :
  (∀ c, g (f c) = g c) → g <$> alter f i cs = g <$> cs.
Proof.
  intros Hg. apply list_eq. intros j.
  rewrite !list_lookup_fmap, list_lookup_alter. case_decide; subst; [|done].
  destruct (cs !! j); simpl; by rewrite ?Hg.
Qed.

Lemma progs_ok_step progs s l s' :
  transition asserts s l s' → progs_ok progs s → progs_ok progs s'.
Proof.
  unfold progs_ok. intros Ht <-. cases Ht; try done.
  all: try by eapply fmap_upd.
  - destruct k; simpl; try done. by apply fmap_alter_same.
  - destruct (task_caller k); [|done]. by apply fmap_alter_same.
  - unfold notify_all. rewrite <-list_fmap_compose. apply list_fmap_ext.
    intros ? c _. simpl. apply program_wake.
Qed.

Lemma callers_length_step s l s' :
  transition asserts s l s' → length (callers s') = length (callers s).
Proof.
  intros Ht. cases Ht; rewrite ?length_insert; try done.
  - destruct k; simpl; try done. apply length_alter.
  - destruct (task_caller k); [|done]. apply length_alter.
  - apply length_fmap.
Qed.

(** *** Sums over the callers *)

Lemma sum_upd (g : caller actor val → nat) cs i c c' :
  cs !! i = Some c →
  sum_list_with g (<[i := c']> cs) + g c = sum_list_with g cs + g c'.
Proof.
  revert i. induction cs as [|c0 cs IH]; intros [|i] Hi; simplify_eq/=; [lia|].
  specialize (IH _ Hi). lia.
Qed.

Lemma sum_alter_same (g : caller actor val → nat) f cs i :
  (∀ c, g (f c) = g c) →
  sum_list_with g (alter f i cs) = sum_list_with g cs.
Proof.
  intros Hg. revert i. induction cs as [|c0 cs IH]; intros [|i]; simpl; try done.
  - by rewrite Hg.
  - f_equal. apply IH.
Qed.

Lemma sum_fmap_same (g : caller actor val → nat) f cs :
  (∀ c, g (f c) = g c) →
  sum_list_with g (f <$> cs) = sum_list_with g cs.
Proof.
  intros Hg. induction cs as [|c0 cs IH]; simpl; [done|].
  rewrite Hg. f_equal. apply IH.
Qed.

Lemma caller_holds_pc b c c' : pc c' = pc c → caller_holds b c' = caller_holds b c.
Proof. unfold caller_holds. by intros ->. Qed.

Lemma caller_holds_wake b c : caller_holds b (wake c) = caller_holds b c.
Proof. unfold caller_holds. rewrite wake_pc. by destruct (pc c) as [|? []]. Qed.

Lemma sum_holds_store b k v cs :
  sum_list_with (caller_holds b) (store_result k v cs)
  = sum_list_with (caller_holds b) cs.
Proof. destruct k; simpl; try done. by apply sum_alter_same. Qed.

Lemma sum_holds_flag b k cs :
  sum_list_with (caller_holds b)
    (match task_caller k with
     | Some i => alter (set_done true) i cs
     | None => cs
     end)
  = sum_list_with (caller_holds b) cs.
Proof. destruct (task_caller k); [|done]. by apply sum_alter_same. Qed.

Lemma sum_holds_notify b cs :
  sum_list_with (caller_holds b) (notify_all cs) = sum_list_with (caller_holds b) cs.
Proof. apply sum_fmap_same, caller_holds_wake. Qed.

(** *** The torrents *)

Lemma obj_after_snoc (lg : list (invocation actor val)) (e : invocation actor val) b (a : actor) :
  obj_after (lg ++ [e]) b a
  = if invoked_on b e then inv_post e else obj_after lg b a.
Proof. unfold obj_after. by rewrite foldl_app. Qed.

Lemma lookup_acquire (x b : Z) w :
  acquire x w !! b = if decide (x = b) then incr_use <$> w !! b else w !! b.
Proof. unfold acquire. rewrite lookup_alter. by case_decide; subst. Qed.

Lemma lookup_release (x b : Z) w :
  release x w !! b = if decide (x = b) then decr_use <$> w !! b else w !! b.
Proof. unfold release. rewrite lookup_alter. by case_decide; subst. Qed.

Lemma holds_self t : holds (s_ctrl t) t = 1.
Proof. unfold holds. by rewrite decide_True. Qed.

Lemma holds_other b t : s_ctrl t ≠ b → holds b t = 0.
Proof. unfold holds. intros. by rewrite decide_False. Qed.

Lemma sum_upd_same (g : caller actor val → nat) cs i c c' :
  cs !! i = Some c → g c' = g c →
  sum_list_with g (<[i := c']> cs) = sum_list_with g cs.
Proof. intros Hi Hg. pose proof (sum_upd g cs i c c' Hi). lia. Qed.

Lemma sum_upd_add (g : caller actor val → nat) cs i c c' :
  cs !! i = Some c → g c = 0 →
  sum_list_with g (<[i := c']> cs) = sum_list_with g cs + g c'.
Proof. intros Hi Hg. pose proof (sum_upd g cs i c c' Hi). lia. Qed.

Lemma sum_upd_sub (g : caller actor val → nat) cs i c c' :
  cs !! i = Some c → g c' = 0 →
  sum_list_with g cs = sum_list_with g (<[i := c']> cs) + g c.
Proof. intros Hi Hg. pose proof (sum_upd g cs i c c' Hi). lia. Qed.

Lemma task_holds_of_call (b : Z) t cl i :
  task_holds b (task_of_call t cl i) = holds b t.
Proof. by destruct cl. Qed.

(** closing a goal of [heap_ok] once the new heap is read at [b0] *)
Ltac heap_close Hh b0 :=
  rewrite ?lookup_acquire, ?lookup_release; rewrite Hh; clear Hh;
  match goal with |- context [?w0 !! b0] => destruct (w0 !! b0) as [blk|] end;
  simpl; [|by repeat case_decide];
  repeat match goal with
  | |- context [sum_list_with ?g ?l] => generalize (sum_list_with g l); intro
  | |- context [from_option ?g ?d ?o] => generalize (from_option g d o); intro
  end;
  unfold task_holds, holds in *; simpl in *;
  repeat case_decide; simplify_eq/=; try congruence;
  unfold incr_use, decr_use; simpl; do 2 f_equal; try done; try lia.

Lemma heap_ok_step w0 s l s' :
  transition asserts s l s' → heap_ok w0 s → heap_ok w0 s'.
Proof.
  intros Ht Hh. unfold heap_ok. cases Ht; intros b0; specialize (Hh b0).
  all: unfold held in *; simpl in *.
  all: rewrite ?sum_holds_store, ?sum_holds_flag, ?sum_holds_notify.
  - done.
  - rewrite (sum_upd_same _ _ _ _ _ Hi); [done|].
    unfold caller_holds. by rewrite Hpc.
  - rewrite (sum_upd_same _ _ _ _ _ Hi) by (unfold caller_holds; by rewrite Hpc).
    rewrite sum_list_with_app. simpl. heap_close Hh b0.
  - rewrite (sum_upd_add _ _ _ _ _ Hi) by (unfold caller_holds; by rewrite Hpc).
    rewrite sum_list_with_app. simpl. rewrite task_holds_of_call.
    unfold caller_holds at 2. simpl. heap_close Hh b0.
  - rewrite (sum_upd_same _ _ _ _ _ Hi); [done|].
    unfold caller_holds. by rewrite Hpc.
  - rewrite (sum_upd_same _ _ _ _ _ Hi); [done|].
    unfold caller_holds. by rewrite Hpc.
  - rewrite (sum_upd_sub (caller_holds b0) _ _ _
      (CallerSt (program c) Ready true (r c) (rets c ++ [Waited (r c)])) Hi) in Hh
      by done.
    unfold caller_holds in Hh at 2. rewrite Hpc in Hh. heap_close Hh b0.
  - rewrite He, Hq in Hh. simpl in Hh. rewrite lookup_insert.
    destruct (w0 !! b0) as [blk|] eqn:Hw0; simpl in *;
      rewrite ?obj_after_snoc; unfold invoked_on; simpl;
      (case_decide as Hd; [subst b0; rewrite ?bool_decide_true by done
                          |rewrite ?bool_decide_false by done]); try congruence.
    + rewrite Hb in Hh. injection Hh as ->. unfold set_object. simpl.
      do 2 f_equal. lia.
    + rewrite Hh. do 2 f_equal. lia.
  - rewrite He in Hh. simpl in Hh. heap_close Hh b0.
  - rewrite He in Hh. simpl in Hh. done.
  - rewrite He in Hh. simpl in Hh. done.
  - rewrite He in Hh. simpl in Hh. done.
  - rewrite He in Hh. simpl in Hh. heap_close Hh b0.
  - rewrite (sum_upd_same _ _ _ _ _ Hi); [done|].
    unfold caller_holds. by rewrite Hpc.
Qed.

Lemma live_in_start w0 s p :
  heap_ok w0 s → expired p (torrents (ses s)) = false → is_Some (w0 !! w_ctrl p).
Proof.
  intros Hh (b & Hb & _)%expired_lookup. rewrite (Hh (w_ctrl p)) in Hb.
  by destruct (w0 !! w_ctrl p).
Qed.

Lemma refs_ok_step w0 s l s' :
  transition asserts s l s' → heap_ok w0 s → refs_ok w0 s → refs_ok w0 s'.
Proof.
  intros Ht Hh [Hrc Hrk]. unfold refs_ok, in_system in *.
  assert (∀ q' k' k0, k0 ∈ q' ++ [k'] ∨ exec_task (exec s) = Some k0 →
            (∀ k, k ∈ q' → k ∈ io_service (ses s)) →
            is_Some (w0 !! s_ctrl (task_ref k')) →
            is_Some (w0 !! s_ctrl (task_ref k0))) as Hsnoc.
  { intros q' k' k0 [[Hin| ->%list_elem_of_singleton]%elem_of_app|Hin] Hsub Hnew;
      [apply Hrk; left; by apply Hsub|done|apply Hrk; by right]. }
  cases Ht; (split; [intros j cj tj pj Hj Hpj|intros k0 Hin]).
  all: try (read_caller Hj; autorewrite with frame in * ); eauto.
  - eapply Hsnoc; eauto. simpl. by eapply live_in_start.
  - by eapply (live_in_start _ _ (m_torrent h)).
  - eapply Hsnoc; eauto.
    replace (task_ref (task_of_call (ptr_of h) cl i)) with (ptr_of h)
      by (by destruct cl).
    by eapply (live_in_start _ _ (m_torrent h)).
  - apply Hrk. rewrite Hq, He. destruct Hin as [Hin|[= ->]]; left; [by right|by left].
  - apply Hrk. destruct Hin as [Hin|[=]]. by left.
  - apply Hrk. rewrite He. destruct Hin as [Hin|Hin]; [by left|by right].
  - apply Hrk. rewrite He. destruct Hin as [Hin|Hin]; [by left|by right].
  - apply wake_pos_inv in Hpj as [p' Hp']. eauto.
  - apply Hrk. rewrite He. destruct Hin as [Hin|Hin]; [by left|by right].
  - apply Hrk. destruct Hin as [Hin|[=]]. by left.
Qed.

(** *** The record of invocations *)

Lemma snoc_split {A} (lg l1 l2 : list A) (x e : A) :
  lg ++ [x] = l1 ++ e :: l2 →
  (l2 = [] ∧ l1 = lg ∧ e = x) ∨ ∃ l2', l2 = l2' ++ [x] ∧ lg = l1 ++ e :: l2'.
Proof.
  destruct l2 as [|y l2 _] using rev_ind.
  - intros [-> ->]%app_inj_tail. by left.
  - rewrite app_comm_cons, app_assoc. intros [-> ->]%app_inj_tail.
    right. by exists l2.
Qed.

Lemma chain_ok_step w0 s l s' :
  transition asserts s l s' → heap_ok w0 s → chain_ok w0 s → chain_ok w0 s'.
Proof.
  intros Ht Hh Hch. unfold chain_ok. cases Ht; try done.
  intros l1 e l2 [(-> & -> & ->)|(l2' & -> & Hlog)]%snoc_split; [|eauto].
  simpl. specialize (Hh (s_ctrl (task_ref k))). rewrite Hb in Hh.
  destruct (w0 !! s_ctrl (task_ref k)) as [blk|]; [|done].
  injection Hh as ->. eauto.
Qed.

Lemma recorded_snoc i n v (lg : list (invocation actor val)) x :
  recorded i n v lg → recorded i n v (lg ++ [x]).
Proof.
  intros (e0 & Hin & ?). exists e0. split; [|done]. apply elem_of_app. by left.
Qed.

(** What is known of the handler at the head of the queue when it names
    caller [j]: it is the handler of the call [j] is waiting in, it is the
    only one, the flag is not yet set, and after the run [r] holds the
    value produced. *)
Lemma head_of_queue s k q j :
  flight_ok s → task_ok s → call_ok s →
  exec s = Idle → io_service (ses s) = k :: q → task_caller k = Some j →
  ∃ c h cl, callers s !! j = Some c ∧ (∃ t p, pc c = InWait t p)
    ∧ next_call c = Some (h, cl) ∧ k = task_of_call (ptr_of h) cl j
    ∧ queued j q = 0 ∧ done c = false
    ∧ (∀ a a' v, run_method k a = (a', v) → r (stored k v j c) = v).
Proof.
  intros Hf Hk Hcl He Hq Hj.
  destruct (Hk k j) as (c & t & p & h & cl & Hc & Hpc & Hn & Heq);
    [left; rewrite Hq; by left|done|].
  destruct (Hcl _ _ _ _ Hc Hpc) as (h' & cl' & Hn' & -> & Hr).
  assert (h' = h ∧ cl' = cl) as [-> ->] by (split; congruence).
  specialize (Hf j). simpl in Hf. rewrite Hc, Hpc, He, Hq in Hf. simpl in Hf.
  assert (owes j k = 1) as Ho by (unfold owes; by rewrite decide_True).
  rewrite Ho in Hf.
  exists c, h, cl. split_and!; eauto.
  - destruct (done c); lia.
  - by destruct (done c).
  - intros a a' v Hrun. subst k. unfold stored.
    destruct cl as [f|f|def f]; simpl in *; [done|by injection Hrun as _ <-|].
    rewrite decide_True by done. destruct (f a). by injection Hrun as _ <-.
Qed.

(** a recorded run of a caller other than the one whose handler runs *)
Lemma stored_other k v j c :
  owes j k = 0 → stored k v j c = c.
Proof.
  unfold owes, stored. destruct k as [| |t f i]; try done. simpl.
  repeat case_decide; simplify_eq; done || lia.
Qed.

Lemma log_runs_step s l s' :
  transition asserts s l s' →
  mutex_ok s → flight_ok s → task_ok s → call_ok s → log_ok s →
  ∀ (x : invocation actor val) i, x ∈ log s' → task_caller (inv_task x) = Some i →
    ∃ c h cl, callers s' !! i = Some c ∧
      program c !! inv_index x = Some (h, cl) ∧
      inv_task x = task_of_call (ptr_of h) cl i ∧
      (rets c !! inv_index x = Some (Waited (inv_value x))
       ∨ (inv_index x = length (rets c) ∧ (∃ t p, pc c = InWait t p)
          ∧ queued i (io_service (ses s')) = 0 ∧ r c = inv_value x)).
Proof.
  intros Ht Imx Ifl Itk Icl (L1 & L2 & L3).
  cases Ht; intros e0 j Hin Hj.
  all: try (destruct (L1 e0 j Hin Hj) as (cj & hj & clj & Hcj & Hprog & Htask & Hret)).
  - eauto 10.
  - destruct (decide (i = j)) as [<-|Hne].
    + assert (cj = c) as -> by congruence.
      exists (returned_now (default_of cl) c), hj, clj. look.
      rewrite decide_True by done. split_and!; try done. left. simpl.
      destruct Hret as [Hret|(_ & (? & ? & ?) & _)]; [|congruence].
      by apply lookup_app_l_Some.
    + exists cj, hj, clj. look. rewrite decide_False by done. done.
  - destruct (decide (i = j)) as [<-|Hne].
    + assert (cj = c) as -> by congruence.
      exists (returned_now None c), hj, clj. look.
      rewrite decide_True by done. split_and!; try done. left. simpl.
      destruct Hret as [Hret|(_ & (? & ? & ?) & _)]; [|congruence].
      by apply lookup_app_l_Some.
    + exists cj, hj, clj. look. rewrite decide_False by done.
      split_and!; try done. rewrite queued_snoc. simpl.
      change (owes j (async_task (ptr_of h) f)) with 0. by rewrite Nat.add_0_r.
  - destruct (decide (i = j)) as [<-|Hne].
    + assert (cj = c) as -> by congruence.
      eexists _, hj, clj. look.
      rewrite decide_True by done. split_and!; try done. left. simpl.
      destruct Hret as [Hret|(_ & (? & ? & ?) & _)]; [done|congruence].
    + exists cj, hj, clj. look. rewrite decide_False by done.
      split_and!; try done. rewrite queued_snoc, owes_task_of_call, Hasync.
      rewrite decide_False by done. by rewrite Nat.add_0_r.
  - destruct (decide (i = j)) as [<-|Hne].
    + assert (cj = c) as -> by congruence.
      eexists _, hj, clj. look. rewrite decide_True by done.
      split_and!; try done. destruct Hret as [?|(? & _ & ? & ?)]; [by left|right].
      split_and!; eauto.
    + exists cj, hj, clj. look. rewrite decide_False by done. done.
  - destruct (decide (i = j)) as [<-|Hne].
    + assert (cj = c) as -> by congruence.
      eexists _, hj, clj. look. rewrite decide_True by done.
      split_and!; try done. destruct Hret as [?|(? & _ & ? & ?)]; [by left|right].
      split_and!; eauto.
    + exists cj, hj, clj. look. rewrite decide_False by done. done.
  - destruct (decide (i = j)) as [<-|Hne].
    + assert (cj = c) as -> by congruence.
      eexists _, hj, clj. look. rewrite decide_True by done.
      split_and!; try done. left. simpl.
      destruct Hret as [?|(Hidx & _ & _ & Hr)]; [by apply lookup_app_l_Some|].
      rewrite Hidx, Hr. apply list_lookup_middle. done.
    + exists cj, hj, clj. look. rewrite decide_False by done. done.
  - apply elem_of_app in Hin as [Hin| ->%list_elem_of_singleton].
    + destruct (L1 e0 j Hin Hj) as (cj & hj & clj & Hcj & Hprog & Htask & Hret).
      exists (stored k v j cj), hj, clj. look. rewrite Hcj. simpl.
      autorewrite with frame. split_and!; try done.
      destruct Hret as [?|(Hidx & Hpc & Hqd & Hr)]; [by left|right].
      rewrite Hq in Hqd. simpl in Hqd.
      rewrite stored_other by lia. split_and!; try done. lia.
    + simpl in *.
      destruct (head_of_queue s k q j Ifl Itk Icl He Hq Hj)
        as (c & h & cl & Hc & Hpc & Hn & Heq & Hqd & Hd & Hr).
      exists (stored k v j c), h, cl. look. rewrite Hc. simpl.
      autorewrite with frame. rewrite Hj. simpl. rewrite Hc. simpl.
      split_and!; try done. right. split_and!; eauto.
  - eauto 10.
  - eauto 10.
  - exists (flagged k j cj), hj, clj. look. rewrite Hcj. simpl.
    autorewrite with frame. done.
  - exists (wake cj), hj, clj. look. rewrite Hcj. simpl.
    autorewrite with frame. split_and!; try done.
    destruct Hret as [?|(? & (t0 & p0 & Hp0) & ? & ?)]; [by left|right].
    split_and!; try done. destruct (wake_pos _ _ _ Hp0) as [p' Hp']. eauto.
  - eauto 10.
  - destruct (decide (i = j)) as [<-|Hne].
    + assert (cj = c) as -> by congruence.
      eexists _, hj, clj. look. rewrite decide_True by done.
      split_and!; try done. destruct Hret as [?|(? & _ & ? & ?)]; [by left|right].
      split_and!; eauto.
    + exists cj, hj, clj. look. rewrite decide_False by done. done.
Qed.

Lemma lookup_snoc_Some {A} (l : list A) (x y : A) n :
  (l ++ [x]) !! n = Some y → l !! n = Some y ∨ (n = length l ∧ y = x).
Proof.
  intros [?|[? Hn]]%lookup_app_Some; [by left|right].
  destruct (n - length l) as [|m] eqn:Hm; simpl in Hn; [|by destruct m].
  injection Hn as ->. split; [lia|done].
Qed.

Lemma log_returns_step s l s' :
  transition asserts s l s' →
  mutex_ok s → flight_ok s → task_ok s → call_ok s → log_ok s →
  ∀ i c, callers s' !! i = Some c →
    (∀ n v, rets c !! n = Some (Waited v) → recorded i n v (log s'))
    ∧ (∀ t p, pc c = InWait t p → queued i (io_service (ses s')) = 0 →
         recorded i (length (rets c)) (r c) (log s')).
Proof.
  intros Ht Imx Ifl Itk Icl (L1 & L2 & L3).
  cases Ht; intros j cj Hj.
  all: try (read_caller Hj; autorewrite with frame in * ).
  all: try (by apply L2).
  - (* skip *)
    destruct (L2 _ _ Hi) as [Lr _]. split; [|by intros ? ? [=]].
    intros n v [?|[_ [=]]]%lookup_snoc_Some. eauto.
  - (* post, the caller *)
    destruct (L2 _ _ Hi) as [Lr _]. split; [|by intros ? ? [=]].
    intros n v [?|[_ [=]]]%lookup_snoc_Some. eauto.
  - (* post, another *)
    destruct (L2 _ _ Hj) as [Lr Lw]. split; [done|].
    intros t p Hp. rewrite queued_snoc. intros Hz. apply (Lw t p Hp). lia.
  - (* call, the caller *)
    destruct (L2 _ _ Hi) as [Lr _]. split; [done|].
    intros t p _. rewrite queued_snoc, owes_task_of_call, Hasync.
    rewrite decide_True by done. lia.
  - (* call, another *)
    destruct (L2 _ _ Hj) as [Lr Lw]. split; [done|].
    intros t0 p Hp. rewrite queued_snoc. intros Hz. apply (Lw t0 p Hp). lia.
  - destruct (L2 _ _ Hi) as [Lr Lw]. split; [done|]. intros. by eapply Lw.
  - destruct (L2 _ _ Hi) as [Lr Lw]. split; [done|]. intros. by eapply Lw.
  - (* leave *)
    destruct (L2 _ _ Hi) as [Lr Lw]. split; [|by intros ? ? [=]].
    intros n v [?|[-> [= ->]]]%lookup_snoc_Some; [eauto|].
    eapply Lw; [done|]. specialize (Ifl j). simpl in Ifl.
    rewrite Hi, Hpc, Hd in Ifl. lia.
  - (* invoke *)
    destruct (L2 _ _ Hj) as [Lr Lw].
    split; [intros; apply recorded_snoc; eauto|].
    intros t p Hp Hz. destruct (decide (task_caller k = Some j)) as [Hkj|Hkj].
    + destruct (head_of_queue s k q j Ifl Itk Icl He Hq Hkj)
        as (c & h & cl & Hc & Hpc & Hn & Heq & Hqd & Hd & Hr).
      assert (x = c) as -> by congruence.
      eexists. split; [apply elem_of_app; right; by apply list_elem_of_singleton|].
      simpl. rewrite Hkj. simpl. rewrite Hc. simpl. split_and!; eauto.
      symmetry. eauto.
    + assert (owes j k = 0) as Ho by (unfold owes; by rewrite decide_False).
      rewrite stored_other by done. apply recorded_snoc, (Lw t p Hp).
      rewrite Hq. simpl. lia.
  - (* notify *)
    destruct (L2 _ _ Hj) as [Lr Lw]. split; [done|].
    intros t p [p' Hp']%wake_pos_inv. by eapply Lw.
  - destruct (L2 _ _ Hi) as [Lr Lw]. split; [done|]. intros. by eapply Lw.
Qed.

Lemma log_once_step s l s' :
  transition asserts s l s' →
  mutex_ok s → flight_ok s → task_ok s → call_ok s → log_ok s →
  ∀ j1 j2 (x1 x2 : invocation actor val) i,
    log s' !! j1 = Some x1 → log s' !! j2 = Some x2 →
    task_caller (inv_task x1) = Some i → task_caller (inv_task x2) = Some i →
    inv_index x1 ≤ inv_index x2 → j1 ≤ j2.
Proof.
  intros Ht Imx Ifl Itk Icl (L1 & L2 & L3).
  cases Ht; try done.
  assert (∀ n (x : invocation actor val) i, log s !! n = Some x →
            task_caller (inv_task x) = Some i → task_caller k = Some i →
            inv_index x < call_index (Some i) (callers s)) as Hfresh.
  { intros n x i Hn Hx Hki.
    destruct (head_of_queue s k q i Ifl Itk Icl He Hq Hki)
      as (c & h & cl & Hc & Hpc & Hn' & Heq & Hqd & Hd & Hr).
    destruct (L1 x i (list_elem_of_lookup_2 _ _ _ Hn) Hx)
      as (c' & h' & cl' & Hc' & _ & _ & Hret).
    assert (c' = c) as -> by congruence.
    simpl. rewrite Hc. simpl.
    destruct Hret as [Hret|(_ & _ & Hz & _)].
    - by apply lookup_lt_Some in Hret.
    - rewrite Hq in Hz. simpl in Hz. unfold owes in Hz.
      rewrite decide_True in Hz by done. lia. }
  intros j1 j2 x1 x2 i [H1|[-> ->]]%lookup_snoc_Some [H2|[-> ->]]%lookup_snoc_Some
    Hx1 Hx2 Hidx; simpl in *.
  - eauto.
  - apply lookup_lt_Some in H1. lia.
  - pose proof (Hfresh _ _ _ H2 Hx2 Hx1) as Hlt. rewrite Hx1 in Hidx.
    simpl in Hidx. lia.
  - done.
Qed.

(** *** The invariants together *)

Lemma consistent_step w0 progs s l s' :
  transition asserts s l s' → consistent w0 progs s → consistent w0 progs s'.
Proof.
  intros Ht [Imx Ifl Iwk Icl Itk Ilg Ihp Ich Irf Ipr]. split.
  - by eapply mutex_ok_step.
  - by eapply flight_ok_step.
  - by eapply wake_ok_step.
  - by eapply call_ok_step.
  - by eapply task_ok_step.
  - split_and!.
    + by eapply log_runs_step.
    + by eapply log_returns_step.
    + by eapply log_once_step.
  - by eapply heap_ok_step.
  - by eapply chain_ok_step.
  - by eapply refs_ok_step.
  - by eapply progs_ok_step.
Qed.

Lemma boot_lookup w progs i c :
  callers (boot w progs) !! i = Some c →
  pc c = Ready ∧ rets c = [] ∧ progs !! i = Some (program c).
Proof.
  unfold boot. simpl. rewrite list_lookup_fmap.
  destruct (progs !! i) as [p|]; simpl; [|done]. by intros [= <-].
Qed.

Lemma consistent_boot w progs : consistent w progs (boot (val:=val) w progs).
Proof.
  split.
  - split; [|done]. intros i.
    destruct (callers (boot w progs) !! i) as [c|] eqn:Hc; [|done].
    apply boot_lookup in Hc as (Hpc & _). unfold at_test. by rewrite Hpc.
  - intros i. simpl. rewrite list_lookup_fmap. by destruct (progs !! i).
  - intros i c t Hc Hpc. apply boot_lookup in Hc as (Hpc' & _). congruence.
  - intros i c t p Hc Hpc. apply boot_lookup in Hc as (Hpc' & _). congruence.
  - intros k i [Hin|Hin]; simpl in *; [by apply elem_of_nil in Hin|done].
  - split_and!.
    + intros x i Hin. by apply elem_of_nil in Hin.
    + intros i c Hc. apply boot_lookup in Hc as (Hpc & Hr & _).
      rewrite Hpc, Hr. split; [by intros [|?] ?|done].
    + by intros [|?] ? ? ? ?.
  - intros b. unfold held. simpl.
    assert (sum_list_with (caller_holds b)
              ((λ p, CallerSt p Ready false (None : option val) []) <$> progs) = 0) as ->.
    { by induction progs. }
    destruct (w !! b) as [[n a]|]; simpl; [|done]. do 2 f_equal. lia.
  - intros [|? ?] ? ? [=].
  - split.
    + intros i c t p Hc Hpc. apply boot_lookup in Hc as (Hpc' & _). congruence.
    + intros k [Hin|Hin]; simpl in *; [by apply elem_of_nil in Hin|done].
  - unfold progs_ok. simpl. rewrite <-list_fmap_compose. apply list_fmap_id.
Qed.

Lemma run_snoc ls l s :
  run asserts (ls ++ [l]) s = run asserts ls s ≫= step asserts l.
Proof.
  revert s. induction ls as [|l0 ls IH]; intros s; simpl.
  - by destruct (step asserts l s).
  - destruct (step asserts l0 s); simpl; [apply IH|done].
Qed.

(** Every state a schedule reaches from the start is consistent. *)
Lemma consistent_run w progs ls s :
  run asserts ls (boot w progs) = Some s → consistent w progs s.
Proof.
  revert s. induction ls as [|l ls IH] using rev_ind; intros s.
  - intros [= <-]. apply consistent_boot.
  - rewrite run_snoc. destruct (run asserts ls (boot w progs)) as [s0|]; [|done].
    simpl. intros [_ Ht]%step_transition. eapply consistent_step; eauto.
Qed.

(** *** Work left *)

Lemma caller_weight_wake n c : caller_weight n (wake c) ≤ caller_weight n c + 2.
Proof.
  unfold caller_weight. rewrite wake_pc, program_wake, rets_wake.
  destruct (pc c) as [|t []]; simpl; lia.
Qed.

Lemma sum_weight_notify n cs :
  sum_list_with (caller_weight n) (notify_all cs)
  ≤ sum_list_with (caller_weight n) cs + 2 * length cs.
Proof.
  induction cs as [|c cs IH]; simpl; [lia|].
  pose proof (caller_weight_wake n c). unfold notify_all in *. lia.
Qed.

Lemma next_call_left c h cl :
  next_call c = Some (h, cl) →
  length (program c) - length (rets c)
  = S (length (program c) - length (rets c) - 1).
Proof. unfold next_call. intros Hn%lookup_lt_Some. lia.
Qed.

Lemma weight_ready n c :
  pc c = Ready →
  caller_weight n c = (length (program c) - length (rets c)) * call_cost n.
Proof. unfold caller_weight. by intros ->. Qed.

Lemma weight_wait n c t p :
  pc c = InWait t p →
  caller_weight n c
  = (length (program c) - length (rets c) - 1) * call_cost n + pos_weight p.
Proof. unfold caller_weight. by intros ->. Qed.

Lemma weight_returned n c x :
  caller_weight n (CallerSt (program c) Ready (done c) (r c) (rets c ++ [x]))
  = (length (program c) - length (rets c) - 1) * call_cost n.
Proof.
  unfold caller_weight. simpl. rewrite length_app. simpl. f_equal. lia.
Qed.

Lemma weight_mk n (prog : list (torrent_handle * call actor val)) t p d
    (r0 : option val) rs :
  caller_weight n (CallerSt prog (InWait t p) d r0 rs)
  = (length prog - length rs - 1) * call_cost n + pos_weight p.
Proof. done. Qed.

Lemma sum_weight_store n k v cs :
  sum_list_with (caller_weight n) (store_result k v cs)
  = sum_list_with (caller_weight n) cs.
Proof. destruct k; simpl; try done. by apply sum_alter_same. Qed.

Lemma sum_weight_flag n k cs :
  sum_list_with (caller_weight n)
    (match task_caller k with
     | Some i => alter (set_done true) i cs
     | None => cs
     end)
  = sum_list_with (caller_weight n) cs.
Proof. destruct (task_caller k); [|done]. by apply sum_alter_same. Qed.

Lemma work_left_step s l s' :
  transition asserts s l s' → aborted s = false →
  work_left s' + 1 ≤ work_left s + (if is_spurious l then 3 else 0).
Proof.
  intros Ht Hab. pose proof (callers_length_step s l s' Ht) as Hlen.
  unfold work_left. rewrite Hlen, Hab.
  remember (length (callers s)) as n eqn:Hn. clear Hlen.
  assert (call_cost n = queue_cost n + 4) as HB by done.
  assert (queue_cost n = 2 * n + 5) as HQ by done.
  cases Ht; rewrite ?Hab, ?sum_weight_store, ?sum_weight_flag.
  all: try match goal with
       | Hi : callers _ !! _ = Some _ |- context [<[_ := ?c']> (callers _)] =>
           pose proof (sum_upd (caller_weight n) _ _ _ c' Hi) as Hsum
       end.
  all: try (pose proof (next_call_left _ _ _ Hnext) as Hleft).
  all: try (rewrite (weight_ready _ _ Hpc), Hleft, Nat.mul_succ_l in Hsum).
  all: try (rewrite (weight_wait _ _ _ _ Hpc) in Hsum).
  - lia.
  - unfold returned_now in *. rewrite weight_returned in Hsum. lia.
  - unfold returned_now in *. rewrite weight_returned in Hsum.
    rewrite length_app. simpl. lia.
  - unfold set_pc in *. rewrite weight_mk in Hsum. simpl in Hsum.
    rewrite length_app. simpl. lia.
  - unfold set_pc in *. rewrite weight_mk in Hsum. simpl in Hsum.
    destruct Hp as [-> | ->]; simpl in *; lia.
  - unfold set_pc in *. rewrite weight_mk in Hsum. simpl in Hsum. lia.
  - pose proof (weight_returned n (set_done true c) (Waited (r c))) as Hw.
    simpl in Hw. rewrite Hw in Hsum. simpl in Hsum. lia.
  - rewrite He, Hq. simpl. lia.
  - rewrite He. simpl. lia.
  - rewrite He. simpl. lia.
  - rewrite He. simpl. lia.
  - rewrite He. simpl. pose proof (sum_weight_notify n (callers s)). rewrite <-Hn in *. lia.
  - rewrite He. simpl. lia.
  - unfold set_pc in *. rewrite weight_mk in Hsum. simpl in Hsum. lia.
Qed.

Lemma spurious_count_cons l ls :
  spurious_count (l :: ls) = (if is_spurious l then 1 else 0) + spurious_count ls.
Proof.
  unfold spurious_count. rewrite filter_cons.
  destruct (is_spurious l); by case_decide.
Qed.

(** Every schedule is paid for by the work left at its start, three
    transitions more for each wakeup without a notification. *)
Lemma work_left_run ls s s' :
  run asserts ls s = Some s' →
  length ls + work_left s' ≤ work_left s + 3 * spurious_count ls.
Proof.
  revert s. induction ls as [|l ls IH]; intros s; simpl.
  - intros [= <-]. lia.
  - destruct (step asserts l s) as [s1|] eqn:Hstep; [|done]. simpl.
    intros Hrun. apply IH in Hrun.
    apply step_transition in Hstep as [Hab Ht].
    pose proof (work_left_step _ _ _ Ht Hab). rewrite spurious_count_cons.
    destruct (is_spurious l); lia.
Qed.

(** *** Live handles *)

Lemma program_handle_live w progs s i c h cl :
  consistent w progs s → all_live w progs →
  callers s !! i = Some c → next_call c = Some (h, cl) →
  expired (m_torrent h) (torrents (ses s)) = false.
Proof.
  intros Hcons Hlive Hc Hn.
  assert (expired (m_torrent h) w = false) as Hw.
  { unfold all_live in Hlive. rewrite Forall_forall in Hlive.
    assert (program c ∈ progs) as Hp.
    { rewrite <-(c_progs _ _ _ Hcons). apply list_elem_of_fmap. exists c.
      split; [done|]. by eapply list_elem_of_lookup_2. }
    specialize (Hlive _ Hp). rewrite Forall_forall in Hlive.
    apply (Hlive (h, cl)). by eapply list_elem_of_lookup_2. }
  apply expired_lookup in Hw as (blk & Hblk & Hpos).
  apply expired_lookup. pose proof (c_heap _ _ _ Hcons (w_ctrl (m_torrent h))) as Hh.
  rewrite Hblk in Hh. simpl in Hh. eexists. split; [done|]. simpl. lia.
Qed.

Lemma never_aborted w progs ls s :
  all_live w progs → run asserts ls (boot w progs) = Some s → aborted s = false.
Proof.
  intros Hlive. revert s. induction ls as [|l ls IH] using rev_ind; intros s.
  - by intros [= <-].
  - rewrite run_snoc.
    destruct (run asserts ls (boot w progs)) as [s0|] eqn:Hrun0; [|done].
    simpl. intros [Hab Ht]%step_transition.
    pose proof (consistent_run _ _ _ _ Hrun0) as Hcons.
    cases Ht; try done.
    pose proof (program_handle_live _ _ _ _ _ _ _ Hcons Hlive Hi Hnext). congruence.
Qed.

(** *** No deadlock *)

Lemma test_can_move s i c t :
  aborted s = false → callers s !! i = Some c → pc c = InWait t AtTest →
  is_Some (step asserts (run_caller i) s).
Proof.
  intros Hab Hc Hpc. unfold step, caller_step. rewrite Hab, Hc. simpl.
  rewrite Hpc. simpl. by destruct (done c).
Qed.

Lemma holder_can_move w progs s i :
  consistent w progs s → aborted s = false → mut (ses s) = Some (Caller i) →
  is_Some (step asserts (run_caller i) s).
Proof.
  intros Hcons Hab Hm. destruct (c_mutex _ _ _ Hcons) as [Hc _].
  specialize (Hc i). destruct (callers s !! i) as [c|] eqn:Hi; [|done].
  apply Hc in Hm. unfold at_test in Hm.
  destruct (pc c) as [|t []] eqn:Hpc; try done. by eapply test_can_move.
Qed.

(** While a calling thread has not returned from all its calls, some
    thread can move, and not by a wakeup without a notification. *)
Lemma progress w progs s i c :
  consistent w progs s → aborted s = false →
  callers s !! i = Some c → finished c = false →
  ∃ l, is_spurious l = false ∧ is_Some (step asserts l s).
Proof.
  intros Hcons Hab Hi Hfin.
  assert (∀ j, mut (ses s) = Some (Caller j) →
            ∃ l, is_spurious l = false ∧ is_Some (step asserts l s)) as Hholder.
  { intros j Hm. exists (run_caller j). split; [done|]. by eapply holder_can_move. }
  destruct (c_mutex _ _ _ Hcons) as [_ Hex].
  destruct (exec s) as [|k|k|k|k] eqn:He.
  - destruct (io_service (ses s)) as [|k q] eqn:Hq.
    + (* nothing queued, the executor idle: the caller itself can move *)
      destruct (pc c) as [|t p] eqn:Hpc.
      * exists (run_caller i). split; [done|].
        unfold step, caller_step. rewrite Hab, Hi. simpl. rewrite Hpc.
        unfold finished in Hfin. rewrite Hpc in Hfin.
        apply bool_decide_eq_false in Hfin.
        destruct (program c !! length (rets c)) as [[h cl]|] eqn:Hn; [done|].
        apply lookup_ge_None in Hn. lia.
      * destruct (mut (ses s)) as [[j|]|] eqn:Hm.
        -- by eapply Hholder.
        -- destruct Hex as [_ Hex]. by specialize (Hex eq_refl).
        -- destruct p.
           ++ exists (run_caller i). split; [done|].
              unfold step, caller_step. rewrite Hab, Hi. simpl. rewrite Hpc.
              simpl. by rewrite Hm.
           ++ exists (run_caller i). split; [done|]. by eapply test_can_move.
           ++ pose proof (c_flight _ _ _ Hcons i) as Hf. simpl in Hf.
              rewrite Hi, Hpc, Hq, He in Hf. simpl in Hf.
              destruct (done c) eqn:Hd; [|lia].
              destruct (c_wake _ _ _ Hcons _ _ _ Hi Hpc Hd) as [k Hk]. congruence.
           ++ exists (run_caller i). split; [done|].
              unfold step, caller_step. rewrite Hab, Hi. simpl. rewrite Hpc.
              simpl. by rewrite Hm.
    + exists run_executor. split; [done|].
      unfold step, exec_step. rewrite Hab, He, Hq.
      destruct (c_refs _ _ _ Hcons) as [_ Hrk].
      destruct (Hrk k) as [blk Hblk]; [left; rewrite Hq; by left|].
      rewrite (c_heap _ _ _ Hcons), Hblk. simpl.
      by destruct (run_method k _).
  - destruct (task_caller k) as [j|] eqn:Hk.
    + destruct (mut (ses s)) as [[j'|]|] eqn:Hm.
      * by eapply Hholder.
      * destruct Hex as [_ Hex]. by specialize (Hex eq_refl).
      * exists run_executor. split; [done|].
        unfold step, exec_step. by rewrite Hab, He, Hk, Hm.
    + exists run_executor. split; [done|].
      unfold step, exec_step. by rewrite Hab, He, Hk.
  - exists run_executor. split; [done|]. unfold step, exec_step. by rewrite Hab, He.
  - exists run_executor. split; [done|]. unfold step, exec_step. by rewrite Hab, He.
  - exists run_executor. split; [done|]. unfold step, exec_step. by rewrite Hab, He.
Qed.

(** *** The heap under the transitions *)

Lemma held_caller s i c t p :
  callers s !! i = Some c → pc c = InWait t p → 1 ≤ held (s_ctrl t) s.
Proof.
  intros Hi Hpc. unfold held.
  pose proof (sum_list_with_in c (caller_holds (s_ctrl t)) (callers s)) as Hle.
  unfold caller_holds at 1 in Hle. rewrite Hpc, holds_self in Hle.
  assert (c ∈ callers s) by (by eapply list_elem_of_lookup_2).
  specialize (Hle ltac:(done)). lia.
Qed.

Lemma held_task s k : in_system k s → 1 ≤ held (s_ctrl (task_ref k)) s.
Proof.
  intros [Hin|Hex]; unfold held.
  - pose proof (sum_list_with_in k (task_holds (s_ctrl (task_ref k)))
                  (io_service (ses s)) Hin) as Hle.
    unfold task_holds at 1 in Hle. rewrite holds_self in Hle. lia.
  - rewrite Hex. simpl. unfold task_holds. rewrite holds_self. lia.
Qed.

(** a block that is held is allocated and its strong count is positive *)
Lemma held_live w0 s b :
  heap_ok w0 s → is_Some (w0 !! b) → 1 ≤ held b s →
  ∃ blk, torrents (ses s) !! b = Some blk ∧ 0 < use_count blk.
Proof.
  intros Hh [blk0 Hb] Hheld. rewrite (Hh b), Hb. simpl.
  eexists. split; [done|]. simpl. lia.
Qed.

Lemma caller_ref_live w0 progs s i c t p :
  consistent w0 progs s → callers s !! i = Some c → pc c = InWait t p →
  ∃ blk, torrents (ses s) !! s_ctrl t = Some blk ∧ 0 < use_count blk.
Proof.
  intros Hcons Hi Hpc. apply (held_live w0); [apply (c_heap _ _ _ Hcons)| |].
  - destruct (c_refs _ _ _ Hcons) as [Hrc _]. by eapply Hrc.
  - by eapply held_caller.
Qed.

Lemma task_ref_live w0 progs s k :
  consistent w0 progs s → in_system k s →
  ∃ blk, torrents (ses s) !! s_ctrl (task_ref k) = Some blk ∧ 0 < use_count blk.
Proof.
  intros Hcons Hin. apply (held_live w0); [apply (c_heap _ _ _ Hcons)| |].
  - destruct (c_refs _ _ _ Hcons) as [_ Hrk]. by apply Hrk.
  - by apply held_task.
Qed.

(** Every transition acts on the heap through the operations of the
    smart pointers, on live blocks only. *)
Lemma transition_heap_steps w0 progs s l s' :
  transition asserts s l s' → consistent w0 progs s →
  rtc heap_step (torrents (ses s)) (torrents (ses s')).
Proof.
  intros Ht Hcons. cases Ht; try done.
  - apply rtc_once. apply expired_lookup in Hexp as (blk & Hblk & Hpos).
    by eapply hs_copy.
  - apply expired_lookup in Hexp as (blk & Hblk & Hpos).
    eapply rtc_l; [by eapply hs_copy|]. apply rtc_once.
    eapply hs_copy; [by rewrite lookup_acquire, decide_True, Hblk|]. simpl. lia.
  - destruct (caller_ref_live _ _ _ _ _ _ _ Hcons Hi Hpc) as (blk & Hblk & Hpos).
    apply rtc_once. by eapply hs_drop.
  - destruct (task_ref_live _ _ _ k Hcons) as (blk & Hblk & Hpos).
    { left. rewrite Hq. by left. }
    apply rtc_once. apply hs_method; [done|]. congruence.
  - destruct (task_ref_live _ _ _ k Hcons) as (blk & Hblk & Hpos).
    { right. by rewrite He. }
    apply rtc_once. by eapply hs_drop.
  - destruct (task_ref_live _ _ _ k Hcons) as (blk & Hblk & Hpos).
    { right. by rewrite He. }
    apply rtc_once. by eapply hs_drop.
Qed.

Lemma run_heap_steps w progs ls s :
  run asserts ls (boot w progs) = Some s → rtc heap_step w (torrents (ses s)).
Proof.
  revert s. induction ls as [|l ls IH] using rev_ind; intros s.
  - by intros [= <-].
  - rewrite run_snoc.
    destruct (run asserts ls (boot w progs)) as [s0|] eqn:Hrun0; [|done].
    simpl. intros [Hab Ht]%step_transition.
    etrans; [by apply IH|]. eapply transition_heap_steps; [done|].
    by eapply consistent_run.
Qed.

(** a handle is valid in a reachable state exactly when it was at the
    start *)
Lemma expired_run w progs ls s p :
  run asserts ls (boot w progs) = Some s →
  expired p (torrents (ses s)) = expired p w.
Proof.
  intros Hrun0. pose proof (consistent_run _ _ _ _ Hrun0) as Hcons.
  destruct (expired p w) eqn:Hexp.
  - destruct (w !! w_ctrl p) as [blk|] eqn:Hblk.
    + eapply heap_steps_expired; [by eapply run_heap_steps| |done].
      unfold weak_wf. by rewrite Hblk.
    + unfold expired, weak_use_count.
      by rewrite (c_heap _ _ _ Hcons (w_ctrl p)), Hblk.
  - apply expired_lookup in Hexp as (blk & Hblk & Hpos).
    apply expired_lookup. rewrite (c_heap _ _ _ Hcons (w_ctrl p)), Hblk. simpl.
    eexists. split; [done|]. simpl. lia.
Qed.

(** *** Calls that came back without waiting, whatever the handles *)

(** A call that returned without waiting is a fire-and-forget call, or a
    call on a handle whose torrent was gone at the start. *)
Lemma immediate_is_async_or_dead w progs ls s :
  run asserts ls (boot w progs) = Some s →
  ∀ i c n v, callers s !! i = Some c → rets c !! n = Some (Immediate v) →
    ∃ h cl, program c !! n = Some (h, cl)
      ∧ (is_async cl = true ∨ expired (m_torrent h) w = true).
Proof.
  revert s. induction ls as [|l ls IH] using rev_ind; intros s.
  - intros [= <-] i c n v (_ & Hr & _)%boot_lookup. by rewrite Hr.
  - rewrite run_snoc.
    destruct (run asserts ls (boot w progs)) as [s0|] eqn:Hrun0; [|done].
    simpl. intros [Hab Ht]%step_transition.
    pose proof (λ p, expired_run _ _ _ _ p Hrun0) as Hsame.
    specialize (IH s0 eq_refl).
    cases Ht; intros j cj n v0 Hj Hn.
    all: try (read_caller Hj; autorewrite with frame in * ); eauto.
    + apply lookup_snoc_Some in Hn as [Hn|[-> _]]; eauto.
      exists h, cl. split; [done|]. right. by rewrite <-Hsame.
    + apply lookup_snoc_Some in Hn as [Hn|[-> _]]; eauto.
    + apply lookup_snoc_Some in Hn as [Hn|[-> [=]]]; eauto.
Qed.


(** *** Calls that came back without waiting *)

(** When every handle is live, the only calls that return without
    waiting are the fire-and-forget ones. *)
Lemma immediate_is_async w progs ls s :
  all_live w progs → run asserts ls (boot w progs) = Some s →
  ∀ i c n v, callers s !! i = Some c → rets c !! n = Some (Immediate v) →
    ∃ h f, program c !! n = Some (h, call_async f).
Proof.
  intros Hlive. revert s. induction ls as [|l ls IH] using rev_ind; intros s.
  - intros [= <-] i c n v (_ & Hr & _)%boot_lookup. by rewrite Hr.
  - rewrite run_snoc.
    destruct (run asserts ls (boot w progs)) as [s0|] eqn:Hrun0; [|done].
    simpl. intros [Hab Ht]%step_transition.
    pose proof (consistent_run _ _ _ _ Hrun0) as Hcons.
    specialize (IH s0 eq_refl).
    cases Ht; intros j cj n v0 Hj Hn.
    all: try (read_caller Hj; autorewrite with frame in * ); eauto.
    + pose proof (program_handle_live _ _ _ _ _ _ _ Hcons Hlive Hi Hnext).
      congruence.
    + apply lookup_snoc_Some in Hn as [Hn|[-> _]]; eauto.
    + apply lookup_snoc_Some in Hn as [Hn|[-> [=]]]; eauto.
Qed.

(** *** A call that came back out of [torrent_wait] *)

Lemma obj_after_app (la lb : list (invocation actor val)) (b : Z) (a : actor) :
  obj_after (la ++ lb) b a = obj_after lb b (obj_after la b a).
Proof. unfold obj_after. by rewrite foldl_app. Qed.

Lemma obj_after_from (l1 l2 : list (invocation actor val)) x (a : actor) :
  obj_after (l1 ++ x :: l2) (s_ctrl (task_ref (inv_task x))) a
  = obj_after l2 (s_ctrl (task_ref (inv_task x))) (inv_post x).
Proof.
  rewrite (obj_after_app l1 (x :: l2)). unfold obj_after at 1. simpl.
  unfold invoked_on at 2. by rewrite bool_decide_true.
Qed.

Lemma lookup_middle_inv {A} (l1 l2 : list A) (x y : A) j :
  (l1 ++ x :: l2) !! j = Some y → j ≠ length l1 →
  (j < length l1 ∧ y ∈ l1) ∨ (length l1 < j ∧ y ∈ l2).
Proof.
  intros Hj Hne. apply lookup_app_Some in Hj as [Hj|[Hle Hj]].
  - left. split; [by eapply lookup_lt_Some|by eapply list_elem_of_lookup_2].
  - right. split; [lia|].
    destruct (j - length l1) as [|m] eqn:Hm; [lia|]. simpl in Hj.
    by eapply list_elem_of_lookup_2.
Qed.

(** The run of a call that has returned from [torrent_wait]: it is in the
    record, once, for the handler the call submitted; its value is the one
    returned; the runs of the thread's later calls come after it; every
    later run on the same torrent started from what this run left, changed
    only by the runs in between; and so does the torrent's present state. *)
Lemma waited_call_ran w progs s i c n h cl v :
  consistent w progs s → callers s !! i = Some c →
  program c !! n = Some (h, cl) → rets c !! n = Some (Waited v) →
  ∃ l1 x l2,
    log s = l1 ++ x :: l2
    ∧ inv_task x = task_of_call (ptr_of h) cl i ∧ inv_index x = n
    ∧ inv_value x = v
    ∧ run_method (inv_task x) (inv_pre x) = (inv_post x, inv_value x)
    ∧ (∀ y, y ∈ l1 ++ l2 → task_caller (inv_task y) = Some i → inv_index y ≠ n)
    ∧ (∀ y, y ∈ log s → task_caller (inv_task y) = Some i → n < inv_index y →
         y ∈ l2)
    ∧ (∀ l2a y l2b, l2 = l2a ++ y :: l2b →
         s_ctrl (task_ref (inv_task y)) = w_ctrl (m_torrent h) →
         inv_pre y = obj_after l2a (w_ctrl (m_torrent h)) (inv_post x))
    ∧ (∃ blk, torrents (ses s) !! w_ctrl (m_torrent h) = Some blk
         ∧ object blk = obj_after l2 (w_ctrl (m_torrent h)) (inv_post x)).
Proof.
  intros Hcons Hi Hprog Hret.
  destruct (c_log _ _ _ Hcons) as (L1 & L2 & L3).
  destruct (L2 _ _ Hi) as [Lr _].
  destruct (Lr _ _ Hret) as (x & Hx & Hxi & Hxn & Hxv).
  destruct (L1 x i Hx Hxi) as (c' & h' & cl' & Hc' & Hprog' & Htask & _).
  assert (c' = c) as -> by congruence.
  assert (h' = h ∧ cl' = cl) as [-> ->] by (rewrite Hxn in Hprog'; split; congruence).
  apply list_elem_of_split in Hx as (l1 & l2 & Hlog).
  assert (s_ctrl (task_ref (inv_task x)) = w_ctrl (m_torrent h)) as Htarget.
  { rewrite Htask. by destruct cl. }
  assert (log s !! length l1 = Some x) as Hpos.
  { rewrite Hlog. by apply list_lookup_middle. }
  destruct (c_chain _ _ _ Hcons _ _ _ Hlog) as (blk0 & Hblk0 & Hpre & Hrun).
  exists l1, x, l2. split_and!; try done.
  - intros y Hy Hyi Hyn.
    assert (∃ j, log s !! j = Some y ∧ j ≠ length l1) as (j & Hj & Hne).
    { apply elem_of_app in Hy as [Hy|Hy].
      - apply list_elem_of_lookup_1 in Hy as [j Hj]. exists j. split.
        + rewrite Hlog. by apply lookup_app_l_Some.
        + apply lookup_lt_Some in Hj. lia.
      - apply list_elem_of_lookup_1 in Hy as [j Hj]. exists (length l1 + S j). split.
        + rewrite Hlog, lookup_app_r by lia.
          by replace (length l1 + S j - length l1) with (S j) by lia.
        + lia. }
    pose proof (L3 _ _ _ _ _ Hj Hpos Hyi Hxi ltac:(lia)).
    pose proof (L3 _ _ _ _ _ Hpos Hj Hxi Hyi ltac:(lia)). lia.
  - intros y Hy Hyi Hlt. apply list_elem_of_lookup_1 in Hy as [j Hj].
    pose proof (L3 _ _ _ _ _ Hpos Hj Hxi Hyi ltac:(lia)) as Hle.
    assert (j ≠ length l1) as Hne.
    { intros ->. rewrite Hpos in Hj. injection Hj as <-. lia. }
    rewrite Hlog in Hj. apply lookup_middle_inv in Hj as [[? _]|[_ ?]]; [lia|done|done].
  - intros l2a y l2b -> Hy.
    assert (log s = (l1 ++ x :: l2a) ++ y :: l2b) as Hlog'.
    { rewrite Hlog. by rewrite <-app_assoc. }
    destruct (c_chain _ _ _ Hcons _ _ _ Hlog') as (blk1 & Hblk1 & Hpre1 & _).
    rewrite Hpre1, Hy, <-Htarget. apply obj_after_from.
  - pose proof (c_heap _ _ _ Hcons (w_ctrl (m_torrent h))) as Hh.
    rewrite <-Htarget in Hh. rewrite Hblk0 in Hh. simpl in Hh.
    rewrite <-Htarget. eexists. split; [done|]. simpl.
    rewrite Hlog. apply obj_after_from.
Qed.

(** While a thread waits with its flag set, the run of its call is in
    the record and [r] holds the value the run produced. *)
Lemma flag_after_run w progs s i c t p :
  consistent w progs s → callers s !! i = Some c → pc c = InWait t p →
  done c = true → recorded i (length (rets c)) (r c) (log s).
Proof.
  intros Hcons Hi Hpc Hd. destruct (c_log _ _ _ Hcons) as (_ & L2 & _).
  destruct (L2 _ _ Hi) as [_ Lw]. eapply Lw; [done|].
  pose proof (c_flight _ _ _ Hcons i) as Hf. simpl in Hf.
  rewrite Hi, Hpc, Hd in Hf. lia.
Qed.

(** The flag is set and the waiters are notified under the mutex. *)
Lemma flag_under_mutex w progs s :
  consistent w progs s → exec_locked (exec s) = true →
  mut (ses s) = Some Executor.
Proof. intros Hcons. apply (c_mutex _ _ _ Hcons). Qed.

(** A thread's list of results grows only when it returns from a call:
    at once, from [Ready], or out of [torrent_wait], holding the mutex
    with its flag set. *)
Lemma return_needs_flag s l s' j cj cj' :
  transition asserts s l s' → mutex_ok s →
  callers s !! j = Some cj → callers s' !! j = Some cj' →
  rets cj' ≠ rets cj →
  (pc cj = Ready ∧ ∃ v, rets cj' = rets cj ++ [Immediate v])
  ∨ (done cj = true ∧ mut (ses s) = Some (Caller j)
     ∧ rets cj' = rets cj ++ [Waited (r cj)]).
Proof.
  intros Ht [Hmx _] Hc Hc' Hne. specialize (Hmx j). rewrite Hc in Hmx.
  cases Ht.
  all: try (read_caller Hc'; autorewrite with frame in * ); try congruence.
  - left. eauto.
  - left. eauto.
  - right. split_and!; try done. apply Hmx. unfold at_test. by rewrite Hpc.
Qed.

(** C3. A blocking call without result on a live torrent returns only
    after its method has run to the end on the executor, whatever else the
    threads' programs call, on torrents that are live or gone, and whether
    assertions are compiled in or not.  In every state a
    schedule reaches: the executor sets a flag and notifies only while it
    holds the mutex; a waiting thread whose flag is set has the run of its
    call in the record, so the method ran before the flag was set; and a
    thread comes out of [torrent_wait] only in a transition it makes
    holding the mutex, having read its flag as set.  For a [sync_call] on a
    handle whose torrent was live at the start that has returned: the call
    waited; its method was run once on the state the
    earlier runs left, giving [f] of it; the runs of the thread's later
    calls come after it in the record; each later run on that torrent, and
    the torrent as it is now, start from what this run left, changed only
    by the runs in between. *)
Theorem sync_call_returns_after_the_method w progs ls s :
  run asserts ls (boot w progs) = Some s →
  (exec_locked (exec s) = true → mut (ses s) = Some Executor)
  ∧ (∀ j cj t p, callers s !! j = Some cj → pc cj = InWait t p →
       done cj = true → recorded j (length (rets cj)) (r cj) (log s))
  ∧ (∀ l s' j cj cj', step asserts l s = Some s' →
       callers s !! j = Some cj → callers s' !! j = Some cj' →
       ∀ v, rets cj' = rets cj ++ [Waited v] →
       done cj = true ∧ mut (ses s) = Some (Caller j))
  ∧ (∀ i c n h f y, callers s !! i = Some c →
       program c !! n = Some (h, call_sync f) →
       expired (m_torrent h) w = false →
       rets c !! n = Some y →
       y = Waited None
       ∧ ∃ l1 x l2,
           log s = l1 ++ x :: l2
           ∧ inv_task x = sync_task (ptr_of h) f i ∧ inv_index x = n
           ∧ inv_post x = f (inv_pre x)
           ∧ (∀ x', x' ∈ log s → task_caller (inv_task x') = Some i →
                n < inv_index x' → x' ∈ l2)
           ∧ (∀ l2a x' l2b, l2 = l2a ++ x' :: l2b →
                s_ctrl (task_ref (inv_task x')) = w_ctrl (m_torrent h) →
                inv_pre x' = obj_after l2a (w_ctrl (m_torrent h)) (inv_post x))
           ∧ (∃ blk, torrents (ses s) !! w_ctrl (m_torrent h) = Some blk
                ∧ object blk = obj_after l2 (w_ctrl (m_torrent h)) (inv_post x))).
Proof.
  intros Hrun. pose proof (consistent_run _ _ _ _ Hrun) as Hcons.
  split_and!.
  - by eapply flag_under_mutex.
  - intros. by eapply flag_after_run.
  - intros l s' j cj cj' [_ Ht]%step_transition Hj Hj' v Hv.
    destruct (return_needs_flag _ _ _ _ _ _ Ht (c_mutex _ _ _ Hcons) Hj Hj')
      as [(_ & v' & Hv')|(? & ? & _)]; [| |done].
    + rewrite Hv. intros Heq. symmetry in Heq.
      rewrite <-(app_nil_r (rets cj)) in Heq at 1. by apply app_inv_head in Heq.
    + rewrite Hv in Hv'. by apply app_inv_head in Hv'.
  - intros i c n h f y Hi Hprog Hlive Hret.
    assert (∃ v, y = Waited v) as [v ->].
    { destruct y as [v|v]; [|eauto].
      destruct (immediate_is_async_or_dead _ _ _ _ Hrun _ _ _ _ Hi Hret)
        as (h' & cl' & Hp' & [Ha|Hd]); rewrite Hprog in Hp'; simplify_eq/=;
        congruence. }
    destruct (waited_call_ran _ _ _ _ _ _ _ _ _ Hcons Hi Hprog Hret)
      as (l1 & x & l2 & Hlog & Htask & Hidx & Hval & Hmeth & _ & Hlater & Hchain & Hnow).
    simpl in Htask. rewrite Htask in Hmeth. simpl in Hmeth.
    injection Hmeth as Hpost Hnone.
    split; [congruence|]. exists l1, x, l2. split_and!; done.
Qed.

(** C4. A blocking call with result on a live torrent returns the value
    its method returned when the executor ran it, whatever else the
    threads' programs call, on torrents that are live or gone, and whether
    assertions are compiled in or not.  In every state a
    schedule reaches, a waiting thread whose flag is set has the run of its
    call in the record and the value of that run in [r], so the handler
    stored the value before it set the flag.  For a [sync_call_ret] on a
    handle whose torrent was live at the start that has returned: the call
    waited; its method was run exactly once, on the
    state the earlier runs left; the torrent went to the state the method
    gave and the caller got the value the method gave. *)
Theorem sync_call_ret_returns_the_method_value w progs ls s :
  run asserts ls (boot w progs) = Some s →
  (∀ j cj t p, callers s !! j = Some cj → pc cj = InWait t p →
     done cj = true → recorded j (length (rets cj)) (r cj) (log s))
  ∧ (∀ i c n h def f y, callers s !! i = Some c →
       program c !! n = Some (h, call_sync_ret def f) →
       expired (m_torrent h) w = false →
       rets c !! n = Some y →
       ∃ l1 x l2 blk,
         log s = l1 ++ x :: l2
         ∧ inv_task x = sync_ret_task (ptr_of h) f i ∧ inv_index x = n
         ∧ w !! w_ctrl (m_torrent h) = Some blk
         ∧ inv_pre x = obj_after l1 (w_ctrl (m_torrent h)) (object blk)
         ∧ inv_post x = (f (inv_pre x)).1
         ∧ y = Waited (Some (f (inv_pre x)).2)
         ∧ (∀ x', x' ∈ l1 ++ l2 → task_caller (inv_task x') = Some i →
              inv_index x' ≠ n)).
Proof.
  intros Hrun. pose proof (consistent_run _ _ _ _ Hrun) as Hcons.
  split.
  - intros. by eapply flag_after_run.
  - intros i c n h def f y Hi Hprog Hlive Hret.
    assert (∃ v, y = Waited v) as [v ->].
    { destruct y as [v|v]; [|eauto].
      destruct (immediate_is_async_or_dead _ _ _ _ Hrun _ _ _ _ Hi Hret)
        as (h' & cl' & Hp' & [Ha|Hd]); rewrite Hprog in Hp'; simplify_eq/=;
        congruence. }
    destruct (waited_call_ran _ _ _ _ _ _ _ _ _ Hcons Hi Hprog Hret)
      as (l1 & x & l2 & Hlog & Htask & Hidx & Hval & Hmeth & Honce & _).
    destruct (c_chain _ _ _ Hcons _ _ _ Hlog) as (blk & Hblk & Hpre & _).
    simpl in Htask. rewrite Htask in Hmeth, Hblk, Hpre. simpl in *.
    destruct (f (inv_pre x)) as [a' v'] eqn:Hf. injection Hmeth as Hpost Hv.
    exists l1, x, l2, blk. rewrite Hf. simpl. split_and!; try done. congruence.
Qed.

End system_facts.
(** ** The call primitives on a live torrent *)

Section live_actor.
Context {actor val : Type}.
Implicit Types (ses : session_impl actor val) (h : torrent_handle).
Implicit Types (w : gmap Z (ctrl_block actor)).

Lemma lookup_acquire_count (x b : Z) w :
  use_count <$> acquire x w !! b
  = (λ blk, use_count blk + (if decide (x = b) then 1 else 0)) <$> w !! b.
Proof.
  unfold acquire. rewrite lookup_alter.
  destruct (decide (x = b)); subst; destruct (w !! b); simpl; try done;
    f_equal; lia.
Qed.

Lemma lookup_acquire_object (x b : Z) w :
  object <$> acquire x w !! b = object <$> w !! b.
Proof.
  unfold acquire. rewrite lookup_alter. case_decide; [subst|done].
  by destruct (w !! b).
Qed.

(** dropping [n] strong references to block [x] *)
Lemma lookup_release_iter n (x b : Z) w :
  Nat.iter n (release x) w !! b
  = if decide (x = b)
    then (λ blk, CtrlBlock (use_count blk - n) (object blk)) <$> w !! b
    else w !! b.
Proof.
  induction n as [|n IH]; simpl.
  - case_decide; [|done]. destruct (w !! b) as [[]|]; simpl; [|done].
    do 2 f_equal. lia.
  - rewrite lookup_release, IH. case_decide; [|done].
    destruct (w !! b) as [[]|]; simpl; [|done].
    unfold decr_use. simpl. do 2 f_equal. lia.
Qed.

Lemma async_call_live asserts h (f : actor → actor) ses :
  expired (m_torrent h) (torrents ses) = false →
  async_call asserts h f ses
  = Returned None
      (Session (acquire (w_ctrl (m_torrent h)) (torrents ses))
               (io_service ses ++ [async_task (ptr_of h) f]) (mut ses)).
Proof.
  intros Hlive. unfold async_call, TORRENT_ASSERT_PRECOND.
  rewrite (lock_live _ _ Hlive). simpl. rewrite orb_true_r. simpl.
  unfold dispatch, set_torrents. simpl. by rewrite release_acquire.
Qed.

(** reading the heap at [b] after the operations on the block of [h] *)
Ltac heap_at h b ses :=
  rewrite ?lookup_release, ?lookup_alter, ?lookup_acquire;
  destruct (decide (w_ctrl (m_torrent h) = b)) as [<-|?];
  rewrite ?decide_True, ?decide_False by done;
  rewrite ?lookup_insert_eq, ?lookup_insert_ne by done;
  rewrite ?lookup_acquire, ?decide_True, ?decide_False by done;
  repeat match goal with
  | |- context [torrents ses !! ?x] =>
      let E := fresh in destruct (torrents ses !! x) as [[]|] eqn:E
  end;
  simpl in *; simplify_eq/=; try done; try (f_equal; lia).

(** X1. [async_call] on a live torrent, by calling thread.  Called on a
    thread other than the one that runs the io_service it returns without
    waiting and without running the method: one handler, holding the
    method and a strong pointer to the torrent, is appended at the back of
    the queue; no torrent's state is touched; the only trace in the heap is
    the strong reference the handler holds, and it keeps the torrent alive:
    if every owner the torrent had before the call drops its reference,
    the handle is still valid.  Called on the thread that runs the
    io_service the handler runs inside the call: on return the method has
    been applied to the torrent, nothing is queued and every strong count
    is what it was.  On either thread the mutex is not taken. *)
Theorem async_call_on_live_torrent asserts th h (f : actor → actor) ses :
  expired (m_torrent h) (torrents ses) = false →
  ∃ ses',
    async_call_on asserts th h f ses = Returned None ses'
    ∧ mut ses' = mut ses
    ∧ match th with
      | Caller _ =>
          async_call asserts h f ses = Returned None ses'
          ∧ io_service ses' = io_service ses ++ [async_task (ptr_of h) f]
          ∧ (∀ b, object <$> torrents ses' !! b = object <$> torrents ses !! b)
          ∧ (∀ b, use_count <$> torrents ses' !! b
                  = (λ blk, use_count blk
                            + (if decide (w_ctrl (m_torrent h) = b) then 1 else 0))
                    <$> torrents ses !! b)
          ∧ is_valid h (Nat.iter (weak_use_count (m_torrent h) (torrents ses))
                                 (release (w_ctrl (m_torrent h))) (torrents ses'))
            = true
      | Executor =>
          io_service ses' = io_service ses
          ∧ (∀ b, use_count <$> torrents ses' !! b = use_count <$> torrents ses !! b)
          ∧ (∀ b, object <$> torrents ses' !! b
                  = (λ blk, if decide (w_ctrl (m_torrent h) = b)
                            then f (object blk) else object blk)
                    <$> torrents ses !! b)
      end.
Proof.
  intros Hlive. destruct th as [i|].
  - eexists. split; [by apply async_call_live|]. simpl.
    split_and!; try done.
    + by apply async_call_live.
    + intros b. apply lookup_acquire_object.
    + intros b. apply lookup_acquire_count.
    + unfold is_valid, expired, weak_use_count.
      rewrite lookup_release_iter, decide_True by done.
      rewrite lookup_acquire, decide_True by done.
      apply expired_lookup in Hlive as (blk & -> & Hpos). simpl.
      apply negb_true_iff, Nat.eqb_neq. lia.
  - unfold async_call_on, TORRENT_ASSERT_PRECOND.
    rewrite (lock_live _ _ Hlive). simpl. rewrite orb_true_r. simpl.
    eexists. split; [done|]. simpl. split_and!; try done.
    + intros b. heap_at h b ses.
    + intros b. heap_at h b ses.
Qed.

Lemma sync_call_live asserts h (f : actor → actor) me ses :
  expired (m_torrent h) (torrents ses) = false →
  sync_call asserts h f me ses
  = Waiting (ptr_of h) false None
      (Session (acquire (w_ctrl (m_torrent h))
                  (acquire (w_ctrl (m_torrent h)) (torrents ses)))
               (io_service ses ++ [sync_task (ptr_of h) f me]) (mut ses)).
Proof.
  intros Hlive. unfold sync_call, TORRENT_ASSERT_PRECOND.
  rewrite (lock_live _ _ Hlive). simpl. by rewrite orb_true_r.
Qed.

Lemma sync_call_ret_live asserts h (def : val) (f : actor → actor * val) me ses :
  expired (m_torrent h) (torrents ses) = false →
  sync_call_ret asserts h def f me ses
  = Waiting (ptr_of h) false (Some def)
      (Session (acquire (w_ctrl (m_torrent h))
                  (acquire (w_ctrl (m_torrent h)) (torrents ses)))
               (io_service ses ++ [sync_ret_task (ptr_of h) f me]) (mut ses)).
Proof.
  intros Hlive. unfold sync_call_ret, TORRENT_ASSERT_PRECOND.
  rewrite (lock_live _ _ Hlive). simpl. by rewrite orb_true_r.
Qed.

(** X2. [sync_call] and [sync_call_ret] on a live torrent, by calling
    thread.  Called on a thread other than the one that runs the
    io_service they reach [torrent_wait] with the flag [done] false and [r]
    holding the default, having appended exactly one handler at the back
    of the queue; the handler names the calling thread, whose [done] and
    [r] it captured; the method has not run, no torrent's state is
    touched.  Called on the thread that runs the io_service the handler
    runs inside [dispatch]: when it comes to lock the mutex the method has
    been applied to the torrent, [r] holds what the method returned,
    [done] is still false and nothing is queued.  On either thread two
    strong references are added, the caller's [t] and the handler's copy,
    and the mutex has not been taken. *)
Theorem blocking_call_on_live_torrent asserts th h (f : actor → actor)
    (def : val) (g : actor → actor * val) ses :
  expired (m_torrent h) (torrents ses) = false →
  ∃ ses1 ses2,
    mut ses1 = mut ses ∧ mut ses2 = mut ses
    ∧ (∀ b, use_count <$> torrents ses1 !! b
            = (λ blk, use_count blk
                      + (if decide (w_ctrl (m_torrent h) = b) then 2 else 0))
              <$> torrents ses !! b)
    ∧ (∀ b, use_count <$> torrents ses2 !! b = use_count <$> torrents ses1 !! b)
    ∧ match th with
      | Caller me =>
          sync_call_on asserts th h f ses
            = Plain (Waiting (ptr_of h) false None ses1)
          ∧ sync_call_ret_on asserts th h def g ses
            = Plain (Waiting (ptr_of h) false (Some def) ses2)
          ∧ sync_call asserts h f me ses = Waiting (ptr_of h) false None ses1
          ∧ sync_call_ret asserts h def g me ses
            = Waiting (ptr_of h) false (Some def) ses2
          ∧ io_service ses1 = io_service ses ++ [sync_task (ptr_of h) f me]
          ∧ io_service ses2 = io_service ses ++ [sync_ret_task (ptr_of h) g me]
          ∧ torrents ses1 = torrents ses2
          ∧ (∀ b, object <$> torrents ses1 !! b = object <$> torrents ses !! b)
      | Executor =>
          ∃ blk, torrents ses !! w_ctrl (m_torrent h) = Some blk
          ∧ sync_call_on asserts th h f ses = InHandler (ptr_of h) false None ses1
          ∧ sync_call_ret_on asserts th h def g ses
            = InHandler (ptr_of h) false (Some (g (object blk)).2) ses2
          ∧ io_service ses1 = io_service ses ∧ io_service ses2 = io_service ses
          ∧ (∀ b, object <$> torrents ses1 !! b
                  = (λ blk, if decide (w_ctrl (m_torrent h) = b)
                            then f (object blk) else object blk)
                    <$> torrents ses !! b)
          ∧ (∀ b, object <$> torrents ses2 !! b
                  = (λ blk, if decide (w_ctrl (m_torrent h) = b)
                            then (g (object blk)).1 else object blk)
                    <$> torrents ses !! b)
      end.
Proof.
  intros Hlive. destruct th as [me|].
  - exists (Session (acquire (w_ctrl (m_torrent h))
                       (acquire (w_ctrl (m_torrent h)) (torrents ses)))
                    (io_service ses ++ [sync_task (ptr_of h) f me]) (mut ses)),
           (Session (acquire (w_ctrl (m_torrent h))
                       (acquire (w_ctrl (m_torrent h)) (torrents ses)))
                    (io_service ses ++ [sync_ret_task (ptr_of h) g me]) (mut ses)).
    simpl.
    rewrite (sync_call_live asserts h f me ses Hlive).
    rewrite (sync_call_ret_live asserts h def g me ses Hlive).
    split_and!; try done.
    + intros b. heap_at h b ses.
    + intros b. by rewrite !lookup_acquire_object.
  - apply expired_lookup in Hlive as Hblk. destruct Hblk as (blk & Hblk & Hpos).
    unfold sync_call_on, sync_call_ret_on, TORRENT_ASSERT_PRECOND.
    rewrite (lock_live _ _ Hlive). simpl. rewrite orb_true_r. simpl.
    rewrite !lookup_acquire, !decide_True, Hblk by done. simpl.
    destruct (g (object blk)) as [a' v] eqn:Hg. simpl.
    exists (Session (alter (λ b, set_object (f (object b)) b) (w_ctrl (m_torrent h))
                       (acquire (w_ctrl (m_torrent h))
                          (acquire (w_ctrl (m_torrent h)) (torrents ses))))
                    (io_service ses) (mut ses)),
           (Session (<[w_ctrl (m_torrent h) :=
                        set_object a' (incr_use (incr_use blk))]>
                       (acquire (w_ctrl (m_torrent h))
                          (acquire (w_ctrl (m_torrent h)) (torrents ses))))
                    (io_service ses) (mut ses)).
    simpl. split_and!; try done.
    + intros b. heap_at h b ses.
    + intros b. heap_at h b ses.
    + exists blk. rewrite Hg. simpl. split_and!; try done.
      * intros b. heap_at h b ses.
      * intros b. heap_at h b ses. by rewrite Hg.
Qed.

(** when the precondition assertion on the upgraded pointer stops
    [async_call] *)
Lemma async_call_failed asserts h (f : actor → actor) ses :
  async_call asserts h f ses = PrecondFailed
  ↔ asserts = true ∧ expired (m_torrent h) (torrents ses) = true.
Proof.
  destruct (expired (m_torrent h) (torrents ses)) eqn:Hexp.
  - rewrite dead_actor_skip_async by done. destruct asserts; naive_solver.
  - rewrite async_call_live by done. naive_solver.
Qed.
End live_actor.

(** ** The limits *)

Section limits.
Context {actor val : Type}.
Implicit Types (ses : session_impl actor val) (h : torrent_handle).

(** X3. [set_max_uploads] and [set_max_connections] check their
    argument by assertion only.  With assertions compiled in the call
    stops exactly when the argument is neither at least 2 nor -1, or the
    torrent is gone.  With assertions compiled out nothing is checked:
    every argument, 0 and 1 and the negative ones included, is bound to
    the torrent's method (with [true] as second argument) and handed to
    [async_call] as it is. *)
Theorem set_max_uploads_checks_argument
    (tu tc : Z → bool → actor → actor) asserts (n : Z) h ses :
  (set_max_uploads asserts tu n h ses = PrecondFailed
   ↔ asserts = true
     ∧ (¬ (2 ≤ n ∨ n = -1)%Z ∨ expired (m_torrent h) (torrents ses) = true))
  ∧ (set_max_connections asserts tc n h ses = PrecondFailed
     ↔ asserts = true
       ∧ (¬ (2 ≤ n ∨ n = -1)%Z ∨ expired (m_torrent h) (torrents ses) = true))
  ∧ (set_max_uploads asserts tu n h ses ≠ PrecondFailed →
       set_max_uploads asserts tu n h ses = async_call asserts h (tu n true) ses)
  ∧ (set_max_connections asserts tc n h ses ≠ PrecondFailed →
       set_max_connections asserts tc n h ses = async_call asserts h (tc n true) ses)
  ∧ set_max_uploads false tu n h ses = async_call false h (tu n true) ses
  ∧ set_max_connections false tc n h ses = async_call false h (tc n true) ses.
Proof.
  unfold set_max_uploads, set_max_connections, TORRENT_ASSERT_PRECOND.
  assert (bool_decide (2 ≤ n)%Z || bool_decide (n = -1)%Z = true
          ↔ (2 ≤ n ∨ n = -1)%Z) as Hok.
  { rewrite orb_true_iff, !bool_decide_eq_true. done. }
  destruct (bool_decide (2 ≤ n)%Z || bool_decide (n = -1)%Z) eqn:Harg;
    destruct asserts; simpl; rewrite ?async_call_failed;
    split_and!; try done; try naive_solver.
Qed.

(** X4. [set_upload_limit] and [set_download_limit] check their
    argument by assertion only.  With assertions compiled in the call
    stops exactly when the limit is below -1 or the torrent is gone.
    With assertions compiled out every limit, however negative, is bound
    to the torrent's method and handed to [async_call] as it is. *)
Theorem set_rate_limit_checks_argument
    (tu td : Z → actor → actor) asserts (limit : Z) h ses :
  (set_upload_limit asserts tu limit h ses = PrecondFailed
   ↔ asserts = true
     ∧ ((limit < -1)%Z ∨ expired (m_torrent h) (torrents ses) = true))
  ∧ (set_download_limit asserts td limit h ses = PrecondFailed
     ↔ asserts = true
       ∧ ((limit < -1)%Z ∨ expired (m_torrent h) (torrents ses) = true))
  ∧ (set_upload_limit asserts tu limit h ses ≠ PrecondFailed →
       set_upload_limit asserts tu limit h ses = async_call asserts h (tu limit) ses)
  ∧ (set_download_limit asserts td limit h ses ≠ PrecondFailed →
       set_download_limit asserts td limit h ses = async_call asserts h (td limit) ses)
  ∧ set_upload_limit false tu limit h ses = async_call false h (tu limit) ses
  ∧ set_download_limit false td limit h ses = async_call false h (td limit) ses.
Proof.
  unfold set_upload_limit, set_download_limit, TORRENT_ASSERT_PRECOND.
  destruct (bool_decide (-1 ≤ limit)%Z) eqn:Harg;
    [apply bool_decide_eq_true in Harg|apply bool_decide_eq_false in Harg];
    destruct asserts; simpl; rewrite ?async_call_failed;
    split_and!; try done; try (split; [naive_solver lia|naive_solver lia]);
    try naive_solver.
Qed.
End limits.

(** ** file_status *)

Section file_status_facts.
Context {actor val storage pool_file_status : Type}.
Variable torrent_has_storage : actor → bool.
Variable torrent_storage : actor → storage.
Variable get_status : storage → list pool_file_status.
Implicit Types (ses : session_impl actor val) (h : torrent_handle).

(** X5. Both overloads of [file_status] work on the calling thread and
    leave the session as they found it: nothing is queued, the mutex is
    not taken, the strong reference taken by [lock] is given back.  There
    is no precondition assertion, so unlike the call primitives they
    return in every build.  The overload with the out-parameter discards
    what the vector held, also when the torrent is gone, so the two
    overloads give the same result; that result is empty when the weak
    pointer does not upgrade or the torrent has no storage, and the status
    of the torrent's storage otherwise. *)
Theorem file_status_reads_in_place (old : list pool_file_status) h ses :
  file_status_into torrent_has_storage torrent_storage get_status old h ses
    = file_status torrent_has_storage torrent_storage get_status h ses
  ∧ (file_status torrent_has_storage torrent_storage get_status h ses).2 = ses
  ∧ match (lock (m_torrent h) (torrents ses)).1 with
    | None =>
        (file_status torrent_has_storage torrent_storage get_status h ses).1 = []
    | Some t =>
        ∃ b, torrents ses !! s_ctrl t = Some b
          ∧ (file_status torrent_has_storage torrent_storage get_status h ses).1
            = if torrent_has_storage (object b)
              then get_status (torrent_storage (object b)) else []
    end.
Proof.
  split; [done|]. unfold file_status, lock.
  destruct (expired (m_torrent h) (torrents ses)) eqn:Hexp; simpl.
  - by rewrite set_torrents_id.
  - apply expired_lookup in Hexp as (b & Hb & Hpos).
    rewrite lookup_acquire, decide_True, Hb by done. simpl.
    rewrite release_acquire, set_torrents_id.
    split; [by destruct (torrent_has_storage (object b))|].
    exists b. split; [done|]. by destruct (torrent_has_storage (object b)).
Qed.
End file_status_facts.

(** ** native_handle *)

Section native_handle_facts.
Context {actor : Type}.
Implicit Types (w : gmap Z (ctrl_block actor)) (h : torrent_handle).

(** X6. [native_handle] and [is_valid] agree: the pointer returned is
    non-empty exactly when the handle is valid.  An empty result leaves
    the heap as it was.  A non-empty result points to the torrent of the
    handle and counts as one more strong reference; while it is held the
    handle is valid, even when every owner the torrent had before drops
    its reference, and destroying it puts the heap back as it was. *)
Theorem native_handle_pins_torrent h w :
  (is_valid h w = true ↔ is_Some (native_handle h w).1)
  ∧ (is_valid h w = false → native_handle h w = (None, w))
  ∧ (∀ t, (native_handle h w).1 = Some t →
       s_ptr t = w_ptr (m_torrent h) ∧ s_ctrl t = w_ctrl (m_torrent h)
       ∧ weak_use_count (m_torrent h) (native_handle h w).2
         = S (weak_use_count (m_torrent h) w)
       ∧ is_valid h (Nat.iter (weak_use_count (m_torrent h) w)
                       (release (s_ctrl t)) (native_handle h w).2) = true
       ∧ release (s_ctrl t) (native_handle h w).2 = w).
Proof.
  unfold is_valid, native_handle, lock.
  destruct (expired (m_torrent h) w) eqn:Hexp; simpl.
  - split_and!; try done.
  - split_and!; try done. intros t [= <-]. simpl.
    apply expired_lookup in Hexp as (blk & Hblk & Hpos).
    split_and!; try done.
    + unfold weak_use_count. by rewrite lookup_acquire, decide_True, Hblk by done.
    + unfold expired, weak_use_count.
      rewrite lookup_release_iter, decide_True by done.
      rewrite lookup_acquire, decide_True, Hblk by done. simpl.
      apply negb_true_iff, Nat.eqb_neq. lia.
    + apply release_acquire.
Qed.
End native_handle_facts.

(** ** get_torrent_info on a torrent that is gone *)

(** X7. Without assertions, on a handle whose torrent is gone
    [torrent_file] returns the empty pointer at once, and
    [get_torrent_info] goes on with it: the empty pointer is stored in the
    slot at the cursor, so the oldest [torrent_info] kept alive by the ring
    is let go, the cursor advances, and the reference returned is bound to
    no object, the empty pointer being dereferenced. *)
Theorem get_torrent_info_expired {actor : Type}
    (copy : actor → actor * Z) h me (ses : session_impl actor Z) g :
  expired (m_torrent h) (torrents ses) = true →
  holder_ok g →
  torrent_file false copy h me ses = Returned (Some 0%Z) ses
  ∧ get_torrent_info 0 g
    = (None, InfoHolder (<[Z.to_nat (cursor g) := 0%Z]> (holder g))
                        ((cursor g + 1) mod 4)%Z)
  ∧ holder (get_torrent_info 0 g).2 !! Z.to_nat (cursor g) = Some 0%Z.
Proof.
  intros Hexp Hok. split.
  { unfold torrent_file. rewrite sync_call_ret_dead; [done|]. by rewrite lock_expired. }
  destruct (get_torrent_info_step 0 g Hok) as (_ & Hh & Hc).
  assert (get_torrent_info 0 g
          = (None, InfoHolder (<[Z.to_nat (cursor g) := 0%Z]> (holder g))
                              ((cursor g + 1) mod 4)%Z)) as Heq.
  { destruct (get_torrent_info 0 g) as [o [hl cu]] eqn:Hg. simpl in *.
    subst. f_equal. unfold get_torrent_info in Hg. by injection Hg as <- _. }
  split; [done|]. rewrite Heq. simpl. destruct Hok as [Hlen Hcur].
  apply list_lookup_insert_eq. lia.
Qed.

(** ** Merges of lists *)

Section interleaving_facts.
Context {A : Type}.
Implicit Types (ls : list (list A)) (xs l : list A).

Lemma interleaving_snoc ls xs i l x :
  interleaving ls xs → ls !! i = Some l →
  interleaving (<[i := l ++ [x]]> ls) (xs ++ [x]).
Proof.
  intros Hil. revert i l.
  induction Hil as [ls Hnil|ls j y l' xs Hj Hil IH]; intros i l Hi.
  - assert (l = []) as -> by apply (Forall_lookup_1 _ _ _ _ Hnil Hi).
    simpl. apply (il_cons _ i x []).
    + apply list_lookup_insert_eq. by eapply lookup_lt_Some.
    + rewrite list_insert_insert_eq. apply il_nil. by apply Forall_insert.
  - simpl. destruct (decide (i = j)) as [->|Hne].
    + assert (l = y :: l') as -> by congruence.
      apply (il_cons _ j y (l' ++ [x])).
      * apply list_lookup_insert_eq. by eapply lookup_lt_Some.
      * rewrite list_insert_insert_eq.
        specialize (IH j l'). rewrite list_insert_insert_eq in IH. apply IH.
        apply list_lookup_insert_eq. by eapply lookup_lt_Some.
    + apply (il_cons _ j y l').
      * by rewrite list_lookup_insert_ne.
      * rewrite list_insert_insert_ne by done. apply IH.
        by rewrite list_lookup_insert_ne.
Qed.

(** a merge of one list is that list *)
Lemma interleaving_single l xs : interleaving [l] xs → xs = l.
Proof.
  intros Hil. remember [l] as ls eqn:Hls. revert l Hls.
  induction Hil as [ls Hnil|ls j y l' xs Hj Hil IH]; intros l ->.
  - by inversion Hnil.
  - destruct j as [|j]; simpl in *; [|done]. injection Hj as ->.
    f_equal. by apply IH.
Qed.

(** a merge neither drops nor repeats an element *)
Lemma interleaving_perm ls xs : interleaving ls xs → xs ≡ₚ concat ls.
Proof.
  induction 1 as [ls Hnil|ls j y l' xs Hj Hil IH].
  - induction Hnil as [|l ls -> _ IH]; [done|]. by simpl.
  - rewrite IH. clear IH Hil. revert j Hj.
    induction ls as [|l ls IH]; intros j Hj; [done|].
    destruct j as [|j]; simpl in *.
    + by injection Hj as ->.
    + rewrite <-(IH j Hj). by rewrite Permutation_middle.
Qed.
End interleaving_facts.

(** ** The order in which the calls are run *)

Section order_facts.
Context {actor val : Type}.
Variable asserts : bool.
Implicit Types (s : system actor val) (c : caller actor val).
Implicit Types (k : task actor val) (cs : list (caller actor val)).
Implicit Types (q : list (task actor val)) (w : gmap Z (ctrl_block actor)).
Implicit Types (cl : call actor val).

Create Rewrite HintDb fields.
#[local] Hint Rewrite @program_stored @pc_stored @done_stored @rets_stored
  @program_flagged @pc_flagged @r_flagged @rets_flagged
  @program_wake @done_wake @r_wake @rets_wake : fields.

Ltac cases Ht :=
  destruct Ht as
    [i c h cl Hi Hpc Hnext Hexp Has
    |i c h cl Hi Hpc Hnext Hexp Has
    |i c h f Hi Hpc Hnext Hexp
    |i c h cl Hi Hpc Hnext Hexp Hasync
    |i c t p Hi Hpc Hp Hm
    |i c t Hi Hpc Hd
    |i c t Hi Hpc Hd
    |k q b a' v He Hq Hb Hrun
    |k He Hk
    |k i He Hk Hm
    |k He
    |k He
    |k He
    |i c t Hi Hpc]; simpl in *.

Ltac look :=
  repeat match goal with
  | Hi : callers _ !! _ = Some _ |- _ => rewrite (lookup_upd _ _ _ _ _ Hi)
  end;
  rewrite ?lookup_store_result, ?lookup_flag, ?lookup_notify_all.

Ltac read_caller H :=
  first
    [ match goal with
      | Hi : callers _ !! _ = Some _ |- _ =>
          rewrite (lookup_upd _ _ _ _ _ Hi) in H
      end;
      case_decide; simplify_eq/=
    | rewrite ?lookup_store_result, ?lookup_flag, ?lookup_notify_all in H;
      apply fmap_Some in H as (? & H & ->) ].

(** *** What a thread has submitted *)

Lemma issued_wake c : issued (wake c) = issued c.
Proof.
  unfold issued. rewrite rets_wake, wake_pc. by destruct (pc c) as [|t []].
Qed.

Lemma issued_tasks_same i c c' :
  program c' = program c → issued c' = issued c →
  issued_tasks i c' = issued_tasks i c.
Proof. unfold issued_tasks. by intros -> ->. Qed.

Lemma issued_tasks_next i c h cl c' :
  next_call c = Some (h, cl) → pc c = Ready →
  program c' = program c → issued c' = S (length (rets c)) →
  issued_tasks i c' = issued_tasks i c ++ [task_of_call (ptr_of h) cl i].
Proof.
  unfold next_call, issued_tasks. intros Hn Hpc -> ->.
  rewrite (take_S_r _ _ _ Hn), fmap_app. unfold issued. rewrite Hpc.
  by rewrite Nat.add_0_r.
Qed.

Lemma imap_upd {B} (g : nat → caller actor val → B) cs i c' :
  imap g (<[i := c']> cs) = <[i := g i c']> (imap g cs).
Proof.
  apply list_eq. intros j. rewrite list_lookup_imap, !list_lookup_insert.
  rewrite length_imap.
  case_decide as Hd; [by destruct Hd as [-> ?]|]. by rewrite list_lookup_imap.
Qed.

(** the threads' lists when no thread made a call *)
Lemma tasks_same cs cs' :
  (∀ j, match cs' !! j with
        | Some c' => ∃ c, cs !! j = Some c ∧ program c' = program c
                          ∧ issued c' = issued c
        | None => cs !! j = None
        end) →
  imap issued_tasks cs' = imap issued_tasks cs.
Proof.
  intros Hsame. apply list_eq. intros j. rewrite !list_lookup_imap.
  specialize (Hsame j). destruct (cs' !! j) as [c'|].
  - destruct Hsame as (c & -> & Hp & Hn). simpl. f_equal.
    by apply issued_tasks_same.
  - by rewrite Hsame.
Qed.

Lemma order_ok_step s l s' :
  transition asserts s l s' →
  (∀ i c h cl, callers s !! i = Some c → next_call c = Some (h, cl) →
     expired (m_torrent h) (torrents (ses s)) = false) →
  order_ok s → order_ok s'.
Proof.
  intros Ht Hlive Ho. unfold order_ok, submitted in *.
  assert (∀ cs', (∀ j, match cs' !! j with
                       | Some c' => ∃ c, callers s !! j = Some c
                                      ∧ program c' = program c
                                      ∧ issued c' = issued c
                       | None => callers s !! j = None
                       end) →
            interleaving (imap issued_tasks cs')
              ((inv_task <$> log s) ++ io_service (ses s))) as Hkeep.
  { intros cs' Hsame. by rewrite (tasks_same _ _ Hsame). }
  assert (∀ j, match callers s !! j with
               | Some c' => ∃ c, callers s !! j = Some c ∧ program c' = program c
                                 ∧ issued c' = issued c
               | None => callers s !! j = None
               end) as Hrefl.
  { intros j. destruct (callers s !! j) as [cj|]; eauto. }
  cases Ht.
  - done.
  - specialize (Hlive _ _ _ _ Hi Hnext). congruence.
  - rewrite app_assoc, imap_upd.
    rewrite (issued_tasks_next i c h (call_async f)); try done.
    + apply interleaving_snoc; [done|]. by rewrite list_lookup_imap, Hi.
    + unfold issued. simpl. rewrite length_app. simpl. lia.
  - rewrite app_assoc, imap_upd.
    rewrite (issued_tasks_next i c h cl); try done.
    + apply interleaving_snoc; [done|]. by rewrite list_lookup_imap, Hi.
    + unfold issued. simpl. lia.
  - apply Hkeep. intros j. look. case_decide; subst; [|apply Hrefl].
    exists c. unfold issued. simpl. by rewrite Hpc.
  - apply Hkeep. intros j. look. case_decide; subst; [|apply Hrefl].
    exists c. unfold issued. simpl. by rewrite Hpc.
  - apply Hkeep. intros j. look. case_decide; subst; [|apply Hrefl].
    exists c. unfold issued. simpl. rewrite Hpc, length_app. simpl.
    split_and!; try done; lia.
  - rewrite Hq in Ho. rewrite fmap_app, <-app_assoc. simpl.
    rewrite (tasks_same (callers s)); [done|].
    intros j. look. destruct (callers s !! j) as [cj|]; simpl; [|done].
    exists cj. unfold issued. by autorewrite with fields.
  - done.
  - done.
  - apply Hkeep. intros j. look.
    destruct (callers s !! j) as [cj|]; simpl; [|done].
    exists cj. unfold issued. by autorewrite with fields.
  - apply Hkeep. intros j. look.
    destruct (callers s !! j) as [cj|]; simpl; [|done].
    exists cj. by rewrite issued_wake, program_wake.
  - done.
  - apply Hkeep. intros j. look. case_decide; subst; [|apply Hrefl].
    exists c. unfold issued. simpl. by rewrite Hpc.
Qed.

Lemma order_ok_run w progs ls s :
  all_live w progs → run asserts ls (boot w progs) = Some s → order_ok s.
Proof.
  intros Hlive. revert s. induction ls as [|l ls IH] using rev_ind; intros s.
  - intros [= <-]. unfold order_ok, submitted. simpl. apply il_nil.
    apply Forall_lookup. intros i l. rewrite list_lookup_imap, list_lookup_fmap.
    destruct (progs !! i); simpl; [|done]. by intros [= <-].
  - rewrite run_snoc.
    destruct (run asserts ls (boot w progs)) as [s0|] eqn:Hrun0; [|done].
    simpl. intros [Hab Ht]%step_transition.
    pose proof (consistent_run _ _ _ _ _ Hrun0) as Hcons.
    eapply order_ok_step; [done| |by apply IH].
    intros i c h cl Hi Hn. by eapply program_handle_live.
Qed.

(** *** What the finished calls returned *)

Lemma rets_ok_run w progs ls s :
  all_live w progs → run asserts ls (boot w progs) = Some s → rets_ok s.
Proof.
  intros Hlive. revert s. induction ls as [|l ls IH] using rev_ind; intros s.
  - intros [= <-] i c n y (_ & Hr & _)%boot_lookup. by rewrite Hr.
  - rewrite run_snoc.
    destruct (run asserts ls (boot w progs)) as [s0|] eqn:Hrun0; [|done].
    simpl. intros [Hab Ht]%step_transition.
    pose proof (consistent_run _ _ _ _ _ Hrun0) as Hcons.
    specialize (IH s0 eq_refl). unfold rets_ok in *.
    cases Ht; intros j cj n y Hj Hn.
    all: try (read_caller Hj; autorewrite with fields in * ); eauto.
    + pose proof (program_handle_live _ _ _ _ _ _ _ Hcons Hlive Hi Hnext).
      congruence.
    + apply lookup_snoc_Some in Hn as [Hn|[-> ->]]; eauto.
      exists h, (call_async f). by split.
    + apply lookup_snoc_Some in Hn as [Hn|[-> ->]]; eauto.
      destruct (c_call _ _ _ Hcons _ _ _ _ Hi Hpc) as (h & cl & Hnext & _ & Hkind).
      exists h, cl. split; [done|]. destruct cl; simpl; [done|eauto..].
Qed.

(** every call a thread has made is a call of its program *)
Lemma issued_le w progs s i c :
  consistent w progs s → rets_ok s → callers s !! i = Some c →
  issued c ≤ length (program c).
Proof.
  intros Hcons Hr Hi. unfold issued. destruct (pc c) as [|t p] eqn:Hpc.
  - rewrite Nat.add_0_r. destruct (rets c) as [|y0 rs] eqn:Hrs using rev_ind.
    + simpl. lia.
    + clear IHrs.
      destruct (Hr i c (length rs) y0 Hi) as (h & cl & Hp & _).
      { rewrite Hrs. by apply list_lookup_middle. }
      apply lookup_lt_Some in Hp. rewrite length_app. simpl. lia.
  - destruct (c_call _ _ _ Hcons _ _ _ _ Hi Hpc) as (h & cl & Hnext & _).
    apply lookup_lt_Some in Hnext. lia.
Qed.

Lemma length_issued_tasks w progs s i c :
  consistent w progs s → rets_ok s → callers s !! i = Some c →
  length (issued_tasks i c) = issued c.
Proof.
  intros Hcons Hr Hi. pose proof (issued_le _ _ _ _ _ Hcons Hr Hi).
  unfold issued_tasks. rewrite length_fmap, length_take. lia.
Qed.

Lemma length_concat_imap {B} (g : nat → caller actor val → list B) cs :
  (∀ i c, cs !! i = Some c → length (g i c) = issued c) →
  length (concat (imap g cs)) = sum_list_with issued cs.
Proof.
  revert g. induction cs as [|c cs IH]; intros g Hg; [done|]. simpl.
  rewrite length_app, (Hg 0 c eq_refl). f_equal. apply IH.
  intros i c' Hi. apply (Hg (S i) c' Hi).
Qed.

(** the runs and the queued handlers are as many as the calls made *)
Lemma calls_order_counts w progs ls s :
  all_live w progs → run asserts ls (boot w progs) = Some s →
  length (log s) + length (io_service (ses s)) = sum_list_with issued (callers s)
  ∧ ∀ i c, callers s !! i = Some c → length (issued_tasks i c) = issued c.
Proof.
  intros Hlive Hrun. pose proof (order_ok_run _ _ _ _ Hlive Hrun) as Ho.
  pose proof (consistent_run _ _ _ _ _ Hrun) as Hcons.
  pose proof (rets_ok_run _ _ _ _ Hlive Hrun) as Hr.
  assert (∀ i c, callers s !! i = Some c → length (issued_tasks i c) = issued c)
    as Hlen by (intros i c Hi; by eapply length_issued_tasks).
  split; [|done].
  apply interleaving_perm, Permutation_length in Ho. unfold submitted in Ho.
  rewrite length_app, length_fmap in Ho. rewrite Ho.
  by apply length_concat_imap.
Qed.

(** X8. Calls made by one thread are run in the order that thread made
    them.  For threads that run any programs of calls on live torrents, in
    every state a schedule reaches, the handlers the executor has run so
    far, in the order it ran them, followed by the handlers still queued,
    are a merge of the sequences of handlers the threads have submitted:
    the handlers of each thread appear in the order of its calls, those
    of [async_call] included, and no handler is lost or run twice.  Each
    thread's sequence has one handler for every call the thread has made,
    so the runs and the queued handlers together are as many as the calls
    made. *)
Theorem calls_run_in_program_order w progs ls s :
  all_live w progs →
  run asserts ls (boot w progs) = Some s →
  interleaving (imap issued_tasks (callers s)) (submitted s)
  ∧ submitted s ≡ₚ concat (imap issued_tasks (callers s))
  ∧ (∀ i c, callers s !! i = Some c → length (issued_tasks i c) = issued c)
  ∧ length (log s) + length (io_service (ses s))
    = sum_list_with issued (callers s).
Proof.
  intros Hlive Hrun. pose proof (order_ok_run _ _ _ _ Hlive Hrun) as Ho.
  destruct (calls_order_counts _ _ _ _ Hlive Hrun) as [Hsum Hlen].
  split; [done|]. split; [by apply interleaving_perm|]. by split.
Qed.

(** *** A single calling thread *)

Lemma run_method_task_of_call t cl i (a : actor) :
  run_method (task_of_call t cl i) a = call_method cl a.
Proof. by destruct cl. Qed.

Lemma task_ref_task_of_call t cl i : task_ref (task_of_call t cl i) = t.
Proof. by destruct cl. Qed.

Lemma task_caller_task_of_call t cl i :
  task_caller (task_of_call t cl i) = if is_async cl then None else Some i.
Proof. by destruct cl. Qed.

Lemma index_ok_step w progs s l s' :
  transition asserts s l s' → consistent w progs s → order_ok s →
  index_ok s → index_ok s'.
Proof.
  intros Ht Hcons Ho Hix. pose proof (callers_length_step _ _ _ _ Ht) as Hlen.
  unfold index_ok. rewrite Hlen. cases Ht; try done.
  intros Hone j e Hj [i Hk].
  apply lookup_snoc_Some in Hj as [Hj|[-> ->]]; [by apply Hix; eauto|].
  simpl in *. rewrite Hk.
  destruct (head_of_queue _ _ _ _ (c_flight _ _ _ Hcons) (c_task _ _ _ Hcons)
              (c_call _ _ _ Hcons) He Hq Hk)
    as (c & h & cl & Hi & (t & p & Hpc) & Hnext & -> & Hq0 & _).
  unfold call_index. rewrite Hi. simpl.
  destruct (callers s) as [|c0 [|c1 cs]] eqn:Hcs; simpl in Hone; try done.
  destruct i as [|i]; simpl in Hi; [|done]. injection Hi as ->.
  unfold order_ok, submitted in Ho. rewrite Hcs, Hq in Ho. simpl in Ho.
  apply interleaving_single in Ho.
  unfold issued_tasks, issued in Ho. rewrite Hpc in Ho.
  replace (length (rets c) + 1) with (S (length (rets c))) in Ho by lia.
  rewrite (take_S_r _ _ _ Hnext), fmap_app in Ho. simpl in Ho.
  destruct q as [|x q _] using rev_ind.
  - apply app_inj_tail in Ho as [Ho _].
    apply (f_equal length) in Ho. rewrite !length_fmap, length_take in Ho.
    apply lookup_lt_Some in Hnext. lia.
  - rewrite app_comm_cons, app_assoc in Ho. apply app_inj_tail in Ho as [_ ->].
    exfalso. eapply (queued_zero 0 (q ++ [task_of_call (ptr_of h) cl 0])); [done| |done].
    apply elem_of_app. right. by apply list_elem_of_singleton.
Qed.

Lemma index_ok_run w progs ls s :
  all_live w progs → run asserts ls (boot w progs) = Some s → index_ok s.
Proof.
  intros Hlive. revert s. induction ls as [|l ls IH] using rev_ind; intros s.
  - intros [= <-] _ j e Hj. done.
  - rewrite run_snoc.
    destruct (run asserts ls (boot w progs)) as [s0|] eqn:Hrun0; [|done].
    simpl. intros [Hab Ht]%step_transition.
    eapply index_ok_step; [done| | |by apply IH].
    + by eapply consistent_run.
    + by eapply order_ok_run.
Qed.

(** *** When nothing can move *)

Lemma stuck_quiescent w progs s :
  consistent w progs s → aborted s = false →
  (∀ l, is_spurious l = false → step asserts l s = None) →
  io_service (ses s) = [] ∧ exec s = Idle.
Proof.
  intros Hcons Hab Hstuck. pose proof (Hstuck run_executor eq_refl) as Hex.
  unfold step, exec_step in Hex. rewrite Hab in Hex.
  destruct (exec s) as [|k|k|k|k] eqn:He; try done.
  - split; [|done]. destruct (io_service (ses s)) as [|k q] eqn:Hq; [done|].
    exfalso. destruct (c_refs _ _ _ Hcons) as [_ Hrk].
    destruct (Hrk k) as [blk Hblk].
    { left. rewrite Hq. by left. }
    pose proof (c_heap _ _ _ Hcons (s_ctrl (task_ref k))) as Hh.
    rewrite Hblk in Hh. simpl in Hh. rewrite Hh in Hex. simpl in Hex.
    by destruct (run_method k _).
  - exfalso. destruct (task_caller k) as [i|] eqn:Hk; [|done].
    destruct (mut (ses s)) as [[j|]|] eqn:Hm; [| |done].
    + destruct (holder_can_move asserts _ _ _ _ Hcons Hab Hm) as [s' Hs'].
      by rewrite (Hstuck (run_caller j) eq_refl) in Hs'.
    + destruct (c_mutex _ _ _ Hcons) as [_ Hlk]. apply Hlk in Hm.
      by rewrite He in Hm.
Qed.

Lemma stuck_finished w progs s i c :
  consistent w progs s → rets_ok s → aborted s = false →
  (∀ l, is_spurious l = false → step asserts l s = None) →
  callers s !! i = Some c →
  pc c = Ready ∧ length (rets c) = length (program c).
Proof.
  intros Hcons Hr Hab Hstuck Hi. destruct (finished c) eqn:Hfin.
  - unfold finished in Hfin. destruct (pc c) eqn:Hpc; [|done].
    apply bool_decide_eq_true in Hfin. split; [done|].
    pose proof (issued_le _ _ _ _ _ Hcons Hr Hi) as Hle. unfold issued in Hle.
    rewrite Hpc in Hle. lia.
  - destruct (progress asserts _ _ _ _ _ Hcons Hab Hi Hfin) as (l & Hl & [s' Hs']).
    by rewrite (Hstuck l Hl) in Hs'.
Qed.

(** *** The program run without dispatch *)

Lemma seq_run_snoc (prog : list (torrent_handle * call actor val)) hc w :
  seq_run (prog ++ [hc]) w = seq_call (seq_run prog w) hc.
Proof. unfold seq_run. by rewrite foldl_app. Qed.

Lemma seq_call_length st (hc : torrent_handle * call actor val) :
  length (seq_call st hc).2 = S (length st.2).
Proof.
  destruct st as [w rs], hc as [h cl]. unfold seq_call.
  destruct (expired (m_torrent h) w); simpl; [rewrite length_app; simpl; lia|].
  destruct (w !! w_ctrl (m_torrent h)) as [b|]; simpl;
    [destruct (call_method cl (object b))|]; simpl; rewrite length_app; simpl; lia.
Qed.

(** one result for each call of the program *)
Lemma seq_run_length (prog : list (torrent_handle * call actor val)) w :
  length (seq_run prog w).2 = length prog.
Proof.
  induction prog as [|hc prog IH] using rev_ind; [done|].
  rewrite seq_run_snoc, seq_call_length, IH, length_app. simpl. lia.
Qed.

(** The first [n] calls of the program, run at once and in order, give
    what the first [n] runs of the executor gave. *)
Lemma seq_run_prefix w s c n :
  chain_ok w s → log_ok s → rets_ok s → index_ok s →
  callers s = [c] →
  Forall (λ hc, expired (m_torrent hc.1) w = false) (program c) →
  inv_task <$> log s = (λ hc, task_of_call (ptr_of hc.1) hc.2 0) <$> program c →
  length (rets c) = length (program c) →
  n ≤ length (program c) →
  ∃ wn, seq_run (take n (program c)) w = (wn, take n (rets c))
    ∧ ∀ b, wn !! b
           = (λ blk, CtrlBlock (use_count blk)
                               (obj_after (take n (log s)) b (object blk)))
             <$> w !! b.
Proof.
  intros Hchain Hlog Hrets Hix Hcs Hlive Htasks Hlen.
  induction n as [|n IH]; intros Hn.
  - exists w. split; [done|]. intros b. simpl.
    destruct (w !! b) as [[]|]; done.
  - destruct IH as (wn & Hseq & Hwn); [lia|].
    destruct (lookup_lt_is_Some_2 (program c) n) as [[h cl] Hp]; [lia|].
    destruct (lookup_lt_is_Some_2 (rets c) n) as [y Hy]; [lia|].
    assert (length (log s) = length (program c)) as Hloglen.
    { apply (f_equal length) in Htasks. by rewrite !length_fmap in Htasks. }
    destruct (lookup_lt_is_Some_2 (log s) n) as [e He]; [lia|].
    assert (inv_task e = task_of_call (ptr_of h) cl 0) as Htask.
    { apply (f_equal (λ l, l !! n)) in Htasks.
      rewrite !list_lookup_fmap, He, Hp in Htasks. simpl in Htasks. congruence. }
    rewrite (take_S_r _ _ _ Hp), (take_S_r _ _ _ Hy), (take_S_r _ _ _ He).
    rewrite seq_run_snoc, Hseq.
    destruct (Hchain (take n (log s)) e (drop (S n) (log s))) as (blk & Hblk & Hpre & Hmeth).
    { by rewrite take_drop_middle. }
    rewrite Htask, task_ref_task_of_call in Hblk, Hpre. simpl in Hblk, Hpre.
    rewrite Htask, run_method_task_of_call in Hmeth.
    assert (expired (m_torrent h) w = false) as Hexp.
    { rewrite Forall_forall in Hlive. apply (Hlive (h, cl)).
      by eapply list_elem_of_lookup_2. }
    assert (expired (m_torrent h) wn = false) as Hexpn.
    { apply expired_lookup in Hexp as (blk' & Hblk' & Hpos).
      apply expired_lookup. eexists. rewrite Hwn, Hblk'. simpl. split; [done|].
      done. }
    unfold seq_call. rewrite Hexpn, Hwn, Hblk. simpl.
    rewrite <-Hpre, Hmeth.
    exists (<[w_ctrl (m_torrent h) :=
               set_object (inv_post e) (CtrlBlock (use_count blk) (inv_pre e))]> wn).
    split.
    + f_equal. f_equal. f_equal.
      destruct (Hrets 0 c n y) as (h' & cl' & Hp' & Hkind).
      { by rewrite Hcs. }
      { done. }
      rewrite Hp in Hp'. injection Hp' as <- <-.
      destruct (is_async cl) eqn:Hasync.
      * subst y. f_equal. destruct cl; try done. simpl in Hmeth. congruence.
      * destruct Hkind as [v ->]. f_equal.
        destruct Hlog as (_ & L2 & _).
        destruct (L2 0 c) as [Lr _]; [by rewrite Hcs|].
        destruct (Lr _ _ Hy) as (e' & He' & Hc' & Hidx & Hval).
        apply list_elem_of_lookup_1 in He' as [j Hj].
        assert (inv_index e' = j) as Hj'.
        { apply Hix; [by rewrite Hcs|done|by rewrite Hc']. }
        assert (e' = e) as -> by congruence. done.
    + intros b. destruct (decide (w_ctrl (m_torrent h) = b)) as [<-|Hne].
      * rewrite lookup_insert_eq, Hblk. simpl. rewrite obj_after_snoc.
        unfold invoked_on. rewrite Htask, task_ref_task_of_call. simpl.
        by rewrite bool_decide_true.
      * rewrite lookup_insert_ne, Hwn by done.
        destruct (w !! b) as [blk'|]; simpl; [|done]. rewrite obj_after_snoc.
        unfold invoked_on. rewrite Htask, task_ref_task_of_call. simpl.
        by rewrite bool_decide_false.
Qed.

(** where a single thread ends: all calls returned, nothing queued or
    running, results and torrents as the program run in order gives them *)
Lemma single_caller_final w prog ls s :
  all_live w [prog] →
  run asserts ls (boot w [prog]) = Some s →
  (∀ l, is_spurious l = false → step asserts l s = None) →
  ∃ c, callers s = [c] ∧ pc c = Ready
    ∧ io_service (ses s) = [] ∧ exec s = Idle
    ∧ rets c = (seq_run prog w).2
    ∧ torrents (ses s) = (seq_run prog w).1.
Proof.
  intros Hlive Hrun Hstuck.
  pose proof (consistent_run _ _ _ _ _ Hrun) as Hcons.
  pose proof (never_aborted _ _ _ _ _ Hlive Hrun) as Hab.
  pose proof (order_ok_run _ _ _ _ Hlive Hrun) as Ho.
  pose proof (rets_ok_run _ _ _ _ Hlive Hrun) as Hr.
  pose proof (index_ok_run _ _ _ _ Hlive Hrun) as Hix.
  destruct (stuck_quiescent _ _ _ Hcons Hab Hstuck) as [Hq He].
  pose proof (c_progs _ _ _ Hcons) as Hprogs. unfold progs_ok in Hprogs.
  destruct (callers s) as [|c [|c1 cs]] eqn:Hcs; simpl in Hprogs; try done.
  injection Hprogs as Hprog.
  destruct (stuck_finished _ _ _ 0 c Hcons Hr Hab Hstuck) as [Hpc Hlen].
  { by rewrite Hcs. }
  unfold order_ok, submitted in Ho. rewrite Hcs, Hq in Ho. simpl in Ho.
  apply interleaving_single in Ho. rewrite app_nil_r in Ho.
  unfold issued_tasks, issued in Ho.
  rewrite Hpc, Nat.add_0_r, take_ge in Ho by lia.
  assert (length (log s) = length (program c)) as Hloglen.
  { apply (f_equal length) in Ho. by rewrite !length_fmap in Ho. }
  destruct (seq_run_prefix w s c (length (program c))) as (wn & Hseq & Hwn);
    try done.
  { apply (c_chain _ _ _ Hcons). }
  { apply (c_log _ _ _ Hcons). }
  { rewrite Hprog. unfold all_live in Hlive. by inversion Hlive. }
  rewrite !take_ge, Hprog in Hseq by lia. rewrite take_ge in Hwn by lia.
  exists c. rewrite Hseq. simpl. split_and!; try done.
  apply map_eq. intros b. rewrite Hwn, (c_heap _ _ _ Hcons b).
  unfold held. rewrite Hcs, Hq, He. simpl. unfold caller_holds. rewrite Hpc.
  destruct (w !! b) as [blk|]; simpl; [|done]. do 2 f_equal. lia.
Qed.

(** X9. With a single calling thread the dispatch is invisible.  For a
    thread that runs any program of calls on live torrents, along any
    schedule, spurious wakeups included, once nothing but a spurious
    wakeup can fire the thread has returned from every call, nothing is
    queued or running, and what the calls returned and the state of every
    torrent are exactly what the program gives when each call applies its
    method at once, on the calling thread, in program order; the strong
    counts are what they were at the start; the process has not stopped
    and the executor has made one run for each call.  So a method
    submitted with [async_call] takes effect before any later call of the
    same thread reads or changes the torrent. *)
Theorem single_caller_sequential w prog ls s :
  all_live w [prog] →
  run asserts ls (boot w [prog]) = Some s →
  (∀ l, is_spurious l = false → step asserts l s = None) →
  aborted s = false
  ∧ length (log s) = length prog
  ∧ ∃ c, callers s = [c] ∧ pc c = Ready
      ∧ io_service (ses s) = [] ∧ exec s = Idle
      ∧ rets c = (seq_run prog w).2
      ∧ torrents (ses s) = (seq_run prog w).1.
Proof.
  intros Hlive Hrun Hstuck.
  destruct (single_caller_final _ _ _ _ Hlive Hrun Hstuck)
    as (c & Hcs & Hpc & Hq & He & Hrets & Hheap).
  split; [by eapply never_aborted|]. split; [|by exists c].
  destruct (calls_order_counts _ _ _ _ Hlive Hrun) as [Hsum Hlen].
  rewrite Hq, Hcs in Hsum. simpl in Hsum. unfold issued in Hsum.
  rewrite Hpc in Hsum. rewrite Hrets in Hsum.
  rewrite (seq_run_length prog w) in Hsum. lia.
Qed.

(** *** Strong references *)

Lemma sum_list_with_zero {B} (g : B → nat) (l : list B) :
  (∀ i x, l !! i = Some x → g x = 0) → sum_list_with g l = 0.
Proof.
  induction l as [|x l IH]; intros Hg; [done|]. simpl.
  rewrite (Hg 0 x eq_refl), IH; [done|]. intros i y Hi. apply (Hg (S i) y Hi).
Qed.

Lemma held_quiescent s b : quiescent s → held b s = 0.
Proof.
  intros (Hq & He & Hpc). unfold held. rewrite Hq, He. simpl.
  rewrite sum_list_with_zero; [done|]. intros i c Hi. unfold caller_holds.
  by rewrite (Hpc i c Hi).
Qed.

(** X10. The calls leak no strong reference.  Along any schedule, for
    any programs (the handles may be live or not), the strong count of
    every torrent is what it was at the start plus one for each thread
    inside a blocking call on it and one for each handler on it that is
    queued or running; no control block appears or goes.  So once every
    thread is between calls and no handler is queued or running, every
    strong count is back at what it was at the start. *)
Theorem strong_counts_balance w progs ls s :
  run asserts ls (boot w progs) = Some s →
  (∀ b, use_count <$> torrents (ses s) !! b
        = (λ blk, use_count blk + held b s) <$> w !! b)
  ∧ (quiescent s →
       ∀ b, use_count <$> torrents (ses s) !! b = use_count <$> w !! b).
Proof.
  intros Hrun. pose proof (consistent_run _ _ _ _ _ Hrun) as Hcons.
  assert (∀ b, use_count <$> torrents (ses s) !! b
               = (λ blk, use_count blk + held b s) <$> w !! b) as Hbal.
  { intros b. rewrite (c_heap _ _ _ Hcons b). by destruct (w !! b). }
  split; [done|]. intros Hq b. rewrite Hbal, held_quiescent by done.
  destruct (w !! b); simpl; [f_equal; lia|done].
Qed.

(** *** The flag *)

(** X11. The flag [done] of a blocking call is never written and read
    at the same time.  In every state a schedule reaches: a thread that
    evaluates [while (!done)] holds the mutex; and when a transition
    changes the flag of thread [j], either it is the handler of [j]'s call
    setting it, on the executor, holding the mutex, while [j] is inside
    [torrent_wait] and not evaluating the flag, or it is [j] itself
    starting a new blocking call with the flag false. *)
Theorem done_written_under_mutex w progs ls s :
  run asserts ls (boot w progs) = Some s →
  (∀ j cj t, callers s !! j = Some cj → pc cj = InWait t AtTest →
     mut (ses s) = Some (Caller j))
  ∧ (∀ l s' j cj cj', step asserts l s = Some s' →
       callers s !! j = Some cj → callers s' !! j = Some cj' →
       done cj' ≠ done cj →
       (l = run_executor ∧ mut (ses s) = Some Executor
        ∧ (∃ k, exec s = Locked k ∧ task_caller k = Some j)
        ∧ done cj' = true
        ∧ ∃ t p, pc cj = InWait t p ∧ p ≠ AtTest)
       ∨ (l = run_caller j ∧ pc cj = Ready ∧ done cj' = false
          ∧ ∃ t, pc cj' = InWait t AtEnter)).
Proof.
  intros Hrun0. pose proof (consistent_run _ _ _ _ _ Hrun0) as Hcons.
  destruct (c_mutex _ _ _ Hcons) as [Hmx Hex].
  assert (∀ j cj t, callers s !! j = Some cj → pc cj = InWait t AtTest →
            mut (ses s) = Some (Caller j)) as Htest.
  { intros j cj t Hj Hpc. specialize (Hmx j). rewrite Hj in Hmx.
    apply Hmx. unfold at_test. by rewrite Hpc. }
  split; [done|].
  intros l s' j cj cj' [_ Ht]%step_transition Hj Hj' Hne.
  cases Ht.
  all: try (read_caller Hj'; autorewrite with fields in * ); try congruence.
  - right. split_and!; try done; eauto.
  - left. assert (x = cj) as -> by congruence.
    unfold flagged in *. case_decide as Hk; [|done]. simpl in *.
    assert (mut (ses s) = Some Executor) as Hm by (apply Hex; by rewrite He).
    split_and!; try done; [by eauto|].
    destruct (c_task _ _ _ Hcons k j) as (c & t & p & h & cl & Hc & Hpc & _).
    { right. by rewrite He. }
    { done. }
    assert (c = cj) as -> by congruence.
    exists t, p. split; [done|]. intros ->.
    specialize (Htest _ _ _ Hj Hpc). congruence.
Qed.
(** *** Who keeps a torrent alive *)

(** X12. Handlers and waiting callers keep their torrent alive by
    references of their own.  In every state a schedule reaches, for any
    programs: no strong count is below what it was at the start, so no
    reference is dropped that was not taken; and for every handler queued
    or running, and for every thread inside a blocking call, the strong
    count of its torrent is above what it was at the start, so that if all
    the owners the torrent had at the start dropped their references now,
    a handle to it would still be valid. *)
Theorem handlers_keep_torrent_alive w progs ls s :
  run asserts ls (boot w progs) = Some s →
  (∀ b blk0, w !! b = Some blk0 →
     ∃ blk, torrents (ses s) !! b = Some blk ∧ use_count blk0 ≤ use_count blk)
  ∧ (∀ t, (∃ k, in_system k s ∧ task_ref k = t)
          ∨ (∃ i c p, callers s !! i = Some c ∧ pc c = InWait t p) →
       ∃ blk0 blk, w !! s_ctrl t = Some blk0
         ∧ torrents (ses s) !! s_ctrl t = Some blk
         ∧ use_count blk0 < use_count blk
         ∧ ∀ h, ptr_of h = t →
             is_valid h (Nat.iter (weak_use_count (m_torrent h) w)
                           (release (w_ctrl (m_torrent h)))
                           (torrents (ses s))) = true).
Proof.
  intros Hrun0. pose proof (consistent_run _ _ _ _ _ Hrun0) as Hcons.
  pose proof (c_heap _ _ _ Hcons) as Hheap.
  destruct (c_refs _ _ _ Hcons) as [Hrc Hrk]. split.
  - intros b blk0 Hb. rewrite (Hheap b), Hb. simpl. eexists. split; [done|].
    simpl. lia.
  - intros t Hheld.
    assert (is_Some (w !! s_ctrl t) ∧ 1 ≤ held (s_ctrl t) s) as [[blk0 Hb] Hone].
    { destruct Hheld as [(k & Hk & <-)|(i & c & p & Hi & Hpc)].
      - split; [by apply Hrk|by apply held_task].
      - split; [by eapply Hrc|by eapply held_caller]. }
    exists blk0. eexists. rewrite (Hheap (s_ctrl t)), Hb. simpl.
    split_and!; try done; [simpl; lia|].
    intros h <-. unfold is_valid, expired, weak_use_count. simpl in *.
    rewrite lookup_release_iter, decide_True by done.
    rewrite (Hheap (w_ctrl (m_torrent h))), Hb. simpl.
    apply negb_true_iff, Nat.eqb_neq. lia.
Qed.

(** *** Programs with handles whose torrent is gone *)

Lemma dead_call_returns_default w progs ls s :
  asserts = false →
  run asserts ls (boot w progs) = Some s →
  ∀ i c n h cl y, callers s !! i = Some c →
    program c !! n = Some (h, cl) → rets c !! n = Some y →
    expired (m_torrent h) w = true → y = Immediate (default_of cl).
Proof.
  intros Hrel. revert s. induction ls as [|l ls IH] using rev_ind; intros s.
  - intros [= <-] i c n h cl y (_ & Hr & _)%boot_lookup. by rewrite Hr.
  - rewrite run_snoc.
    destruct (run asserts ls (boot w progs)) as [s0|] eqn:Hrun0; [|done].
    simpl. intros [Hab Ht]%step_transition.
    pose proof (consistent_run _ _ _ _ _ Hrun0) as Hcons.
    pose proof (λ p, expired_run _ _ _ _ _ p Hrun0) as Hsame.
    specialize (IH s0 eq_refl).
    cases Ht; intros j cj n h0 cl0 y Hj Hn Hy Hdead.
    all: try (read_caller Hj; autorewrite with fields in * ); eauto.
    + apply lookup_snoc_Some in Hy as [Hy|[-> ->]]; eauto.
      unfold next_call in Hnext. by simplify_eq.
    + apply lookup_snoc_Some in Hy as [Hy|[-> ->]]; eauto.
      unfold next_call in Hnext. simplify_eq. rewrite Hsame in Hexp. congruence.
    + apply lookup_snoc_Some in Hy as [Hy|[-> ->]]; eauto.
      destruct (c_call _ _ _ Hcons _ _ _ _ Hi Hpc) as (h1 & cl1 & Hnext & -> & _).
      unfold next_call in Hnext. simplify_eq.
      destruct (caller_ref_live _ _ _ _ _ _ _ Hcons Hi Hpc) as (blk & Hblk & Hpos).
      assert (expired (m_torrent h0) (torrents (ses s0)) = false) as Hlive.
      { apply expired_lookup. by exists blk. }
      rewrite Hsame in Hlive. congruence.
Qed.

Lemma never_aborted_release w progs ls s :
  asserts = false → run asserts ls (boot w progs) = Some s → aborted s = false.
Proof.
  intros Hrel. revert s. induction ls as [|l ls IH] using rev_ind; intros s.
  - by intros [= <-].
  - rewrite run_snoc.
    destruct (run asserts ls (boot w progs)) as [s0|] eqn:Hrun0; [|done].
    simpl. intros [Hab Ht]%step_transition. cases Ht; try done. congruence.
Qed.
End order_facts.

(** ** A build without assertions *)


(** ** Setting a limit and reading it back *)

(** X14. A limit set is the limit read.  [set_upload_limit] with a
    limit of at least -1 is the [async_call] of the torrent's setter and
    [upload_limit] is the [sync_call_ret] of its getter with default 0.
    When a thread makes the two calls one after the other on a live
    torrent whose getter returns what its setter stored, then along every
    schedule, once nothing but a spurious wakeup can fire, the first call
    has returned at once and the second has returned the limit just set:
    the setter, though not waited for, has run before the getter. *)
Theorem upload_limit_reads_back {actor : Type} asserts
    (w : gmap Z (ctrl_block actor)) h
    (tset : Z → actor → actor) (tget : actor → actor * Z) (limit : Z) ls s :
  expired (m_torrent h) w = false →
  (∀ a, (tget (tset limit a)).2 = limit) →
  run asserts ls
    (boot w [[(h, call_async (tset limit)); (h, call_sync_ret 0%Z tget)]])
    = Some s →
  (∀ l, is_spurious l = false → step asserts l s = None) →
  (∀ me ses, (-1 ≤ limit)%Z →
     set_upload_limit asserts tset limit h ses
       = issue asserts h (call_async (tset limit)) me ses
     ∧ upload_limit asserts tget h me ses
       = issue asserts h (call_sync_ret 0%Z tget) me ses)
  ∧ ∃ c, callers s = [c]
      ∧ rets c = [Immediate None; Waited (Some limit)].
Proof.
  intros Hexp Hget Hrun Hstuck. split.
  { intros me ses Hlim. split; [|done].
    unfold set_upload_limit, TORRENT_ASSERT_PRECOND.
    rewrite bool_decide_true by done. by rewrite orb_true_r. }
  destruct (single_caller_final asserts w
              [(h, call_async (tset limit)); (h, call_sync_ret 0%Z tget)] ls s)
    as (c & Hcs & _ & _ & _ & Hrets & _); try done.
  { by repeat constructor. }
  exists c. split; [done|]. rewrite Hrets.
  apply expired_lookup in Hexp as Hblk. destruct Hblk as (blk & Hblk & Hpos).
  unfold seq_run. simpl. rewrite Hexp, Hblk. simpl.
  assert (expired (m_torrent h)
            (<[w_ctrl (m_torrent h) := set_object (tset limit (object blk)) blk]> w)
          = false) as Hexp'.
  { apply expired_lookup. eexists. by rewrite lookup_insert_eq. }
  rewrite Hexp', lookup_insert_eq. simpl.
  specialize (Hget (object blk)). destruct (tget (tset limit (object blk))) as [a' v].
  simpl in *. by subst.
Qed.

(** ** The transition system on the concrete inputs *)

Lemma demo_two_live : all_live demo_heap demo_two.
Proof. repeat constructor. Qed.

Lemma demo_two_runs :
  run false demo_two_schedule (boot demo_heap demo_two) = Some demo_two_end.
Proof. vm_compute. reflexivity. Qed.

Lemma demo_seq_live : all_live demo_heap demo_seq.
Proof. repeat constructor. Qed.

Lemma demo_seq_runs :
  run false demo_seq_schedule (boot demo_heap demo_seq) = Some demo_seq_end.
Proof. vm_compute. reflexivity. Qed.

(** The single thread has returned from both calls; the second, issued
    after the first returned, read the counter the first had incremented. *)
Example demo_seq_results :
  (λ c, (pc c, rets c)) <$> callers demo_seq_end
  = [(Ready, [Waited None; Waited (Some 8%Z)])].
Proof. vm_compute. reflexivity. Qed.

(** Both threads have returned, each with the value of its own run. *)
Example demo_two_results :
  (λ c, (pc c, rets c)) <$> callers demo_two_end
  = [(Ready, [Waited (Some 7%Z)]); (Ready, [Waited (Some 8%Z)])].
Proof. vm_compute. reflexivity. Qed.

(** The thread of [demo_mixed_sync] has returned from both calls: the
    first, on the torrent that is gone, at once with its default; the
    second out of [torrent_wait]. *)
Example demo_mixed_sync_results :
  (λ c, (pc c, rets c)) <$> callers demo_mixed_sync_end
  = [(Ready, [Immediate (Some 5%Z); Waited None])].
Proof. vm_compute. reflexivity. Qed.

Lemma sync_call_returns_after_the_method_witness :
  ∃ l1 x l2,
    log demo_mixed_sync_end = l1 ++ x :: l2
    ∧ inv_task x = sync_task (ptr_of demo_live) S 0 ∧ inv_index x = 1
    ∧ inv_post x = S (inv_pre x)
    ∧ ∃ blk, torrents (ses demo_mixed_sync_end) !! 100%Z = Some blk
        ∧ object blk = obj_after l2 100%Z (inv_post x).
Proof.
  destruct (sync_call_returns_after_the_method false demo_heap demo_mixed_sync
              demo_mixed_schedule demo_mixed_sync_end) as (_ & _ & _ & Hcall).
  - vm_compute. reflexivity.
  - assert (∃ c, callers demo_mixed_sync_end !! 0 = Some c
                 ∧ program c !! 1 = Some (demo_live, call_sync S)
                 ∧ rets c !! 1 = Some (Waited None)) as (c & Hc & Hp & Hr).
    { eexists. vm_compute. auto. }
    assert (expired (m_torrent demo_live) demo_heap = false) as Hlive
      by (vm_compute; reflexivity).
    destruct (Hcall 0 c 1 demo_live S _ Hc Hp Hlive Hr)
      as (_ & l1 & x & l2 & Hlog & Htask & Hidx & Hpost & _ & _ & Hnow).
    exists l1, x, l2. auto.
Defined.

Lemma sync_call_ret_returns_the_method_value_witness :
  ∃ l1 x l2,
    log demo_mixed_end = l1 ++ x :: l2
    ∧ inv_task x = sync_ret_task (ptr_of demo_live) demo_bump 0
    ∧ inv_post x = (demo_bump (inv_pre x)).1
    ∧ Waited (Some 7%Z) = Waited (Some (demo_bump (inv_pre x)).2).
Proof.
  destruct (sync_call_ret_returns_the_method_value false demo_heap demo_mixed
              demo_mixed_schedule demo_mixed_end) as (_ & Hcall).
  - vm_compute. reflexivity.
  - assert (∃ c, callers demo_mixed_end !! 0 = Some c
                 ∧ program c !! 1 = Some (demo_live, call_sync_ret 0%Z demo_bump)
                 ∧ rets c !! 1 = Some (Waited (Some 7%Z))) as (c & Hc & Hp & Hr).
    { eexists. vm_compute. auto. }
    assert (expired (m_torrent demo_live) demo_heap = false) as Hlive
      by (vm_compute; reflexivity).
    destruct (Hcall 0 c 1 demo_live 0%Z demo_bump _ Hc Hp Hlive Hr)
      as (l1 & x & l2 & blk & Hlog & Htask & Hidx & _ & _ & Hpost & Hval & _).
    exists l1, x, l2. auto.
Defined.


(** ** The added theorems on the concrete inputs *)

Lemma demo_limit_runs :
  run false demo_limit_schedule (boot demo_heap [demo_limit]) = Some demo_limit_end.
Proof. vm_compute. reflexivity. Qed.

Lemma demo_limit_stuck l :
  is_spurious l = false → step false l demo_limit_end = None.
Proof.
  destruct l as [i| |i]; intros Hl; [|vm_compute; reflexivity|done].
  destruct i as [|i]; vm_compute; reflexivity.
Qed.

Lemma async_call_on_live_torrent_witness :
  (∃ ses', async_call_on false (Caller 0) demo_live S demo_session
             = Returned None ses'
     ∧ io_service ses' = [async_task (ptr_of demo_live) S]
     ∧ object <$> torrents ses' !! 100%Z = Some 7)
  ∧ (∃ ses', async_call_on false Executor demo_live S demo_session
               = Returned None ses'
       ∧ io_service ses' = []
       ∧ object <$> torrents ses' !! 100%Z = Some 8).
Proof.
  split.
  - destruct (async_call_on_live_torrent false (Caller 0) demo_live S demo_session)
      as (ses' & Hcall & _ & _ & Hq & Hobj & _).
    { vm_compute. reflexivity. }
    exists ses'. split; [exact Hcall|]. split; [exact Hq|].
    rewrite Hobj. vm_compute. reflexivity.
  - destruct (async_call_on_live_torrent false Executor demo_live S demo_session)
      as (ses' & Hcall & _ & Hq & _ & Hobj).
    { vm_compute. reflexivity. }
    exists ses'. split; [exact Hcall|]. split; [exact Hq|].
    rewrite Hobj. vm_compute. reflexivity.
Defined.

Lemma blocking_call_on_live_torrent_witness :
  (∃ ses1 ses2,
     sync_call_on false (Caller 0) demo_live S demo_session
       = Plain (Waiting (ptr_of demo_live) false None ses1)
     ∧ sync_call_ret_on false (Caller 0) demo_live 0%Z demo_bump demo_session
       = Plain (Waiting (ptr_of demo_live) false (Some 0%Z) ses2)
     ∧ io_service ses1 = [sync_task (ptr_of demo_live) S 0]
     ∧ io_service ses2 = [sync_ret_task (ptr_of demo_live) demo_bump 0])
  ∧ (∃ ses1 ses2,
       sync_call_on false Executor demo_live S demo_session
         = InHandler (ptr_of demo_live) false None ses1
       ∧ sync_call_ret_on false Executor demo_live 0%Z demo_bump demo_session
         = InHandler (ptr_of demo_live) false (Some 7%Z) ses2
       ∧ io_service ses1 = [] ∧ io_service ses2 = []).
Proof.
  split.
  - destruct (blocking_call_on_live_torrent false (Caller 0) demo_live S 0%Z
                demo_bump demo_session)
      as (ses1 & ses2 & _ & _ & _ & _ & H1 & H2 & _ & _ & Hq1 & Hq2 & _).
    { vm_compute. reflexivity. }
    exists ses1, ses2. split_and!; [exact H1|exact H2|exact Hq1|exact Hq2].
  - destruct (blocking_call_on_live_torrent false Executor demo_live S 0%Z
                demo_bump demo_session)
      as (ses1 & ses2 & _ & _ & _ & _ & blk & Hblk & H1 & H2 & Hq1 & Hq2 & _).
    { vm_compute. reflexivity. }
    assert (blk = CtrlBlock 1 7) as -> by (vm_compute in Hblk; congruence).
    exists ses1, ses2. split_and!; [exact H1|exact H2|exact Hq1|exact Hq2].
Defined.

Lemma get_torrent_info_expired_witness :
  torrent_file false demo_bump demo_dead 0 demo_session
    = Returned (Some 0%Z) demo_session
  ∧ (get_torrent_info 0 (after_calls [11; 12; 13; 14]%Z holder_init)).1 = None
  ∧ holder (get_torrent_info 0 (after_calls [11; 12; 13; 14]%Z holder_init)).2
    = [0; 12; 13; 14]%Z.
Proof.
  destruct (get_torrent_info_expired demo_bump demo_dead 0 demo_session
              (after_calls [11; 12; 13; 14]%Z holder_init))
    as (Hfile & Hinfo & _).
  { vm_compute. reflexivity. }
  { split; [reflexivity|]. vm_compute. split; [discriminate|reflexivity]. }
  split; [exact Hfile|]. rewrite Hinfo. split; reflexivity.
Defined.

Lemma calls_run_in_program_order_witness :
  interleaving (imap issued_tasks (callers demo_two_end)) (submitted demo_two_end)
  ∧ length (log demo_two_end) = 2.
Proof.
  destruct (calls_run_in_program_order false demo_heap demo_two
              demo_two_schedule demo_two_end) as (Hil & _ & _ & Hlen).
  { repeat constructor. }
  { vm_compute. reflexivity. }
  split; [exact Hil|]. exact Hlen.
Defined.

Lemma single_caller_sequential_witness :
  ∃ c, callers demo_limit_end = [c]
    ∧ rets c = [Immediate None; Waited (Some 5%Z)]
    ∧ torrents (ses demo_limit_end)
      = {[ 100%Z := CtrlBlock 1 5; 200%Z := CtrlBlock 0 3 ]}.
Proof.
  destruct (single_caller_sequential false demo_heap demo_limit
              demo_limit_schedule demo_limit_end)
    as (_ & _ & c & Hcs & _ & _ & _ & Hrets & Hheap).
  { repeat constructor. }
  { vm_compute. reflexivity. }
  { intros l. destruct l as [i| |i]; intros Hl; [|vm_compute; reflexivity|done].
    destruct i as [|i]; vm_compute; reflexivity. }
  exists c. split; [exact Hcs|]. split.
  - rewrite Hrets. vm_compute. reflexivity.
  - rewrite Hheap. vm_compute. reflexivity.
Defined.

Lemma strong_counts_balance_witness :
  use_count <$> torrents (ses demo_two_end) !! 100%Z
  = use_count <$> demo_heap !! 100%Z.
Proof.
  destruct (strong_counts_balance false demo_heap demo_two demo_two_schedule
              demo_two_end) as [_ Hq].
  { vm_compute. reflexivity. }
  apply Hq. split; [vm_compute; reflexivity|]. split; [vm_compute; reflexivity|].
  intros i c Hi. destruct i as [|[|i]]; vm_compute in Hi; try discriminate Hi;
    injection Hi as <-; reflexivity.
Defined.

Lemma done_written_under_mutex_witness :
  mut (ses demo_seq_locked) = Some Executor.
Proof.
  destruct (done_written_under_mutex false demo_heap demo_seq
              (take 5 demo_seq_schedule) demo_seq_locked) as [_ Hw].
  { vm_compute. reflexivity. }
  assert (∃ s' cj cj', step false run_executor demo_seq_locked = Some s'
            ∧ callers demo_seq_locked !! 0 = Some cj
            ∧ callers s' !! 0 = Some cj'
            ∧ done cj' ≠ done cj) as (s' & cj & cj' & Hs & Hc & Hc' & Hd).
  { do 3 eexists. vm_compute. split_and!; try reflexivity. discriminate. }
  destruct (Hw _ _ _ _ _ Hs Hc Hc' Hd) as [(_ & Hm & _)|(Hl & _)];
    [exact Hm|discriminate Hl].
Defined.

Lemma handlers_keep_torrent_alive_witness :
  ∃ blk, torrents (ses demo_seq_locked) !! 100%Z = Some blk
    ∧ 1 < use_count blk
    ∧ is_valid demo_live (release 100%Z (torrents (ses demo_seq_locked))) = true.
Proof.
  destruct (handlers_keep_torrent_alive false demo_heap demo_seq
              (take 5 demo_seq_schedule) demo_seq_locked) as [_ Hkeep].
  { vm_compute. reflexivity. }
  destruct (Hkeep (ptr_of demo_live)) as (blk0 & blk & Hb0 & Hb & Hlt & Hvalid).
  { right. assert (∃ c p, callers demo_seq_locked !! 0 = Some c
                     ∧ pc c = InWait (ptr_of demo_live) p) as (c & p & Hc & Hpc).
    { do 2 eexists. vm_compute. split; reflexivity. }
    by exists 0, c, p. }
  assert (blk0 = CtrlBlock 1 7) as -> by (vm_compute in Hb0; congruence).
  exists blk. split; [exact Hb|]. split; [exact Hlt|].
  exact (Hvalid demo_live eq_refl).
Defined.

(** The call on the torrent that is gone came back at once with its
    default, the call on the live one with the counter. *)
Example demo_mixed_results :
  (λ c, (pc c, rets c)) <$> callers demo_mixed_end
  = [(Ready, [Immediate (Some 5%Z); Waited (Some 7%Z)])].
Proof. vm_compute. reflexivity. Qed.


Lemma upload_limit_reads_back_witness :
  ∃ c, callers demo_limit_end = [c]
    ∧ rets c = [Immediate None; Waited (Some 5%Z)].
Proof.
  destruct (upload_limit_reads_back false demo_heap demo_live demo_set_limit
              demo_get_limit 5%Z demo_limit_schedule demo_limit_end)
    as [_ Hc].
  { vm_compute. reflexivity. }
  { intros a. reflexivity. }
  { vm_compute. reflexivity. }
  { intros l. destruct l as [i| |i]; intros Hl; [|vm_compute; reflexivity|done].
    destruct i as [|i]; vm_compute; reflexivity. }
  exact Hc.
Defined.
